(** * simplexnoise tile server: the tile pipeline of [main.go]

    A shallow embedding of [main.go] and the properties of its tile
    pipeline.

    - Go's [int] and [uint] are the 64-bit machine integers of a 64-bit
      target: values are carried in [Z] and every operation that can leave
      the range writes its wrap-around out ([GoInt]).
    - Go's [float64] is IEEE 754 binary64; it is embedded as Rocq's primitive
      [float], whose operations are the binary64 operations with
      round-to-nearest-even ([Floats]).
    - [math.Cos], [math.Sin], [math.Log] and the noise primitives [Noise3]
      and [Noise4] (functions of this package that live in another file) are
      parameters of the embedding; [math.Sqrt] is the binary64 square root.
    - The properties are stated on these binary64 definitions.  Where a
      statement speaks of the number a float stands for, it is [F64.value].
      Module [Ideal] reads the HSL helper a second time over the real
      numbers, to tell what rounding changes. *)

From Stdlib Require Import ZArith Zpower List String Ascii Bool Lia.
From Stdlib Require Import Floats Reals Lra.
From Stdlib Require QArith Qreals Machin.
Import ListNotations.

Set Warnings "-inexact-float".

(** ** Machine integers *)

Module GoInt.

Local Open Scope Z_scope.

Definition min_int : Z := - 2 ^ 63.
Definition max_int : Z := 2 ^ 63 - 1.

(** Two's complement reduction of a mathematical integer to [int]. *)
Definition wrap_int (n : Z) : Z := (n + 2 ^ 63) mod 2 ^ 64 - 2 ^ 63.

(** Reduction to [uint]. *)
Definition wrap_uint (n : Z) : Z := n mod 2 ^ 64.

(** [a + b] on [int]. *)
Definition add (a b : Z) : Z := wrap_int (a + b).

(** The conversion [uint(a)] of an [int]. *)
Definition to_uint (a : Z) : Z := wrap_uint a.

(** [a << s] on [int] with an unsigned shift count: the bits shifted out
    are lost and a count of 64 or more leaves 0. *)
Definition shl (a s : Z) : Z := if s <? 64 then wrap_int (a * 2 ^ s) else 0.

(** [a << s] on [uint]. *)
Definition ushl (a s : Z) : Z := if s <? 64 then wrap_uint (a * 2 ^ s) else 0.

End GoInt.

(** ** binary64 conversions and [math] helpers *)

Module F64.

(** [float64(n)] for an integer [n]: the nearest binary64, ties to even. *)
Definition of_int (n : Z) : float :=
  SF2Prim (binary_normalize prec emax n 0 false).

(** The integer part of a finite float (fraction discarded, towards zero). *)
Definition trunc (f : float) : option Z :=
  match Prim2SF f with
  | S754_zero _ => Some 0%Z
  | S754_finite s m e =>
      let a := if (0 <=? e)%Z then (Zpos m * 2 ^ e)%Z
               else (Zpos m / 2 ^ (- e))%Z in
      Some (if s then (- a)%Z else a)
  | S754_infinity _ | S754_nan => None
  end.

(** [uint8(f)]: truncation towards zero.  Go leaves the result open when the
    integer part does not fit; the value kept here for that case is the low
    byte of the integer part (0 for infinities and NaN), as the gc compiler
    produces on amd64 for moderate magnitudes. *)
Definition to_uint8 (f : float) : Z :=
  match trunc f with
  | Some n => (n mod 256)%Z
  | None => 0%Z
  end.

(** [math.Mod(x, y)]: the exact remainder of [x / y] with the sign of [x]. *)
Definition Mod (x y : float) : float :=
  match Prim2SF x, Prim2SF y with
  | S754_nan, _ | _, S754_nan => nan
  | S754_infinity _, _ => nan
  | _, S754_zero _ => nan
  | _, S754_infinity _ => x
  | S754_zero _, _ => x
  | S754_finite sx mx ex, S754_finite _ my ey =>
      let e := Z.min ex ey in
      let r := Z.rem (Zpos mx * 2 ^ (ex - e)) (Zpos my * 2 ^ (ey - e)) in
      if (r =? 0)%Z then (if sx then neg_zero else zero)
      else SF2Prim (binary_normalize prec emax (if sx then (- r)%Z else r) e false)
  end.

(** [math.Pi] converted to [float64]. *)
Definition Pi : float := 3.141592653589793%float.

(** The real number that sign [s], mantissa [m] and exponent [e] stand
    for. *)
Definition SFval (s : bool) (m : positive) (e : Z) : R :=
  ((if s then - IZR (Zpos m) else IZR (Zpos m)) * powerRZ 2 e)%R.

(** The real value of a finite float. *)
Definition value (f : float) : option R :=
  match Prim2SF f with
  | S754_zero _ => Some 0%R
  | S754_finite s m e => Some (SFval s m e)
  | S754_infinity _ | S754_nan => None
  end.

(** [f] is finite and its value is exactly [r]. *)
Definition has_value (f : float) (r : R) : Prop := value f = Some r.

(** What rounding leaves of a mantissa that needs no rounding: the float
    itself, or an infinity when the exponent is out of range. *)
Definition overflow_or (sx : bool) (n : positive) (e : Z) : spec_float :=
  if (e <=? emax - prec)%Z then S754_finite sx n e else S754_infinity sx.

(** The mantissa of a power of two: [2^52]. *)
Definition two52 : positive := 4503599627370496.

(** One coordinate of a corner of a tile's extent, as [tileExtent] computes
    it from the index [x] and the zoom level [z] below 64. *)
Definition axisCoord (x z : Z) : float :=
  ((of_int x / of_int (2 ^ z) - 0.5) * 4)%float.

(** [mx * 2^ex] and [n * 2^e] are the same number. *)
Definition same_dyadic (mx : positive) (ex : Z) (n : positive) (e : Z) : Prop :=
  ((ex <= e /\ Zpos mx = Zpos n * 2 ^ (e - ex))
   \/ (e <= ex /\ Zpos n = Zpos mx * 2 ^ (ex - e)))%Z.

End F64.

(** ** Data types *)

(** [type TileCoords struct { Z, X, Y int }] *)
Record TileCoords := mkTileCoords { coordZ : Z; coordX : Z; coordY : Z }.

(** [type Vector struct { X, Y float64 }] *)
Record Vector := mkVector { X : float; Y : float }.

(** [type Extent struct { Min, Max Vector }] *)
Record Extent := mkExtent { Min : Vector; Max : Vector }.

(** [color.RGBA]: the four 8-bit channels R, G, B, A. *)
Record RGBA := mkRGBA { chR : Z; chG : Z; chB : Z; chA : Z }.

(** [*image.RGBA] of a rectangle with origin (0, 0): the pixels in row-major
    order, each holding the four bytes that [Pix] stores for it. *)
Record Image := mkImage { Width : nat; Height : nat; Pix : list RGBA }.

(** The error values of [extractTileCoords]. *)
Inductive TileError :=
| ErrNotEnoughMatches (got : nat)
| ErrExtractingZ
| ErrExtractingX
| ErrExtractingY
| ErrInvalidCoords (coords : TileCoords).

(** The values the HSL helper panics with. *)
Inductive PanicValue :=
| PanicHue
| PanicSaturation
| PanicLightness
| PanicSwitchDefault
| PanicR (r : float)
| PanicG (g : float)
| PanicB (b : float).

Inductive Outcome (A : Type) :=
| Returns (a : A)
| Panics (v : PanicValue).
Arguments Returns {A} a.
Arguments Panics {A} v.

(** What the handler of [tileServer] answers. *)
Inductive Response :=
| BadRequest (err : TileError)
| TilePNG (tile : Image).

(** ** Request paths *)

(** [\d] of Go's regexp syntax: an ASCII decimal digit. *)
Definition is_digit (c : ascii) : bool :=
  (48 <=? nat_of_ascii c)%nat && (nat_of_ascii c <=? 57)%nat.

(** The longest prefix of digits and what follows it: how the greedy [\d+]
    consumes its input.  The pattern continues with a character that is no
    digit each time, so no shorter repetition can match. *)
Fixpoint span_digits (s : string) : string * string :=
  match s with
  | EmptyString => (EmptyString, EmptyString)
  | String c r =>
      if is_digit c
      then let (d, t) := span_digits r in (String c d, t)
      else (EmptyString, s)
  end.

(** One capture group [(\d+)]: at least one digit. *)
Definition group_digits (s : string) : option (string * string) :=
  match span_digits s with
  | (EmptyString, _) => None
  | (d, t) => Some (d, t)
  end.

(** A literal character of the pattern. *)
Definition literal (c : ascii) (s : string) : option string :=
  match s with
  | String c' r => if Ascii.eqb c c' then Some r else None
  | EmptyString => None
  end.

(** [pathRegex.FindStringSubmatch(path)] for
    [pathRegex = ^/(\d+)/(\d+)/(\d+)\.png$]: the whole match and the three
    groups, or [nil] when the path does not match.  Both anchors are present,
    so a match is the whole path. *)
Definition FindStringSubmatch (path : string) : list string :=
  match literal "/" path with
  | None => []
  | Some r0 =>
  match group_digits r0 with
  | None => []
  | Some (g1, r1) =>
  match literal "/" r1 with
  | None => []
  | Some r2 =>
  match group_digits r2 with
  | None => []
  | Some (g2, r3) =>
  match literal "/" r3 with
  | None => []
  | Some r4 =>
  match group_digits r4 with
  | None => []
  | Some (g3, r5) =>
      if String.eqb r5 ".png" then [path; g1; g2; g3] else []
  end end end end end end.

(** The value of a string of decimal digits, most significant first;
    [None] when a character is no digit. *)
Fixpoint digits_value (acc : Z) (s : string) : option Z :=
  match s with
  | EmptyString => Some acc
  | String c r =>
      if is_digit c
      then digits_value (acc * 10 + (Z.of_nat (nat_of_ascii c) - 48))%Z r
      else None
  end.

(** [strconv.Atoi(s)]: an optional sign and decimal digits; an error ([None])
    for a syntax error or a value outside [int]. *)
Definition Atoi (s : string) : option Z :=
  let '(neg, body) :=
    match s with
    | String "-" r => (true, r)
    | String "+" r => (false, r)
    | _ => (false, s)
    end in
  match body with
  | EmptyString => None
  | _ =>
      match digits_value 0 body with
      | None => None
      | Some v =>
          let n := if neg then (- v)%Z else v in
          if (GoInt.min_int <=? n)%Z && (n <=? GoInt.max_int)%Z
          then Some n else None
      end
  end.

(** [func extractTileCoords(path string) (TileCoords, error)] *)
Definition extractTileCoords (path : string) : TileError + TileCoords :=
  let matches := FindStringSubmatch path in
  if negb (List.length matches =? 4)%nat
  then inl (ErrNotEnoughMatches (List.length matches))
  else
    match Atoi (nth 1 matches EmptyString) with
    | None => inl ErrExtractingZ
    | Some z =>
    match Atoi (nth 2 matches EmptyString) with
    | None => inl ErrExtractingX
    | Some x =>
    match Atoi (nth 3 matches EmptyString) with
    | None => inl ErrExtractingY
    | Some y =>
        let coords := mkTileCoords z x y in
        let max := GoInt.shl 1 (GoInt.to_uint (coordZ coords)) in
        if (coordX coords <? 0)%Z || (coordX coords >=? max)%Z
           || (coordY coords <? 0)%Z || (coordY coords >=? max)%Z
        then inl (ErrInvalidCoords coords)
        else inr coords
    end end end.

(** ** Images *)

(** Replace the element at index [i]; nothing changes out of range. *)
Fixpoint set_nth {T : Type} (l : list T) (i : nat) (a : T) : list T :=
  match l, i with
  | [], _ => []
  | _ :: t, O => a :: t
  | h :: t, S j => h :: set_nth t j a
  end.

(** [image.NewRGBA(image.Rect(0, 0, w, h))]: every byte of [Pix] is 0. *)
Definition NewRGBA (w h : nat) : Image :=
  mkImage w h (repeat (mkRGBA 0 0 0 0) (w * h)).

(** The index of pixel (x, y) in row-major order. *)
Definition PixOffset (img : Image) (x y : nat) : nat := y * Width img + x.

Definition in_bounds (img : Image) (x y : nat) : bool :=
  (x <? Width img)%nat && (y <? Height img)%nat.

(** [img.SetRGBA(x, y, c)]: a point outside the rectangle is ignored. *)
Definition SetRGBA (img : Image) (x y : nat) (c : RGBA) : Image :=
  if in_bounds img x y
  then mkImage (Width img) (Height img) (set_nth (Pix img) (PixOffset img x y) c)
  else img.

(** [img.RGBAAt(x, y)]: the zero colour outside the rectangle. *)
Definition RGBAAt (img : Image) (x y : nat) : RGBA :=
  if in_bounds img x y
  then nth (PixOffset img x y) (Pix img) (mkRGBA 0 0 0 0)
  else mkRGBA 0 0 0 0.

(** An image of [w] by [h] pixels that holds every one of them. *)
Definition sized (w h : nat) (img : Image) : Prop :=
  Width img = w /\ Height img = h /\ List.length (Pix img) = (w * h)%nat.

(** The inner loop of a raster scan: [n] columns of row [y] from column [a],
    each pixel set to what [colourAt] gives for it. *)
Definition paintRow (colourAt : nat -> nat -> RGBA) (y a n : nat) (tile : Image) : Image :=
  fold_left (fun tile x => SetRGBA tile x y (colourAt x y)) (seq a n) tile.

(** The outer loop: [n] rows of [w] columns from row [b]. *)
Definition paintRows (colourAt : nat -> nat -> RGBA) (w b n : nat) (tile : Image) : Image :=
  fold_left (fun tile y => paintRow colourAt y 0 w tile) (seq b n) tile.

(** ** The tile pipeline over binary64 *)

Section Program.

Local Open Scope float_scope.

(** [math.Cos], [math.Sin] and the 4-dimensional noise primitive. *)
Variables Cos Sin : float -> float.
Variable Noise4 : float -> float -> float -> float -> float.

(** [func (v Vector) Sub(u Vector) Vector] *)
Definition Sub (v u : Vector) : Vector := mkVector (X v - X u) (Y v - Y u).

(** [func (v Vector) Scale(f float64) Vector] *)
Definition Scale (v : Vector) (f : float) : Vector := mkVector (X v * f) (Y v * f).

(** [func tileExtent(coords TileCoords) Extent] *)
Definition tileExtent (coords : TileCoords) : Extent :=
  let tiles := F64.of_int (GoInt.ushl 1 (GoInt.to_uint (coordZ coords))) in
  let extent :=
    mkExtent
      (mkVector (F64.of_int (coordX coords) / tiles)
                (F64.of_int (coordY coords) / tiles))
      (mkVector (F64.of_int (GoInt.add (coordX coords) 1) / tiles)
                (F64.of_int (GoInt.add (coordY coords) 1) / tiles)) in
  let extent := mkExtent (Sub (Min extent) (mkVector 0.5 0.5)) (Max extent) in
  let extent := mkExtent (Min extent) (Sub (Max extent) (mkVector 0.5 0.5)) in
  let extent := mkExtent (Scale (Min extent) 4) (Max extent) in
  let extent := mkExtent (Min extent) (Scale (Max extent) 4) in
  extent.

(** [func colouriseByValue(value float64) color.RGBA].

    [0.40 + 0.20] and [0.60 + 0.30] are constant expressions: Go evaluates
    them exactly and converts the results, 0.6 and 0.9, to [float64].
    [maximum - minimum] in the mountains band subtracts two variables and
    is a binary64 subtraction. *)
Definition colouriseByValue (value : float) : RGBA :=
  let '(r, g, b) :=
    if value <? -0.1 then
      (0.0, 0.0, 0.4)
    else if value <? 0.2 then
      let maximum := 0.0 in
      (0.1 + (maximum + value), 0.1 + (maximum + value), 0.5 + (maximum + value))
    else if value <? 0.201 then
      (500 * (0.202 - value), 500 * (0.202 - value), 250 * (0.202 - value))
    else if value <? 0.40 then
      let maximum := 0.6 in
      (1.2 * (maximum - value), 1.6 * (maximum - value), 0.8 * (maximum - value))
    else if value <? 0.60 then
      let maximum := 0.9 in
      (0.2 * (maximum - value), 0.8 * (maximum - value), 0.1 * (maximum - value))
    else if value <? 0.90 then
      let maximum := 0.90 in
      let minimum := 0.10 in
      let diff := maximum - minimum in
      (0.8 / diff * (value - minimum), 0.7 / diff * (value - minimum),
       0.6 / diff * (value - minimum))
    else if value <? 1.2 then
      (0.8 * value, 0.8 * value, 0.8 * value)
    else
      (1.0, 1.0, 1.0) in
  mkRGBA (F64.to_uint8 (r * 255)) (F64.to_uint8 (g * 255)) (F64.to_uint8 (b * 255)) 255.

(** [func hslToRGB(hue, saturation, lightness float64) color.RGBA] *)
Definition hslToRGB (hue saturation lightness : float) : Outcome RGBA :=
  if (hue <? 0) || (360 <? hue) then Panics PanicHue
  else if (saturation <? 0) || (1 <? saturation) then Panics PanicSaturation
  else if (lightness <? 0) || (1 <? lightness) then Panics PanicLightness
  else
    let c := (1 - abs (2 * lightness - 1)) * saturation in
    let hueAdj := hue / 60 in
    let x := c * (1 - abs (F64.Mod hueAdj 2 - 1)) in
    let sector :=
      if hueAdj <=? 1 then Some (c, x, 0)
      else if hueAdj <=? 2 then Some (x, c, 0)
      else if hueAdj <=? 3 then Some (0, c, x)
      else if hueAdj <=? 4 then Some (0, x, c)
      else if hueAdj <=? 5 then Some (x, 0, c)
      else if hueAdj <=? 6 then Some (c, 0, x)
      else None in
    match sector with
    | None => Panics PanicSwitchDefault
    | Some (r, g, b) =>
        let m := lightness - 0.5 * c in
        let r := r + m in
        let g := g + m in
        let b := b + m in
        if (r <? 0) || (1.0 <? r) then Panics (PanicR r)
        else if (g <? 0) || (1.0 <? g) then Panics (PanicG g)
        else if (b <? 0) || (1.0 <? b) then Panics (PanicB b)
        else Returns (mkRGBA (F64.to_uint8 (r * 255)) (F64.to_uint8 (g * 255))
                             (F64.to_uint8 (b * 255)) 255)
    end.

(** [func colourise(value float64) color.RGBA] *)
Definition colourise (value : float) : Outcome RGBA :=
  let value := value * 215 in
  hslToRGB (F64.Mod (value + 360) 360) 0.5 0.5.

(** The body of the octave loop of [simplexTorus], run [n] times from the
    state ([scale], [value]). *)
Fixpoint torusLoop (n : nat) (c : Vector) (scale value : float) : float :=
  match n with
  | O => value
  | S n' =>
      let scale := scale * 2 in
      let nx := Cos (X c / 2 * scale * F64.Pi) in
      let nz := Sin (X c / 2 * scale * F64.Pi) in
      let ny := Cos (Y c / 2 * scale * F64.Pi) in
      let nw := Sin (Y c / 2 * scale * F64.Pi) in
      let value := value + Noise4 nx ny nz nw / scale in
      torusLoop n' c scale value
  end.

(** [func simplexTorus(c Vector, coords TileCoords) float64].

    The loop [for z := 1; z <= coords.Z+16; z++] runs [coords.Z+16] times
    when that sum, computed on [int], is positive and below the largest
    [int], and not at all when it is zero or negative.  When the sum is the
    largest [int] the Go loop never ends and the embedding stands for its
    first [2^63 - 1] rounds only; [octavesEnd] below excludes that zoom level
    where a statement says that a result is returned. *)
Definition simplexTorus (c : Vector) (coords : TileCoords) : float :=
  let nx := Cos (X c / 2 * F64.Pi) in
  let nz := Sin (X c / 2 * F64.Pi) in
  let ny := Cos (Y c / 2 * F64.Pi) in
  let nw := Sin (Y c / 2 * F64.Pi) in
  let value := Noise4 nx ny nz nw in
  let scale := 1 in
  torusLoop (Z.to_nat (GoInt.add (coordZ coords) 16)) c scale value.

(** [const tileSize = 256] *)
Definition tileSize : nat := 256.

(** [func renderTile(coords TileCoords) image.Image] *)
Definition renderTile (coords : TileCoords) : Image :=
  let extent := tileExtent coords in
  let tile := NewRGBA tileSize tileSize in
  fold_left (fun tile y =>
    fold_left (fun tile x =>
      let c :=
        mkVector
          (X (Min extent)
           + (X (Max extent) - X (Min extent)) * F64.of_int (Z.of_nat x) / 256)
          (Y (Min extent)
           + (X (Max extent) - X (Min extent)) * F64.of_int (Z.of_nat y) / 256) in
      let value := simplexTorus c coords in
      let colour := colouriseByValue value in
      SetRGBA tile x y colour)
    (seq 0 tileSize) tile)
  (seq 0 tileSize) tile.

(** The handler of [tileServer], up to the PNG encoding of the tile: a path
    that [extractTileCoords] refuses is answered with "bad request" before
    anything is rendered. *)
Definition tileServer (path : string) : Response :=
  match extractTileCoords path with
  | inl err => BadRequest err
  | inr coords => TilePNG (renderTile coords)
  end.

(** The 3-dimensional noise primitive and [math.Log]. *)
Variable Noise3 : float -> float -> float -> float.
Variable Log : float -> float.

(** The closure [iterate] of [mandelbrot]: [z] becomes [z*z + c].  Every
    operation rounds on its own, as the compiler leaves them on amd64. *)
Definition iterate (c z : Vector) : Vector :=
  mkVector (X z * X z - Y z * Y z + X c) (2 * X z * Y z + Y c).

(** The loop of [mandelbrot] with [n] rounds left, at round [i] with the
    state [z]. *)
Fixpoint mandelbrotLoop (n : nat) (c z : Vector) (i : Z) : float :=
  match n with
  | O => 0
  | S n' =>
      let z := iterate c z in
      if 4 <? X z * X z + Y z * Y z then
        let z := iterate c z in
        let z := iterate c z in
        let modulus := PrimFloat.sqrt (X z * X z + Y z * Y z) in
        F64.of_int i - Log (Log modulus) / Log 2
      else mandelbrotLoop n' c z (i + 1)
  end.

(** [func mandelbrot(c Vector) float64], with [maxIter = 1000]. *)
Definition mandelbrot (c : Vector) : float :=
  mandelbrotLoop 1000 c (mkVector 0 0) 0.

(** [func simplexSphere(c Vector, coords TileCoords) float64] *)
Definition simplexSphere (c : Vector) (coords : TileCoords) : float :=
  let nx := Cos (X c / 2 * F64.Pi) in
  let nz := Sin (X c / 2 * F64.Pi) in
  let ny := Y c / 2 in
  Noise3 nx ny nz.

End Program.

(** ** The HSL helper over the real numbers *)

Module Ideal.

Local Open Scope R_scope.

Definition Rltb (x y : R) : bool := if Rlt_dec x y then true else false.
Definition Rleb (x y : R) : bool := if Rle_dec x y then true else false.

(** The integer part of a real, towards zero. *)
Definition Rtrunc (r : R) : Z :=
  if Rle_dec 0 r then Int_part r else (- Int_part (- r))%Z.

(** [math.Mod] for a divisor that is not zero. *)
Definition Mod (x y : R) : R := x - IZR (Rtrunc (x / y)) * y.

(** The fractional channels [hslToRGB] converts when it returns. *)
Inductive Outcome :=
| Returns (r g b : R)
| Panics.

(** [hslToRGB] over the reals, up to the conversion of the channels. *)
Definition hslToRGB (hue saturation lightness : R) : Outcome :=
  if Rltb hue 0 || Rltb 360 hue then Panics
  else if Rltb saturation 0 || Rltb 1 saturation then Panics
  else if Rltb lightness 0 || Rltb 1 lightness then Panics
  else
    let c := (1 - Rabs (2 * lightness - 1)) * saturation in
    let hueAdj := hue / 60 in
    let x := c * (1 - Rabs (Mod hueAdj 2 - 1)) in
    let sector :=
      if Rleb hueAdj 1 then Some (c, x, 0)
      else if Rleb hueAdj 2 then Some (x, c, 0)
      else if Rleb hueAdj 3 then Some (0, c, x)
      else if Rleb hueAdj 4 then Some (0, x, c)
      else if Rleb hueAdj 5 then Some (x, 0, c)
      else if Rleb hueAdj 6 then Some (c, 0, x)
      else None in
    match sector with
    | None => Panics
    | Some (r, g, b) =>
        let m := lightness - 0.5 * c in
        let r := r + m in
        let g := g + m in
        let b := b + m in
        if Rltb r 0 || Rltb 1 r then Panics
        else if Rltb g 0 || Rltb 1 g then Panics
        else if Rltb b 0 || Rltb 1 b then Panics
        else Returns r g b
    end.

End Ideal.

(** ** The statements of the specification, in its own words *)

Section Specification.

Local Open Scope float_scope.

Variables Cos Sin : float -> float.
Variable Noise4 : float -> float -> float -> float -> float.

(** [2^k] as a [float64]. *)
Definition pow2 (k : nat) : float := F64.of_int (2 ^ Z.of_nat k).

(** The base octave: the noise at the point of the torus that [c] maps to. *)
Definition baseOctave (c : Vector) : float :=
  Noise4 (Cos (X c / 2 * F64.Pi)) (Cos (Y c / 2 * F64.Pi))
         (Sin (X c / 2 * F64.Pi)) (Sin (Y c / 2 * F64.Pi)).

(** Octave [k]: the same four expressions with the angle multiplied by
    [2^k], the noise divided by [2^k]. *)
Definition octave (c : Vector) (k : nat) : float :=
  Noise4 (Cos (X c / 2 * pow2 k * F64.Pi)) (Cos (Y c / 2 * pow2 k * F64.Pi))
         (Sin (X c / 2 * pow2 k * F64.Pi)) (Sin (Y c / 2 * pow2 k * F64.Pi))
  / pow2 k.

(** The base octave plus the octaves 1 to [n], added in that order. *)
Definition octaveSum (c : Vector) (n : nat) : float :=
  fold_left (fun acc k => acc + octave c k) (seq 1 n) (baseOctave c).

(** The world point of pixel ([px], [py]) of a tile with the given extent:
    both coordinates advance by the width of the extent. *)
Definition pixelPoint (extent : Extent) (px py : nat) : Vector :=
  mkVector
    (X (Min extent)
     + (X (Max extent) - X (Min extent)) * F64.of_int (Z.of_nat px) / 256)
    (Y (Min extent)
     + (X (Max extent) - X (Min extent)) * F64.of_int (Z.of_nat py) / 256).

(** A band of the palette: its exclusive upper bound and its colour law. *)
Definition Law : Type := float -> float * float * float.

(** The seven bands in ascending order.  A product written [a·b/c] in the
    mountains law is read as the slope [b/c] applied to [a]. *)
Definition bands : list (float * Law) :=
  [ (-0.1,  fun _ => (0, 0, 0.4));
    (0.2,   fun v => (0.1 + v, 0.1 + v, 0.5 + v));
    (0.201, fun v => (500 * (0.202 - v), 500 * (0.202 - v), 250 * (0.202 - v)));
    (0.40,  fun v => (1.2 * (0.60 - v), 1.6 * (0.60 - v), 0.8 * (0.60 - v)));
    (0.60,  fun v => (0.2 * (0.90 - v), 0.8 * (0.90 - v), 0.1 * (0.90 - v)));
    (0.90,  fun v => ((v - 0.10) * (0.8 / 0.80), (v - 0.10) * (0.7 / 0.80),
                      (v - 0.10) * (0.6 / 0.80)));
    (1.2,   fun v => (0.8 * v, 0.8 * v, 0.8 * v)) ].

(** The law of the first band whose bound is strictly above [v]; constant
    white when there is none. *)
Fixpoint selectBand (bs : list (float * Law)) (v : float) : float * float * float :=
  match bs with
  | [] => (1, 1, 1)
  | (bound, law) :: rest => if v <? bound then law v else selectBand rest v
  end.

(** The palette mapper as the specification words it. *)
Definition paletteSpec (v : float) : RGBA :=
  let '(r, g, b) := selectBand bands v in
  mkRGBA (F64.to_uint8 (r * 255)) (F64.to_uint8 (g * 255)) (F64.to_uint8 (b * 255)) 255.

(** The band boundaries. *)
Definition boundaries : list float := [-0.1; 0.2; 0.201; 0.40; 0.60; 0.90; 1.2].

(** The largest change of a channel between two colours, in 8-bit steps. *)
Definition channelJump (a b : RGBA) : Z :=
  Z.max (Z.abs (chR a - chR b))
        (Z.max (Z.abs (chG a - chG b)) (Z.abs (chB a - chB b))).

(** The step of the palette at [b]: from the largest [float64] below [b]
    to [b]. *)
Definition jumpAt (b : float) : Z :=
  channelJump (colouriseByValue (next_down b)) (colouriseByValue b).

(** Every boundary but sand/grassland (0.201) steps by at most [tol], and
    sand/grassland steps by more. *)
Definition continuousExceptSandGrass (tol : Z) : Prop :=
  (jumpAt (-0.1) <= tol /\ jumpAt 0.2 <= tol /\ jumpAt 0.40 <= tol
   /\ jumpAt 0.60 <= tol /\ jumpAt 0.90 <= tol /\ jumpAt 1.2 <= tol
   /\ tol < jumpAt 0.201)%Z.

(** The octave loop of [simplexTorus] ends: its bound is not the largest
    [int], which the loop counter could never exceed. *)
Definition octavesEnd (c : TileCoords) : Prop :=
  GoInt.add (coordZ c) 16 <> GoInt.max_int.

(** The invariant of a tile coordinate. *)
Definition validTileCoords (c : TileCoords) : Prop :=
  (0 <= coordZ c /\ 0 <= coordX c < 2 ^ coordZ c /\ 0 <= coordY c < 2 ^ coordZ c)%Z.

(** [x / 2^z]. *)
Definition tileFraction (x z : Z) : R := (IZR x / IZR (2 ^ z))%R.

(** The extent the specification gives: both corners, each axis. *)
Definition extentSpec (c : TileCoords) (e : Extent) : Prop :=
  F64.has_value (X (Min e)) (4 * (tileFraction (coordX c) (coordZ c) - 1 / 2))%R
  /\ F64.has_value (Y (Min e)) (4 * (tileFraction (coordY c) (coordZ c) - 1 / 2))%R
  /\ F64.has_value (X (Max e)) (4 * (tileFraction (coordX c + 1) (coordZ c) - 1 / 2))%R
  /\ F64.has_value (Y (Max e)) (4 * (tileFraction (coordY c + 1) (coordZ c) - 1 / 2))%R.

(** Both sides of the extent are proper and as long as [4 / 2^z]: the
    corners compare with [<], and the subtractions of [renderTile] give the
    width and the height. *)
Definition extentProper (c : TileCoords) (e : Extent) : Prop :=
  (X (Min e) <? X (Max e)) = true
  /\ (Y (Min e) <? Y (Max e)) = true
  /\ F64.has_value (X (Max e) - X (Min e)) (4 / IZR (2 ^ coordZ c))%R
  /\ F64.has_value (Y (Max e) - Y (Min e)) (4 / IZR (2 ^ coordZ c))%R.

End Specification.

(** Every character of [s] is a decimal digit. *)
Definition digitsOnly (s : string) : Prop :=
  forall c, In c (list_ascii_of_string s) -> is_digit c = true.

(** [s] is empty or begins with a character that is no digit. *)
Definition startsNonDigit (s : string) : Prop :=
  match s with
  | EmptyString => True
  | String c _ => is_digit c = false
  end.

(** A non-empty string of decimal digits. *)
Definition isDecimal (s : string) : Prop :=
  s <> EmptyString /\ digitsOnly s.

(** One more digit to the right of a number. *)
Definition digitStep (acc : Z) (c : ascii) : Z :=
  (10 * acc + (Z.of_nat (nat_of_ascii c) - 48))%Z.

(** The number a string of decimal digits writes. *)
Definition decimalValue (s : string) : Z :=
  fold_left digitStep (list_ascii_of_string s) 0%Z.

(** [path] is [/z/x/y.png] with [z], [x], [y] written in decimal digits. *)
Definition parsesAs (path : string) (z x y : Z) : Prop :=
  exists dz dx dy,
    isDecimal dz /\ isDecimal dx /\ isDecimal dy
    /\ path = ("/" ++ dz ++ "/" ++ dx ++ "/" ++ dy ++ ".png")%string
    /\ decimalValue dz = z /\ decimalValue dx = x /\ decimalValue dy = y.

(** What [extractTileCoords] answers for a path that writes the numbers
    [z], [x], [y]: the first number that does not fit [int] is an error of
    its own; after that the triple is returned when it is a tile of a zoom
    level up to 62, and refused as invalid otherwise. *)
Definition answerFor (z x y : Z) : TileError + TileCoords :=
  if (GoInt.max_int <? z)%Z then inl ErrExtractingZ
  else if (GoInt.max_int <? x)%Z then inl ErrExtractingX
  else if (GoInt.max_int <? y)%Z then inl ErrExtractingY
  else if (z <=? 62)%Z && (x <? 2 ^ z)%Z && (y <? 2 ^ z)%Z
       then inr (mkTileCoords z x y)
       else inl (ErrInvalidCoords (mkTileCoords z x y)).

(** [f] is [+0] or a normal binary64, and the number it stands for is
    exactly [r]. *)
Definition exactly (f : float) (r : R) : Prop :=
  (r = 0%R /\ f = 0%float)
  \/ exists s n e,
       Prim2SF f = S754_finite s n e
       /\ canonical_mantissa prec emax n e = true /\ (-1074 < e <= 971)%Z
       /\ r = F64.SFval s n e.

(** [r] is [N * 2^E] with [N] of at most 53 bits and [E] in the range of the
    normal exponents. *)
Definition dyadic53 (r : R) : Prop :=
  exists N E, (Z.abs N < 2 ^ 53)%Z /\ (-1021 <= E <= 971)%Z
              /\ r = (IZR N * powerRZ 2 E)%R.

(** A colour of the palette: three bytes and full opacity. *)
Definition opaqueColour (p : RGBA) : Prop :=
  (0 <= chR p < 256 /\ 0 <= chG p < 256 /\ 0 <= chB p < 256 /\ chA p = 255)%Z.

(** The real value of a finite [spec_float]. *)
Definition SFreal (x : spec_float) : option R :=
  match x with
  | S754_zero _ => Some 0%R
  | S754_finite s m e => Some (F64.SFval s m e)
  | S754_infinity _ | S754_nan => None
  end.

(** [-1] or [1]. *)
Definition signR (s : bool) : R := if s then (-1)%R else 1%R.

(** [f] is finite, within [d] of [r], and not negative when [r] is not. *)
Definition near (f : float) (r d : R) : Prop :=
  exists v, F64.value f = Some v /\ (Rabs (v - r) <= d)%R /\ (0 <= r -> 0 <= v)%R.

(** [f] is finite and within [d] of [r]. *)
Definition within (f : float) (r d : R) : Prop :=
  exists v, F64.value f = Some v /\ (Rabs (v - r) <= d)%R.

(** The fractions [r], [g], [b] of [colouriseByValue], before they are
    multiplied by 255 and converted. *)
Definition paletteChannels (value : float) : float * float * float :=
  (if value <? -0.1 then
     (0.0, 0.0, 0.4)
   else if value <? 0.2 then
     let maximum := 0.0 in
     (0.1 + (maximum + value), 0.1 + (maximum + value), 0.5 + (maximum + value))
   else if value <? 0.201 then
     (500 * (0.202 - value), 500 * (0.202 - value), 250 * (0.202 - value))
   else if value <? 0.40 then
     let maximum := 0.6 in
     (1.2 * (maximum - value), 1.6 * (maximum - value), 0.8 * (maximum - value))
   else if value <? 0.60 then
     let maximum := 0.9 in
     (0.2 * (maximum - value), 0.8 * (maximum - value), 0.1 * (maximum - value))
   else if value <? 0.90 then
     let maximum := 0.90 in
     let minimum := 0.10 in
     let diff := maximum - minimum in
     (0.8 / diff * (value - minimum), 0.7 / diff * (value - minimum),
      0.6 / diff * (value - minimum))
   else if value <? 1.2 then
     (0.8 * value, 0.8 * value, 0.8 * value)
   else
     (1.0, 1.0, 1.0))%float.

(** [n] is the integer part of [f], and a byte: the conversion [uint8(f)]
    is [n] on every implementation. *)
Definition byteOf (f : float) (n : Z) : Prop :=
  F64.trunc f = Some n /\ (0 <= n <= 255)%Z.

(** The value of a float constant, as a fraction. *)
Ltac float_const c H :=
  let x := eval vm_compute in (Prim2SF c) in
  lazymatch x with
  | S754_finite false ?m (Zneg ?p) =>
      let k := eval vm_compute in (2 ^ Zpos p)%Z in
      assert (H : F64.value c = Some (IZR (Zpos m) / IZR k)%R)
        by (unfold F64.value; change (Prim2SF c) with (S754_finite false m (Zneg p));
            f_equal; unfold F64.SFval; cbn [powerRZ]; rewrite pow_IZR;
            change (2 ^ Z.of_nat (Pos.to_nat p))%Z with k; reflexivity)
  | S754_finite true ?m (Zneg ?p) =>
      let k := eval vm_compute in (2 ^ Zpos p)%Z in
      assert (H : F64.value c = Some (- IZR (Zpos m) / IZR k)%R)
        by (unfold F64.value; change (Prim2SF c) with (S754_finite true m (Zneg p));
            f_equal; unfold F64.SFval; cbn [powerRZ]; rewrite pow_IZR;
            change (2 ^ Z.of_nat (Pos.to_nat p))%Z with k; reflexivity)
  end.

(** The bound on the elevation after [k] octaves: the geometric sum of
    the octaves and what their roundings can add, [2^-49] each. *)
Definition octaveBound (k : nat) : R :=
  (2 - powerRZ 2 (- Z.of_nat k) + IZR (Z.of_nat k) / 562949953421312)%R.

(** [a] is a finite float. *)
Definition finiteFloat (a : float) : Prop := exists v, F64.value a = Some v.

(** [a] and [a'] are finite and the numbers they stand for differ by at
    most [d]. *)
Definition closeTo (a a' : float) (d : R) : Prop :=
  exists v v', F64.value a = Some v /\ F64.value a' = Some v' /\ (Rabs (v' - v) <= d)%R.

(** Two points of the world square [-2, 2] x [-2, 2] and its neighbours
    (coordinates up to 8 in magnitude) whose coordinates agree or lie one
    world period, 4, apart. *)
Definition worldWrap (c c' : Vector) : Prop :=
  exists x y x' y',
    F64.value (X c) = Some x /\ F64.value (Y c) = Some y
    /\ F64.value (X c') = Some x' /\ F64.value (Y c') = Some y'
    /\ (x' = x + 4 \/ x' = x)%R /\ (y' = y + 4 \/ y' = y)%R
    /\ (Rabs x <= 8)%R /\ (Rabs y <= 8)%R /\ (Rabs x' <= 8)%R /\ (Rabs y' <= 8)%R.

(** How far the elevation at two such points can be apart, for [math.Cos]
    and [math.Sin] accurate to [eps] and a noise primitive that moves by at
    most [L * delta + eta] when its arguments move by [delta]. *)
Definition wrapTolerance (eps L eta : R) : R :=
  (L * (4 * eps + powerRZ 2 (-37)) + 2 * eta + powerRZ 2 (-41))%R.

(** The same after the base octave and [k] more octaves. *)
Definition drift (eps L eta : R) (k : nat) : R :=
  ((2 * L * eps + eta) * (2 - powerRZ 2 (- Z.of_nat k))
   + (IZR (Z.of_nat k) + 1) * (L * powerRZ 2 (-44) + powerRZ 2 (-48)))%R.

(** Partial sums of Machin's series [pi/4 = 2 atan(1/3) + atan(1/7)], as
    fractions. *)
Section MachinSeries.
Import QArith.

Fixpoint qpow (q : Q) (n : nat) : Q :=
  match n with
  | O => 1%Q
  | S m => (q * qpow q m)%Q
  end.

Definition machinTerm (k : nat) : Q :=
  (qpow (-1 # 1) k
   * ((2 # 1) * (qpow (1 # 3) (2 * k + 1) / (Z.of_nat (2 * k + 1) # 1))
      + qpow (1 # 7) (2 * k + 1) / (Z.of_nat (2 * k + 1) # 1)))%Q.

Fixpoint machinSum (n : nat) : Q :=
  match n with
  | O => machinTerm O
  | S n' => (machinSum n' + machinTerm n)%Q
  end.

End MachinSeries.

(** * Properties *)

(** ** binary64 facts *)

Lemma float_mul_comm (x y : float) : (x * y = y * x)%float.
Proof.
  apply Prim2SF_inj. rewrite !mul_spec.
  destruct (Prim2SF x) as [sx|sx| |sx mx ex], (Prim2SF y) as [sy|sy| |sy my ey];
    simpl; try reflexivity; try (now rewrite xorb_comm).
  unfold SF64mul, SFmul.
  now rewrite xorb_comm, Pos.mul_comm, Z.add_comm.
Qed.

(** Adding [0.0] first does not change what a finite, non-zero constant
    plus [v] gives. *)
Lemma float_add_zero_inner (c v : float) s m e :
  Prim2SF c = S754_finite s m e -> (c + (0.0 + v) = c + v)%float.
Proof.
  intros Hc. apply Prim2SF_inj. rewrite !add_spec, Hc.
  change (Prim2SF 0.0%float) with (S754_zero false).
  destruct (Prim2SF v) as [[|]|[|]| |sv mv ev]; reflexivity.
Qed.

(** [F64.of_int] is the hardware conversion of an unsigned 63-bit integer
    on the range they share. *)
Lemma of_int_of_uint63 (n : PrimInt63.int) :
  F64.of_int (Uint63Axioms.to_Z n) = of_uint63 n.
Proof.
  unfold F64.of_int. rewrite <- of_uint63_spec. apply SF2Prim_Prim2SF.
Qed.

(** ** Exact binary64 arithmetic *)

Section Binary64Exact.
Local Open Scope Z_scope.

Lemma digits2_pos_shift (p n : positive) :
  digits2_pos (Pos.iter xO n p) = (digits2_pos n + p)%positive.
Proof.
  revert n. induction p as [p IH|p IH|]; intros n; simpl.
  - rewrite !IH. lia.
  - rewrite !IH. lia.
  - lia.
Qed.

Lemma iter_shr_exact (p n : positive) :
  SpecFloat.iter_pos shr_1 p (Build_shr_record (Zpos (Pos.iter xO n p)) false false)
  = Build_shr_record (Zpos n) false false.
Proof.
  revert n. induction p as [p IH|p IH|]; intros n; simpl.
  - now rewrite !IH.
  - now rewrite !IH.
  - reflexivity.
Qed.

Lemma bra_exact sx n e :
  canonical_mantissa prec emax n e = true ->
  binary_round_aux prec emax sx (Zpos n) e loc_Exact = F64.overflow_or sx n e.
Proof.
  unfold canonical_mantissa. intros H%Z.eqb_eq.
  unfold binary_round_aux, shr_fexp. cbn [Zdigits2].
  rewrite H, Z.sub_diag.
  cbn [shr shr_record_of_loc shr_m round_nearest_even loc_of_shr_record Zdigits2].
  rewrite H, Z.sub_diag.
  reflexivity.
Qed.

Lemma bra_exact_shifted sx n e p :
  canonical_mantissa prec emax n e = true ->
  binary_round_aux prec emax sx (Zpos (Pos.iter xO n p)) (e - Zpos p) loc_Exact
  = F64.overflow_or sx n e.
Proof.
  unfold canonical_mantissa. intros H%Z.eqb_eq.
  unfold binary_round_aux, shr_fexp. cbn [Zdigits2].
  rewrite digits2_pos_shift.
  replace (Zpos (digits2_pos n + p) + (e - Zpos p)) with (Zpos (digits2_pos n) + e) by lia.
  rewrite H.
  replace (e - (e - Zpos p)) with (Zpos p) by lia.
  cbn [shr shr_record_of_loc]. rewrite iter_shr_exact.
  cbn [shr_m round_nearest_even loc_of_shr_record Zdigits2 shr_record_of_loc].
  replace (e - Z.pos p + Z.pos p) with e by lia.
  rewrite H, Z.sub_diag.
  reflexivity.
Qed.

Lemma pos_iter_xO (n p : positive) : Zpos (Pos.iter xO n p) = Zpos n * 2 ^ Zpos p.
Proof.
  change (Pos.iter xO n p) with (shift_pos p n).
  rewrite shift_pos_correct, Z.pow_pos_fold. lia.
Qed.

Lemma same_dyadic_digits mx ex n e :
  F64.same_dyadic mx ex n e ->
  Zpos (digits2_pos mx) + ex = Zpos (digits2_pos n) + e.
Proof.
  intros [[Hle Hm]|[Hle Hm]].
  - destruct (e - ex) as [|p|p] eqn:E; try lia.
    + rewrite Z.mul_1_r in Hm. injection Hm as ->. lia.
    + rewrite <- pos_iter_xO in Hm. injection Hm as ->.
      rewrite digits2_pos_shift. lia.
  - destruct (ex - e) as [|p|p] eqn:E; try lia.
    + rewrite Z.mul_1_r in Hm. injection Hm as ->. lia.
    + rewrite <- pos_iter_xO in Hm. injection Hm as ->.
      rewrite digits2_pos_shift. lia.
Qed.

Lemma binary_round_exact sx mx ex n e :
  canonical_mantissa prec emax n e = true ->
  F64.same_dyadic mx ex n e ->
  binary_round prec emax sx mx ex = F64.overflow_or sx n e.
Proof.
  intros Hc Hs. pose proof (same_dyadic_digits _ _ _ _ Hs) as Hd.
  pose proof Hc as Hc'. unfold canonical_mantissa in Hc'. apply Z.eqb_eq in Hc'.
  unfold binary_round, shl_align. rewrite Hd, Hc'.
  destruct Hs as [[Hle Hm]|[Hle Hm]].
  - destruct (e - ex) as [|p|p] eqn:E; try lia.
    + rewrite Z.mul_1_r in Hm. injection Hm as ->.
      assert (e = ex) by lia. subst. now apply bra_exact.
    + rewrite <- pos_iter_xO in Hm. injection Hm as ->.
      replace ex with (e - Zpos p) by lia. now apply bra_exact_shifted.
  - destruct (ex - e) as [|p|p] eqn:E; try lia.
    + rewrite Z.mul_1_r in Hm. injection Hm as ->.
      assert (e = ex) by lia. subst. rewrite Z.sub_diag. now apply bra_exact.
    + replace (e - ex) with (Zneg p) by lia.
      rewrite <- pos_iter_xO in Hm. injection Hm as ->.
      now apply bra_exact.
Qed.

Lemma canonical_normal n e :
  Zpos (digits2_pos n) = 53 -> -1074 <= e ->
  canonical_mantissa prec emax n e = true.
Proof.
  intros Hd He. unfold canonical_mantissa, fexp, SpecFloat.emin.
  rewrite Hd. change prec with 53. change emax with 1024.
  apply Z.eqb_eq. lia.
Qed.

Lemma canonical_digits n e :
  canonical_mantissa prec emax n e = true -> -1074 < e ->
  Zpos (digits2_pos n) = 53.
Proof.
  unfold canonical_mantissa, fexp, SpecFloat.emin.
  change prec with 53. change emax with 1024.
  intros H%Z.eqb_eq He. lia.
Qed.

Lemma digits2_pos_size p : digits2_pos p = Pos.size p.
Proof. induction p; simpl; congruence. Qed.

Lemma digits2_pos_le p k : 0 <= k -> Zpos p < 2 ^ k -> Zpos (digits2_pos p) <= k.
Proof.
  intros Hk Hp. rewrite digits2_pos_size.
  pose proof (Pos.size_le p) as H.
  assert (H' : 2 ^ Zpos (Pos.size p) <= 2 * Zpos p).
  { rewrite <- Pos2Z.inj_pow. change (2 * Zpos p) with (Zpos p~0). lia. }
  destruct (Z_le_gt_dec (Zpos (Pos.size p)) k) as [|Hgt]; [assumption|exfalso].
  assert (H2 : 2 ^ (k + 1) <= 2 ^ Zpos (Pos.size p)) by (apply Z.pow_le_mono_r; lia).
  rewrite Z.pow_add_r in H2 by lia. lia.
Qed.

Lemma powerRZ_2_nonneg k : 0 <= k -> powerRZ 2 k = IZR (2 ^ k).
Proof.
  destruct k as [|p|p]; intros Hk; [reflexivity| |lia].
  simpl powerRZ. rewrite pow_IZR, positive_nat_Z. reflexivity.
Qed.

Lemma powerRZ_2_pos e : (0 < powerRZ 2 e)%R.
Proof. apply powerRZ_lt. lra. Qed.

Lemma powerRZ_2_add a b : (powerRZ 2 (a + b) = powerRZ 2 a * powerRZ 2 b)%R.
Proof. apply powerRZ_add. lra. Qed.

Lemma dyadic_of_real_le (p n : positive) E e :
  E <= e ->
  (IZR (Zpos p) * powerRZ 2 E = IZR (Zpos n) * powerRZ 2 e)%R ->
  Zpos p = Zpos n * 2 ^ (e - E).
Proof.
  intros Hle H. apply eq_IZR. rewrite mult_IZR, <- powerRZ_2_nonneg by lia.
  apply Rmult_eq_reg_r with (powerRZ 2 E);
    [|apply Rgt_not_eq, Rlt_gt, powerRZ_2_pos].
  rewrite H, Rmult_assoc, <- powerRZ_2_add.
  replace (e - E + E) with e by lia. reflexivity.
Qed.

Lemma dyadic_of_real (p n : positive) E e :
  (IZR (Zpos p) * powerRZ 2 E = IZR (Zpos n) * powerRZ 2 e)%R ->
  F64.same_dyadic p E n e.
Proof.
  intros H. destruct (Z_le_gt_dec E e) as [Hle|Hgt].
  - left. split; [assumption|]. now apply dyadic_of_real_le.
  - right. split; [lia|]. apply dyadic_of_real_le; [lia|]. now symmetry.
Qed.

Lemma overflow_or_finite s n e : e <= 971 -> F64.overflow_or s n e = S754_finite s n e.
Proof.
  intros He. unfold F64.overflow_or. change (emax - prec) with 971.
  now rewrite (proj2 (Z.leb_le e 971) He).
Qed.

Lemma SFval_pos n e : (0 < IZR (Zpos n) * powerRZ 2 e)%R.
Proof.
  apply Rmult_lt_0_compat; [apply IZR_lt; lia|apply powerRZ_2_pos].
Qed.

(** Rounding an integer multiple of a power of two that a binary64
    holds exactly gives that binary64. *)
Lemma normalize_exact M E s n e :
  canonical_mantissa prec emax n e = true -> e <= 971 ->
  (IZR M * powerRZ 2 E = F64.SFval s n e)%R ->
  binary_normalize prec emax M E false = S754_finite s n e.
Proof.
  intros Hc He Hv. unfold F64.SFval in Hv.
  pose proof (SFval_pos n e) as Hn.
  destruct M as [|p|p].
  - exfalso. rewrite Rmult_0_l in Hv. destruct s; lra.
  - pose proof (SFval_pos p E) as Hp.
    destruct s; [exfalso; lra|].
    cbn [binary_normalize].
    rewrite (binary_round_exact false p E n e Hc (dyadic_of_real _ _ _ _ Hv)).
    now apply overflow_or_finite.
  - pose proof (SFval_pos p E) as Hp.
    change (Zneg p) with (- Zpos p) in Hv. rewrite opp_IZR in Hv.
    destruct s; [|exfalso; lra].
    cbn [binary_normalize].
    assert (Hv' : (IZR (Zpos p) * powerRZ 2 E = IZR (Zpos n) * powerRZ 2 e)%R) by lra.
    rewrite (binary_round_exact true p E n e Hc (dyadic_of_real _ _ _ _ Hv')).
    now apply overflow_or_finite.
Qed.

(** Every non-zero integer below [2^53] in magnitude, scaled by a power
    of two in the normal range, is a binary64. *)
Lemma representable N E :
  N <> 0 -> Z.abs N < 2 ^ 53 -> -1021 <= E <= 971 ->
  exists n e,
    canonical_mantissa prec emax n e = true /\ E - 52 <= e <= E
    /\ (IZR N * powerRZ 2 E = F64.SFval (N <? 0) n e)%R.
Proof.
  intros HN Hlt HE.
  set (p := Z.to_pos (Z.abs N)).
  assert (Hp : Zpos p = Z.abs N) by (unfold p; rewrite Z2Pos.id; lia).
  assert (Hd : Zpos (digits2_pos p) <= 53) by (apply digits2_pos_le; lia).
  assert (Hval : (IZR N = if N <? 0 then - IZR (Zpos p) else IZR (Zpos p))%R).
  { rewrite Hp. destruct (Z.ltb_spec N 0).
    - rewrite <- opp_IZR. f_equal. lia.
    - f_equal. lia. }
  destruct (53 - Zpos (digits2_pos p)) as [|k|k] eqn:Ek; [| |lia].
  - exists p, E. split; [apply canonical_normal; lia|]. split; [lia|].
    unfold F64.SFval. now rewrite Hval.
  - exists (Pos.iter xO p k), (E - Zpos k).
    split; [apply canonical_normal; [rewrite digits2_pos_shift|]; lia|].
    split; [lia|].
    unfold F64.SFval. rewrite Hval, pos_iter_xO, mult_IZR.
    rewrite <- powerRZ_2_nonneg by lia.
    replace E with (Zpos k + (E - Zpos k)) at 1 by lia.
    rewrite powerRZ_2_add. destruct (N <? 0); ring.
Qed.

Lemma valid_of_canonical s n e :
  canonical_mantissa prec emax n e = true -> e <= 971 ->
  valid_binary (S754_finite s n e) = true.
Proof.
  intros Hc He. unfold SpecFloat.valid_binary, SpecFloat.bounded.
  rewrite Hc. change (emax - prec) with 971. now apply Z.leb_le.
Qed.

Lemma Prim2SF_finite s n e :
  canonical_mantissa prec emax n e = true -> e <= 971 ->
  Prim2SF (SF2Prim (S754_finite s n e)) = S754_finite s n e.
Proof. intros. apply Prim2SF_SF2Prim. now apply valid_of_canonical. Qed.

Lemma shl_align_value mx ex ez :
  ez <= ex ->
  (IZR (Zpos (fst (shl_align mx ex ez))) * powerRZ 2 ez
   = IZR (Zpos mx) * powerRZ 2 ex)%R.
Proof.
  intros Hle. unfold shl_align.
  destruct (ez - ex) as [|d|d] eqn:E; cbn [fst]; try lia.
  - replace ez with ex by lia. reflexivity.
  - rewrite pos_iter_xO, mult_IZR, <- powerRZ_2_nonneg by lia.
    rewrite Rmult_assoc, <- powerRZ_2_add.
    replace (Zpos d + ez) with ex by lia. reflexivity.
Qed.

Lemma cond_Zopp_value s m ez :
  (IZR (cond_Zopp s (Zpos m)) * powerRZ 2 ez
   = (if s then - IZR (Zpos m) else IZR (Zpos m)) * powerRZ 2 ez)%R.
Proof. destruct s; cbn [cond_Zopp]; [|reflexivity]. now rewrite opp_IZR. Qed.

Lemma aligned_value s m ex ez :
  ez <= ex ->
  (IZR (cond_Zopp s (Zpos (fst (shl_align m ex ez)))) * powerRZ 2 ez
   = F64.SFval s m ex)%R.
Proof.
  intros Hle. rewrite cond_Zopp_value. unfold F64.SFval.
  pose proof (shl_align_value m ex ez Hle) as H.
  destruct s; lra.
Qed.

(** A subtraction whose exact result is a binary64 returns it. *)
Lemma sub_exact sx mx ex sy my ey s n e :
  canonical_mantissa prec emax n e = true -> e <= 971 ->
  (F64.SFval sx mx ex - F64.SFval sy my ey = F64.SFval s n e)%R ->
  SF64sub (S754_finite sx mx ex) (S754_finite sy my ey) = S754_finite s n e.
Proof.
  intros Hc He Hv. unfold SF64sub, SFsub.
  apply normalize_exact; try assumption.
  rewrite minus_IZR, Rmult_minus_distr_r.
  rewrite !aligned_value by lia. exact Hv.
Qed.

(** A subtraction of equal finite numbers returns [+0]. *)
Lemma sub_cancel sx mx ex sy my ey :
  F64.SFval sx mx ex = F64.SFval sy my ey ->
  SF64sub (S754_finite sx mx ex) (S754_finite sy my ey) = S754_zero false.
Proof.
  intros Hv. unfold SF64sub, SFsub.
  set (ez := Z.min ex ey).
  assert (H0 : cond_Zopp sx (Zpos (fst (shl_align mx ex ez)))
               - cond_Zopp sy (Zpos (fst (shl_align my ey ez))) = 0).
  { apply eq_IZR.
    apply Rmult_eq_reg_r with (powerRZ 2 ez);
      [|apply Rgt_not_eq, Rlt_gt, powerRZ_2_pos].
    rewrite minus_IZR, Rmult_minus_distr_r.
    rewrite !aligned_value by (unfold ez; lia). lra. }
  rewrite H0. reflexivity.
Qed.

(** Division of a normal binary64 by a power of two lowers the exponent. *)
Lemma div_pow2_exact s n e z :
  canonical_mantissa prec emax n e = true -> -1074 < e ->
  -1074 < e - z <= 971 ->
  SF64div (S754_finite s n e) (S754_finite false F64.two52 (z - 52))
  = S754_finite s n (e - z).
Proof.
  intros Hc He Hz.
  pose proof (canonical_digits n e Hc He) as Hd.
  unfold SF64div, SFdiv, SFdiv_core_binary. cbn [Zdigits2].
  rewrite Hd. change (Zpos (digits2_pos F64.two52)) with 53.
  assert (He' : Z.min (fexp prec emax (53 + e - (53 + (z - 52)))) (e - (z - 52))
                = e - z - 1).
  { unfold fexp, SpecFloat.emin. change prec with 53. change emax with 1024. lia. }
  rewrite He'.
  replace (e - (z - 52) - (e - z - 1)) with 53 by lia.
  rewrite Z.shiftl_mul_pow2 by lia.
  assert (Hq : Z.div_eucl (Zpos n * 2 ^ 53) (Zpos F64.two52) = (Zpos n~0, 0)).
  { pose proof (Z.div_eucl_eq (Zpos n * 2 ^ 53) (Zpos F64.two52)) as Heq.
    pose proof (Z.mod_pos_bound (Zpos n * 2 ^ 53) (Zpos F64.two52)) as Hb.
    unfold Z.modulo in Hb.
    destruct (Z.div_eucl (Zpos n * 2 ^ 53) (Zpos F64.two52)) as [q r].
    cbn beta iota in Hb. unfold F64.two52 in Heq, Hb.
    change (2 ^ 53) with 9007199254740992 in Heq.
    assert (q = Zpos n~0 /\ r = 0) as [-> ->]; [|reflexivity].
    specialize (Heq ltac:(lia)). specialize (Hb ltac:(lia)).
    change (Zpos n~0) with (2 * Zpos n). lia. }
  rewrite Hq. change (new_location (Zpos F64.two52) 0) with loc_Exact.
  rewrite xorb_false_r.
  change (Zpos n~0) with (Zpos (Pos.iter xO n 1)).
  replace (e - z - 1) with (e - z - Zpos 1) by lia.
  rewrite bra_exact_shifted by (apply canonical_normal; lia).
  apply overflow_or_finite. lia.
Qed.

(** Multiplication of a normal binary64 by a power of two raises the
    exponent, up to overflow. *)
Lemma mul_pow2_exact s n e j :
  canonical_mantissa prec emax n e = true -> -1074 < e -> -1074 < e + j ->
  SF64mul (S754_finite s n e) (S754_finite false F64.two52 (j - 52))
  = F64.overflow_or s n (e + j).
Proof.
  intros Hc He Hz.
  pose proof (canonical_digits n e Hc He) as Hd.
  unfold SF64mul, SFmul. rewrite xorb_false_r.
  assert (Hm : (n * F64.two52)%positive = Pos.iter xO n 52).
  { apply Pos2Z.inj. rewrite pos_iter_xO, Pos2Z.inj_mul. reflexivity. }
  rewrite Hm. replace (e + (j - 52)) with (e + j - Zpos 52) by lia.
  apply bra_exact_shifted. apply canonical_normal; lia.
Qed.

Lemma two52_canonical k : -1022 <= k -> canonical_mantissa prec emax F64.two52 (k - 52) = true.
Proof. intros Hk. apply canonical_normal; [reflexivity|lia]. Qed.

(** The conversion of a power of two. *)
Lemma normalize_pow2 k :
  0 <= k ->
  binary_normalize prec emax (2 ^ k) 0 false = F64.overflow_or false F64.two52 (k - 52).
Proof.
  intros Hk.
  assert (Hpos : 0 < 2 ^ k) by (apply Z.pow_pos_nonneg; lia).
  destruct (2 ^ k) as [|p|p] eqn:Ep; try lia.
  cbn [binary_normalize].
  apply binary_round_exact; [apply two52_canonical; lia|].
  destruct (Z_le_gt_dec 52 k).
  - left. split; [lia|]. rewrite <- Ep. change (Zpos F64.two52) with (2 ^ 52).
    rewrite <- Z.pow_add_r by lia. f_equal. lia.
  - right. split; [lia|]. rewrite <- Ep. change (Zpos F64.two52) with (2 ^ 52).
    rewrite <- Z.pow_add_r by lia. f_equal. lia.
Qed.

Lemma of_int_pow2 k :
  0 <= k <= 1023 ->
  Prim2SF (F64.of_int (2 ^ k)) = S754_finite false F64.two52 (k - 52).
Proof.
  intros Hk. unfold F64.of_int. rewrite normalize_pow2, overflow_or_finite by lia.
  apply Prim2SF_finite; [apply two52_canonical|]; lia.
Qed.

Lemma SFval_shift s n e j : (F64.SFval s n (e + j) = F64.SFval s n e * powerRZ 2 j)%R.
Proof. unfold F64.SFval. rewrite powerRZ_2_add. ring. Qed.

Lemma powerRZ_2_opp z : 0 <= z -> (powerRZ 2 (- z) = / IZR (2 ^ z))%R.
Proof. intros Hz. now rewrite powerRZ_neg', powerRZ_2_nonneg. Qed.

Lemma powerRZ_2_neg p : (powerRZ 2 (Zneg p) = / IZR (2 ^ Zpos p))%R.
Proof. change (Zneg p) with (- Zpos p). apply powerRZ_2_opp. lia. Qed.

Lemma SFval_half : (F64.SFval false F64.two52 (-53) = 1 / 2)%R.
Proof.
  unfold F64.SFval. rewrite powerRZ_2_neg.
  change (2 ^ 53) with 9007199254740992. unfold F64.two52. lra.
Qed.

Lemma of_int_exact x n e :
  canonical_mantissa prec emax n e = true -> e <= 971 ->
  (IZR x = F64.SFval (x <? 0) n e)%R ->
  Prim2SF (F64.of_int x) = S754_finite (x <? 0) n e.
Proof.
  intros Hc He Hv. unfold F64.of_int.
  rewrite (normalize_exact x 0 (x <? 0) n e); try assumption.
  - now apply Prim2SF_finite.
  - cbn [powerRZ]. now rewrite Rmult_1_r.
Qed.

Lemma axisCoord_value x z :
  0 <= z <= 53 -> 0 <= x <= 2 ^ z ->
  F64.value (F64.axisCoord x z) = Some (4 * (IZR x / IZR (2 ^ z) - 1 / 2))%R.
Proof.
  intros Hz Hx. unfold F64.value, F64.axisCoord.
  rewrite mul_spec, sub_spec, div_spec, (of_int_pow2 z) by lia.
  change (Prim2SF 0.5%float) with (S754_finite false F64.two52 (-53)).
  change (Prim2SF 4%float) with (S754_finite false F64.two52 (2 - 52)).
  assert (Hle : 2 ^ z <= 2 ^ 53) by (apply Z.pow_le_mono_r; lia).
  assert (HP : (0 < IZR (2 ^ z))%R) by (apply IZR_lt, Z.pow_pos_nonneg; lia).
  set (P := IZR (2 ^ z)) in *.
  destruct (Z.eq_dec x 0) as [->|Hx0].
  { change (Prim2SF (F64.of_int 0)) with (S754_zero false).
    cbn [SF64div SFdiv xorb SF64sub SFsub negb].
    rewrite mul_pow2_exact by (try apply (two52_canonical (-1)); lia).
    rewrite overflow_or_finite by lia.
    f_equal. rewrite SFval_shift.
    unfold F64.SFval at 1. rewrite powerRZ_2_neg.
    change (2 ^ 53) with 9007199254740992. unfold F64.two52. cbn [powerRZ].
    unfold Rdiv. rewrite Rmult_0_l. simpl. lra. }
  assert (H1 : exists n1 e1,
             canonical_mantissa prec emax n1 e1 = true /\ -52 <= e1 <= 1
             /\ IZR x = F64.SFval false n1 e1).
  { destruct (Z.eq_dec x (2 ^ 53)) as [->|Hne].
    - exists F64.two52, 1. split; [apply (two52_canonical 53); lia|]. split; [lia|].
      unfold F64.SFval, F64.two52. change (2 ^ 53) with 9007199254740992.
      cbn [powerRZ]. simpl. lra.
    - destruct (representable x 0) as (n & e & Hc & He & Hv); try lia.
      exists n, e. split; [assumption|]. split; [lia|].
      replace (x <? 0) with false in Hv by (symmetry; apply Z.ltb_ge; lia).
      rewrite <- Hv. cbn [powerRZ]. ring. }
  destruct H1 as (n1 & e1 & Hc1 & He1 & Hv1).
  assert (Hfx : Prim2SF (F64.of_int x) = S754_finite false n1 e1).
  { replace false with (x <? 0) by (apply Z.ltb_ge; lia).
    apply of_int_exact; try assumption; try lia.
    now replace (x <? 0) with false by (symmetry; apply Z.ltb_ge; lia). }
  rewrite Hfx, div_pow2_exact by (try assumption; lia).
  assert (Hq : (F64.SFval false n1 (e1 - z) = IZR x / P)%R).
  { replace (e1 - z) with (e1 + - z) by lia.
    rewrite SFval_shift, <- Hv1, powerRZ_2_opp by lia. reflexivity. }
  destruct (Z.eq_dec (2 * x) (2 ^ z)) as [Heq|Hneq].
  { assert (HX : (IZR x / P = 1 / 2)%R).
    { unfold P. rewrite <- Heq, mult_IZR. field. apply not_0_IZR. lia. }
    rewrite sub_cancel by (rewrite Hq, SFval_half; exact HX).
    cbn [SF64mul SFmul xorb]. f_equal. rewrite HX. lra. }
  assert (H3 : exists s3 n3 e3,
             canonical_mantissa prec emax n3 e3 = true /\ -107 <= e3 <= -1
             /\ (IZR x / P - 1 / 2 = F64.SFval s3 n3 e3)%R).
  { destruct (Z.eq_dec x (2 ^ z)) as [Hxz|Hxz].
    - destruct (representable 1 (-1)) as (n & e & Hc & He & Hv); try lia.
      exists false, n, e. split; [assumption|]. split; [lia|].
      change (1 <? 0) with false in Hv. rewrite <- Hv.
      unfold P. rewrite <- Hxz, powerRZ_2_neg. change (2 ^ 1) with 2.
      field. apply not_0_IZR. lia.
    - destruct (representable (2 * x - 2 ^ z) (- z - 1)) as (n & e & Hc & He & Hv);
        try lia.
      exists (2 * x - 2 ^ z <? 0), n, e. split; [assumption|]. split; [lia|].
      rewrite <- Hv. rewrite minus_IZR, mult_IZR. fold P.
      replace (- z - 1) with (- z + (-1)) by lia.
      rewrite powerRZ_2_add, powerRZ_2_opp, powerRZ_2_neg by lia. fold P.
      change (2 ^ 1) with 2. field. apply Rgt_not_eq, Rlt_gt, HP. }
  destruct H3 as (s3 & n3 & e3 & Hc3 & He3 & Hv3).
  rewrite (sub_exact false n1 (e1 - z) false F64.two52 (-53) s3 n3 e3)
    by (try assumption; try lia; rewrite Hq, SFval_half; exact Hv3).
  rewrite mul_pow2_exact, overflow_or_finite by (try assumption; lia).
  f_equal. rewrite SFval_shift, <- Hv3. cbn [powerRZ]. simpl. lra.
Qed.

End Binary64Exact.

(** ** Order and subtraction of finite floats *)

Section Order.
Local Open Scope Z_scope.

Lemma canonical_emin n e :
  canonical_mantissa prec emax n e = true ->
  -1074 <= e /\ Zpos (digits2_pos n) <= 53.
Proof.
  unfold canonical_mantissa, fexp, SpecFloat.emin.
  change prec with 53. change emax with 1024.
  intros H%Z.eqb_eq. lia.
Qed.

Lemma mantissa_upper n : Zpos (digits2_pos n) <= 53 -> (IZR (Zpos n) < IZR (2 ^ 53))%R.
Proof.
  intros Hd. apply IZR_lt. rewrite digits2_pos_size in Hd.
  pose proof (Pos.size_gt n) as H.
  assert (H' : Zpos n < 2 ^ Zpos (Pos.size n)) by (rewrite <- Pos2Z.inj_pow; lia).
  assert (2 ^ Zpos (Pos.size n) <= 2 ^ 53) by (apply Z.pow_le_mono_r; lia).
  lia.
Qed.

Lemma mantissa_lower n : Zpos (digits2_pos n) = 53 -> (IZR (2 ^ 52) <= IZR (Zpos n))%R.
Proof.
  intros Hd. apply IZR_le. rewrite digits2_pos_size in Hd.
  pose proof (Pos.size_le n) as H.
  assert (H' : 2 ^ Zpos (Pos.size n) <= 2 * Zpos n).
  { rewrite <- Pos2Z.inj_pow. change (2 * Zpos n) with (Zpos n~0). lia. }
  rewrite Hd in H'. change (2 ^ 53) with (2 * 2 ^ 52) in H'. lia.
Qed.

(** A valid binary64 with the smaller exponent is the smaller magnitude. *)
Lemma magnitude_lt_of_exponent n1 e1 n2 e2 :
  canonical_mantissa prec emax n1 e1 = true ->
  canonical_mantissa prec emax n2 e2 = true ->
  e1 < e2 ->
  (IZR (Zpos n1) * powerRZ 2 e1 < IZR (Zpos n2) * powerRZ 2 e2)%R.
Proof.
  intros H1 H2 Hlt.
  destruct (canonical_emin _ _ H1) as [Hm1 Hd1].
  pose proof (canonical_digits n2 e2 H2 ltac:(lia)) as Hd2.
  pose proof (mantissa_upper n1 Hd1) as Hu.
  pose proof (mantissa_lower n2 Hd2) as Hl.
  pose proof (powerRZ_2_pos e1) as Hp1.
  replace e2 with (e1 + 1 + (e2 - e1 - 1)) by lia.
  rewrite !powerRZ_2_add, (powerRZ_2_nonneg (e2 - e1 - 1)) by lia.
  assert (Hk : (1 <= IZR (2 ^ (e2 - e1 - 1)))%R).
  { apply (IZR_le 1). pose proof (Z.pow_pos_nonneg 2 (e2 - e1 - 1)). lia. }
  change (powerRZ 2 1) with (2 * 1)%R.
  change (2 ^ 53) with 9007199254740992 in Hu.
  change (2 ^ 52) with 4503599627370496 in Hl.
  set (K := IZR (2 ^ (e2 - e1 - 1))) in *.
  set (A := IZR (Zpos n1)) in *. set (C := IZR (Zpos n2)) in *.
  set (P := powerRZ 2 e1) in *.
  assert (G1 : (A * P < 9007199254740992 * P)%R) by nra.
  assert (G2 : (4503599627370496 * (P * 2) <= C * (P * 2))%R) by nra.
  assert (G3 : (C * (P * 2) <= C * (P * 2) * K)%R) by nra.
  nra.
Qed.

Lemma SFval_sign (s : bool) n e :
  if s return Prop then (F64.SFval s n e < 0)%R else (0 < F64.SFval s n e)%R.
Proof.
  unfold F64.SFval. pose proof (SFval_pos n e). destruct s; lra.
Qed.

Lemma compare_cont_mantissa n1 n2 e :
  (IZR (Zpos n1) * powerRZ 2 e < IZR (Zpos n2) * powerRZ 2 e)%R ->
  Pos.compare_cont Eq n1 n2 = Lt.
Proof.
  intros H. change (Pos.compare_cont Eq n1 n2) with (Pos.compare n1 n2).
  apply Pos.compare_lt_iff.
  pose proof (powerRZ_2_pos e) as Hp.
  assert (Hlt : (IZR (Zpos n1) < IZR (Zpos n2))%R) by nra.
  apply lt_IZR in Hlt. lia.
Qed.

Lemma compare_cont_mantissa_gt n1 n2 e :
  (IZR (Zpos n2) * powerRZ 2 e < IZR (Zpos n1) * powerRZ 2 e)%R ->
  Pos.compare_cont Eq n1 n2 = Gt.
Proof.
  intros H. change (Pos.compare_cont Eq n1 n2) with (Pos.compare n1 n2).
  apply Pos.compare_gt_iff.
  pose proof (powerRZ_2_pos e) as Hp.
  assert (Hlt : (IZR (Zpos n2) < IZR (Zpos n1))%R) by nra.
  apply lt_IZR in Hlt. lia.
Qed.

(** The comparison [<] of two finite floats is the comparison of their
    values. *)
Lemma ltb_of_value a b va vb :
  F64.value a = Some va -> F64.value b = Some vb -> (va < vb)%R ->
  (a <? b)%float = true.
Proof.
  unfold F64.value. intros Ha Hb Hlt. rewrite ltb_spec.
  pose proof (Prim2SF_valid a) as Va. pose proof (Prim2SF_valid b) as Vb.
  destruct (Prim2SF a) as [sa|sa| |sa ma ea]; try discriminate;
    destruct (Prim2SF b) as [sb|sb| |sb mb eb]; try discriminate;
    injection Ha as <-; injection Hb as <-.
  - lra.
  - pose proof (SFval_sign sb mb eb). destruct sb; [lra|reflexivity].
  - pose proof (SFval_sign sa ma ea). destruct sa; [reflexivity|lra].
  - unfold SpecFloat.valid_binary, SpecFloat.bounded in Va, Vb.
    apply andb_true_iff in Va, Vb. destruct Va as [Ca _], Vb as [Cb _].
    pose proof (SFval_sign sa ma ea) as Sa. pose proof (SFval_sign sb mb eb) as Sb.
    unfold SFltb, SFcompare.
    destruct sa, sb; try reflexivity; try lra; unfold F64.SFval in Hlt.
    + (* both negative *)
      destruct (Z.compare_spec ea eb) as [->|Hc|Hc].
      * rewrite (compare_cont_mantissa_gt ma mb eb) by lra. reflexivity.
      * pose proof (magnitude_lt_of_exponent _ _ _ _ Ca Cb Hc). lra.
      * reflexivity.
    + destruct (Z.compare_spec ea eb) as [->|Hc|Hc].
      * now rewrite (compare_cont_mantissa ma mb eb).
      * reflexivity.
      * pose proof (magnitude_lt_of_exponent _ _ _ _ Cb Ca Hc). lra.
Qed.

(** A subtraction of finite floats whose exact difference is a binary64
    returns that difference. *)
Lemma sub_has_value a b va vb s n e :
  F64.value a = Some va -> F64.value b = Some vb ->
  canonical_mantissa prec emax n e = true -> e <= 971 ->
  (va - vb = F64.SFval s n e)%R ->
  F64.value (a - b)%float = Some (va - vb)%R.
Proof.
  unfold F64.value. intros Ha Hb Hc He Hv. rewrite sub_spec.
  pose proof (SFval_sign s n e) as Hs.
  destruct (Prim2SF a) as [sa|sa| |sa ma ea]; try discriminate;
    destruct (Prim2SF b) as [sb|sb| |sb mb eb]; try discriminate;
    injection Ha as <-; injection Hb as <-.
  - exfalso. destruct s; lra.
  - cbn [SF64sub SFsub]. f_equal. unfold F64.SFval. destruct sb; cbn [negb]; lra.
  - cbn [SF64sub SFsub]. f_equal. lra.
  - rewrite (sub_exact sa ma ea sb mb eb s n e) by assumption.
    f_equal. lra.
Qed.

Lemma ushl_one z : 0 <= z <= 63 -> GoInt.ushl 1 (GoInt.to_uint z) = 2 ^ z.
Proof.
  intros Hz. unfold GoInt.ushl, GoInt.to_uint, GoInt.wrap_uint.
  rewrite (Z.mod_small z) by (change (2 ^ 64) with 18446744073709551616; lia).
  replace (z <? 64) with true by (symmetry; apply Z.ltb_lt; lia).
  rewrite Z.mul_1_l. apply Z.mod_small.
  split; [apply Z.pow_nonneg; lia|apply Z.pow_lt_mono_r; lia].
Qed.

Lemma wrap_int_small n : GoInt.min_int <= n <= GoInt.max_int -> GoInt.wrap_int n = n.
Proof.
  unfold GoInt.min_int, GoInt.max_int, GoInt.wrap_int.
  change (2 ^ 63) with 9223372036854775808.
  change (2 ^ 64) with 18446744073709551616.
  intros H. rewrite Z.mod_small; lia.
Qed.

End Order.

(** ** Tile extents *)

Section TileExtentFacts.
Local Open Scope Z_scope.

Lemma tileExtent_axes c :
  0 <= coordZ c <= 53 ->
  0 <= coordX c < 2 ^ coordZ c -> 0 <= coordY c < 2 ^ coordZ c ->
  tileExtent c =
  mkExtent (mkVector (F64.axisCoord (coordX c) (coordZ c))
                     (F64.axisCoord (coordY c) (coordZ c)))
           (mkVector (F64.axisCoord (coordX c + 1) (coordZ c))
                     (F64.axisCoord (coordY c + 1) (coordZ c))).
Proof.
  intros Hz Hx Hy.
  assert (Hle : 2 ^ coordZ c <= 2 ^ 53) by (apply Z.pow_le_mono_r; lia).
  change (2 ^ 53) with 9007199254740992 in Hle.
  unfold tileExtent, F64.axisCoord, Sub, Scale. cbn [Min Max X Y].
  rewrite ushl_one by lia.
  unfold GoInt.add.
  rewrite !wrap_int_small by (unfold GoInt.min_int, GoInt.max_int;
    change (2 ^ 63) with 9223372036854775808; lia).
  reflexivity.
Qed.

Lemma axis_step x z :
  0 <= z <= 53 -> 0 <= x < 2 ^ z ->
  (F64.axisCoord x z <? F64.axisCoord (x + 1) z)%float = true
  /\ F64.has_value (F64.axisCoord (x + 1) z - F64.axisCoord x z)%float
                   (4 / IZR (2 ^ z))%R.
Proof.
  intros Hz Hx.
  pose proof (axisCoord_value x z Hz ltac:(lia)) as H0.
  pose proof (axisCoord_value (x + 1) z Hz ltac:(lia)) as H1.
  assert (HP : (0 < IZR (2 ^ z))%R) by (apply IZR_lt, Z.pow_pos_nonneg; lia).
  assert (Hd : (4 * (IZR (x + 1) / IZR (2 ^ z) - 1 / 2)
                - 4 * (IZR x / IZR (2 ^ z) - 1 / 2) = 4 / IZR (2 ^ z))%R).
  { rewrite plus_IZR. field. apply Rgt_not_eq, Rlt_gt, HP. }
  split.
  - apply (ltb_of_value _ _ _ _ H0 H1).
    assert (0 < 4 / IZR (2 ^ z))%R by (apply Rdiv_lt_0_compat; lra).
    lra.
  - destruct (representable 1 (2 - z)) as (n & e & Hc & He & Hv); try lia.
    unfold F64.has_value. rewrite <- Hd.
    apply (sub_has_value _ _ _ _ (1 <? 0) n e H1 H0 Hc); [lia|].
    rewrite Hd, <- Hv.
    replace (2 - z) with (2 + - z) by lia.
    rewrite powerRZ_2_add, powerRZ_2_opp by lia. cbn [powerRZ]. simpl. lra.
Qed.

(** C4 as stated fails from zoom 54 on: [float64(x)] rounds the index
    [2^54 - 1] up to [2^54], the same float as for [x + 1], and the tile has
    no width.  The request layer lets the coordinate through. *)
Lemma tileExtent_no_width_at_zoom_54 :
  validTileCoords (mkTileCoords 54 (2 ^ 54 - 1) 0)
  /\ extractTileCoords "/54/18014398509481983/0.png"
     = inr (mkTileCoords 54 (2 ^ 54 - 1) 0)
  /\ X (Min (tileExtent (mkTileCoords 54 (2 ^ 54 - 1) 0)))
     = X (Max (tileExtent (mkTileCoords 54 (2 ^ 54 - 1) 0)))
  /\ (X (Min (tileExtent (mkTileCoords 54 (2 ^ 54 - 1) 0)))
      <? X (Max (tileExtent (mkTileCoords 54 (2 ^ 54 - 1) 0))))%float = false.
Proof.
  split; [|split; [|split]]; try (vm_compute; reflexivity).
  unfold validTileCoords. cbn [coordZ coordX coordY].
  change (2 ^ 54) with 18014398509481984. lia.
Qed.

(** X4: two tiles side by side, or one above the other, have the float of
    their shared edge in common, at every zoom level: the far corner of the
    first is computed from the same integers as the near corner of the
    second. *)
Lemma tileExtent_shared_edge (z x y y' : Z) :
  GoInt.min_int <= x -> x + 1 <= GoInt.max_int ->
  X (Max (tileExtent (mkTileCoords z x y)))
  = X (Min (tileExtent (mkTileCoords z (x + 1) y')))
  /\ Y (Max (tileExtent (mkTileCoords z y x)))
     = Y (Min (tileExtent (mkTileCoords z y' (x + 1)))).
Proof.
  intros Hlo Hhi. unfold tileExtent, Sub, Scale, GoInt.add.
  cbn [Min Max X Y coordX coordY coordZ].
  rewrite !(wrap_int_small (x + 1)) by lia.
  split; reflexivity.
Qed.

(** C4, amended: for every tile coordinate with [0 <= z <= 53] and
    [0 <= x, y < 2^z], [tileExtent] returns exactly the rectangle
    [4(x/2^z - 1/2), 4((x+1)/2^z - 1/2)] x [4(y/2^z - 1/2), 4((y+1)/2^z - 1/2)];
    its corners satisfy [min < max] on both axes, its width and height are
    exactly [4 / 2^z], and at zoom 0 it is [-2, 2] x [-2, 2]. *)
Theorem tileExtent_exact_up_to_zoom_53 (coords : TileCoords) :
  validTileCoords coords -> coordZ coords <= 53 ->
  extentSpec coords (tileExtent coords)
  /\ extentProper coords (tileExtent coords)
  /\ tileExtent (mkTileCoords 0 0 0) = mkExtent (mkVector (-2) (-2)) (mkVector 2 2).
Proof.
  intros (Hz & Hx & Hy) Hz'.
  rewrite (tileExtent_axes coords) by lia.
  destruct (axis_step (coordX coords) (coordZ coords)) as [Lx Wx]; try lia.
  destruct (axis_step (coordY coords) (coordZ coords)) as [Ly Wy]; try lia.
  unfold extentSpec, extentProper, tileFraction, F64.has_value. cbn [Min Max X Y].
  rewrite !axisCoord_value by lia.
  repeat split; try assumption.
Qed.
End TileExtentFacts.

(** ** Elevation field *)

Section PowersOfTwo.
Local Open Scope Z_scope.

Lemma overflow_or_infinite s n e : 971 < e -> F64.overflow_or s n e = S754_infinity s.
Proof.
  intros He. unfold F64.overflow_or. change (emax - prec) with 971.
  now rewrite (proj2 (Z.leb_gt e 971) He).
Qed.

Lemma of_int_pow2_overflow k : 1024 <= k -> F64.of_int (2 ^ k) = infinity.
Proof.
  intros Hk. unfold F64.of_int.
  rewrite normalize_pow2, overflow_or_infinite by lia. reflexivity.
Qed.

Lemma pow2_double (k : nat) : (pow2 k * 2 = pow2 (S k))%float.
Proof.
  unfold pow2. rewrite Nat2Z.inj_succ, <- Z.add_1_r.
  set (j := Z.of_nat k). assert (Hj : 0 <= j) by (unfold j; lia).
  destruct (Z_le_gt_dec j 1023) as [Hle|Hgt].
  - apply Prim2SF_inj. rewrite mul_spec, of_int_pow2 by lia.
    change (Prim2SF 2%float) with (S754_finite false F64.two52 (1 - 52)).
    rewrite mul_pow2_exact by (try apply two52_canonical; lia).
    unfold F64.of_int. rewrite normalize_pow2 by lia.
    replace (j - 52 + 1) with (j + 1 - 52) by lia.
    destruct (Z_le_gt_dec (j + 1) 1023).
    + rewrite overflow_or_finite by lia.
      symmetry. apply Prim2SF_finite; [apply two52_canonical|]; lia.
    + rewrite overflow_or_infinite by lia. reflexivity.
  - rewrite !of_int_pow2_overflow by lia. reflexivity.
Qed.

End PowersOfTwo.

Section ElevationFacts.
Local Open Scope float_scope.
Variables Cos Sin : float -> float.
Variable Noise4 : float -> float -> float -> float -> float.

Lemma torusLoop_octaves (n k : nat) (c : Vector) (value : float) :
  torusLoop Cos Sin Noise4 n c (pow2 k) value
  = fold_left (fun acc j => acc + octave Cos Sin Noise4 c j) (seq (S k) n) value.
Proof.
  revert k value. induction n as [|n IH]; intros k value; [reflexivity|].
  cbn [torusLoop seq fold_left]. rewrite pow2_double, IH. reflexivity.
Qed.

(** C1: for every world point [c] and every tile coordinate whose zoom
    level [Z] leaves [Z + 16] below the largest [int], the elevation field is
    the noise at (cos, cos, sin, sin) of the two angles [c.x/2·π] and
    [c.y/2·π], plus, for each octave [k] from 1 to [Z + 16] in that order, the
    noise at the same four expressions with the angle multiplied by [2^k],
    divided by [2^k]. *)
Theorem simplexTorus_octave_sum (c : Vector) (coords : TileCoords) :
  (GoInt.min_int <= coordZ coords)%Z -> (coordZ coords + 16 < GoInt.max_int)%Z ->
  simplexTorus Cos Sin Noise4 c coords
  = octaveSum Cos Sin Noise4 c (Z.to_nat (coordZ coords + 16)).
Proof.
  intros Hlo Hhi. unfold simplexTorus, octaveSum, baseOctave, GoInt.add.
  rewrite wrap_int_small
    by (revert Hlo Hhi; unfold GoInt.min_int, GoInt.max_int;
        change (2 ^ 63)%Z with 9223372036854775808%Z; lia).
  change 1 with (pow2 0). apply torusLoop_octaves.
Qed.

(** C3: the elevation at a world point depends on the tile coordinate
    through its zoom level only: two tiles of the same zoom give the same
    value at the same point, whatever their column and row. *)
Theorem simplexTorus_zoom_only (c : Vector) (coords1 coords2 : TileCoords) :
  coordZ coords1 = coordZ coords2 ->
  simplexTorus Cos Sin Noise4 c coords1 = simplexTorus Cos Sin Noise4 c coords2.
Proof. intros H. unfold simplexTorus. now rewrite H. Qed.

End ElevationFacts.

(** ** Raster scan *)

Section ImageFacts.

Lemma set_nth_length {T} (l : list T) i a : List.length (set_nth l i a) = List.length l.
Proof.
  revert i. induction l as [|h t IH]; intros [|i]; cbn; try reflexivity.
  now rewrite IH.
Qed.

Lemma nth_set_nth_same {T} (l : list T) i a d :
  (i < List.length l)%nat -> nth i (set_nth l i a) d = a.
Proof.
  revert i. induction l as [|h t IH]; intros [|i] Hi; cbn in *; try lia.
  - reflexivity.
  - apply IH. lia.
Qed.

Lemma nth_set_nth_other {T} (l : list T) i j a d :
  i <> j -> nth j (set_nth l i a) d = nth j l d.
Proof.
  revert i j. induction l as [|h t IH]; intros [|i] [|j] Hij; cbn; try reflexivity.
  - contradiction.
  - apply IH. lia.
Qed.

Lemma NewRGBA_sized w h : sized w h (NewRGBA w h).
Proof. unfold sized, NewRGBA. cbn. now rewrite repeat_length. Qed.

Lemma SetRGBA_sized w h img x y c : sized w h img -> sized w h (SetRGBA img x y c).
Proof.
  intros (Hw & Hh & Hl). unfold SetRGBA.
  destruct (in_bounds img x y); [|now repeat split].
  unfold sized. cbn. now rewrite set_nth_length.
Qed.

Lemma in_bounds_true w h img x y :
  sized w h img -> (x < w)%nat -> (y < h)%nat -> in_bounds img x y = true.
Proof.
  intros (Hw & Hh & _) Hx Hy. unfold in_bounds. rewrite Hw, Hh.
  apply andb_true_intro. split; now apply Nat.ltb_lt.
Qed.

Lemma RGBAAt_SetRGBA_same w h img x y c :
  sized w h img -> (x < w)%nat -> (y < h)%nat ->
  RGBAAt (SetRGBA img x y c) x y = c.
Proof.
  intros Hs Hx Hy.
  pose proof (SetRGBA_sized w h img x y c Hs) as Hs'.
  unfold RGBAAt. rewrite (in_bounds_true w h _ x y Hs' Hx Hy).
  unfold SetRGBA. rewrite (in_bounds_true w h _ x y Hs Hx Hy).
  unfold PixOffset. cbn [Pix Width].
  destruct Hs as (Hw & Hh & Hl). apply nth_set_nth_same. rewrite Hl, Hw. nia.
Qed.

Lemma RGBAAt_SetRGBA_other w h img x y c x' y' :
  sized w h img -> (x < w)%nat -> (x' < w)%nat ->
  (x, y) <> (x', y') ->
  RGBAAt (SetRGBA img x y c) x' y' = RGBAAt img x' y'.
Proof.
  intros Hs Hx Hx' Hne. unfold SetRGBA.
  destruct (in_bounds img x y) eqn:Hb; [|reflexivity].
  unfold RGBAAt, in_bounds, PixOffset. cbn [Pix Width Height].
  destruct ((x' <? Width img)%nat && (y' <? Height img)%nat); [|reflexivity].
  apply nth_set_nth_other. destruct Hs as (Hw & _). rewrite Hw.
  intros Heq. apply Hne.
  assert (y = y') by nia. subst. f_equal. lia.
Qed.

Variable colourAt : nat -> nat -> RGBA.

Lemma paintRow_sized w h y a n tile : sized w h tile -> sized w h (paintRow colourAt y a n tile).
Proof.
  unfold paintRow. revert a tile. induction n as [|n IH]; intros a tile Hs; cbn.
  - assumption.
  - apply IH. now apply SetRGBA_sized.
Qed.

Lemma paintRow_pixel w h y a n tile x' y' :
  sized w h tile -> (a + n <= w)%nat -> (y < h)%nat -> (x' < w)%nat ->
  RGBAAt (paintRow colourAt y a n tile) x' y'
  = if (y' =? y)%nat && (a <=? x')%nat && (x' <? a + n)%nat
    then colourAt x' y else RGBAAt tile x' y'.
Proof.
  unfold paintRow. revert a tile.
  induction n as [|n IH]; intros a tile Hs Han Hy Hx'; cbn [seq fold_left].
  - replace ((x' <? a + 0)%nat) with ((x' <? a)%nat) by (f_equal; lia).
    destruct (Nat.leb_spec a x'), (Nat.ltb_spec x' a); try lia;
      now rewrite ?andb_false_r.
  - rewrite IH by (try apply SetRGBA_sized; try assumption; lia).
    destruct (Nat.eqb_spec y' y) as [Hyy|Hyy]; cbn [andb]; [subst y'|].
    + destruct (Nat.leb_spec (S a) x'), (Nat.ltb_spec x' (S a + n)),
        (Nat.leb_spec a x'), (Nat.ltb_spec x' (a + S n)); try lia; cbn [andb];
        try reflexivity;
        first
          [ assert (x' = a) by lia; subst;
            apply (RGBAAt_SetRGBA_same w h); try assumption; lia
          | apply (RGBAAt_SetRGBA_other w h); try assumption; try lia;
            intros [= ->]; lia ].
    + apply (RGBAAt_SetRGBA_other w h); try assumption; try lia.
      intros [= _ Heq]. now subst.
Qed.

Lemma paintRows_sized w h b n tile : sized w h tile -> sized w h (paintRows colourAt w b n tile).
Proof.
  unfold paintRows. revert b tile. induction n as [|n IH]; intros b tile Hs; cbn.
  - assumption.
  - apply IH. now apply paintRow_sized.
Qed.

Lemma paintRows_pixel w h b n tile x' y' :
  sized w h tile -> (b + n <= h)%nat -> (x' < w)%nat ->
  RGBAAt (paintRows colourAt w b n tile) x' y'
  = if (b <=? y')%nat && (y' <? b + n)%nat
    then colourAt x' y' else RGBAAt tile x' y'.
Proof.
  unfold paintRows. revert b tile.
  induction n as [|n IH]; intros b tile Hs Hbn Hx'; cbn [seq fold_left].
  - destruct (Nat.leb_spec b y'), (Nat.ltb_spec y' (b + 0)); try lia; reflexivity.
  - rewrite IH by (try apply (paintRow_sized w h); try assumption; lia).
    rewrite (paintRow_pixel w h) by (try assumption; lia).
    destruct (Nat.leb_spec (S b) y'), (Nat.ltb_spec y' (S b + n)),
      (Nat.leb_spec b y'), (Nat.ltb_spec y' (b + S n)), (Nat.eqb_spec y' b);
      try lia; cbn [andb]; try reflexivity.
    subst. cbn [Nat.leb Nat.add andb].
    destruct (Nat.ltb_spec x' w); [reflexivity|lia].
Qed.

End ImageFacts.

Section RasterFacts.
Variables Cos Sin : float -> float.

Lemma fold_left_pointwise {S T} (f g : S -> T -> S) (l : list T) (a : S) :
  (forall s t, f s t = g s t) -> fold_left f l a = fold_left g l a.
Proof.
  intros H. revert a. induction l as [|t l IH]; intros a; cbn; [reflexivity|].
  now rewrite H, IH.
Qed.

Section OneNoise.
Variable Noise4 : float -> float -> float -> float -> float.

Lemma renderTile_paint (coords : TileCoords) :
  renderTile Cos Sin Noise4 coords
  = paintRows
      (fun x y => colouriseByValue
                    (simplexTorus Cos Sin Noise4
                       (pixelPoint (tileExtent coords) x y) coords))
      tileSize 0 tileSize (NewRGBA tileSize tileSize).
Proof. unfold renderTile, paintRows, paintRow, pixelPoint. reflexivity. Qed.

(** C7: for every tile coordinate whose octave loop ends, the rasterizer
    returns a 256 by 256 image holding all of its pixels, and the pixel at
    ([px], [py]) is the palette colour of the elevation at the world point
    [min.x + (max.x - min.x)·px/256], [min.y + (max.x - min.x)·py/256]: the y
    coordinate too advances by the x span of the extent. *)
Theorem renderTile_pixels (coords : TileCoords) (px py : nat) :
  octavesEnd coords ->
  (px < 256)%nat -> (py < 256)%nat ->
  Width (renderTile Cos Sin Noise4 coords) = 256%nat
  /\ Height (renderTile Cos Sin Noise4 coords) = 256%nat
  /\ List.length (Pix (renderTile Cos Sin Noise4 coords)) = (256 * 256)%nat
  /\ RGBAAt (renderTile Cos Sin Noise4 coords) px py
     = colouriseByValue
         (simplexTorus Cos Sin Noise4
            (pixelPoint (tileExtent coords) px py) coords).
Proof.
  intros _ Hx Hy. rewrite renderTile_paint.
  set (colourAt := fun x y : nat => _).
  pose proof (paintRows_sized colourAt tileSize tileSize 0 tileSize _
                (NewRGBA_sized tileSize tileSize)) as (Hw & Hh & Hl).
  split; [exact Hw|]. split; [exact Hh|]. split; [exact Hl|].
  rewrite (paintRows_pixel colourAt tileSize tileSize)
    by (try apply NewRGBA_sized; unfold tileSize; lia).
  unfold tileSize.
  destruct (Nat.leb_spec 0 py), (Nat.ltb_spec py (0 + 256)); try lia.
  reflexivity.
Qed.
End OneNoise.

Lemma torusLoop_pointwise (N N' : float -> float -> float -> float -> float) :
  (forall a b c d, N a b c d = N' a b c d) ->
  forall n c scale value,
    torusLoop Cos Sin N n c scale value = torusLoop Cos Sin N' n c scale value.
Proof.
  intros H n. induction n as [|n IH]; intros c scale value; cbn [torusLoop].
  - reflexivity.
  - now rewrite H, IH.
Qed.

(** C9: the rendered image is a function of the tile coordinate and of
    the noise primitive alone: two renders of one coordinate with noise
    primitives that answer every query alike give the same pixel buffer. *)
Theorem renderTile_deterministic
    (Noise4 Noise4' : float -> float -> float -> float -> float)
    (coords : TileCoords) :
  (forall a b c d, Noise4 a b c d = Noise4' a b c d) ->
  renderTile Cos Sin Noise4 coords = renderTile Cos Sin Noise4' coords.
Proof.
  intros H. unfold renderTile.
  apply fold_left_pointwise. intros tile y.
  apply fold_left_pointwise. intros tile' x.
  unfold simplexTorus. now rewrite H, (torusLoop_pointwise _ _ H).
Qed.

End RasterFacts.

(** ** Request validation *)

Section PathFacts.
Local Open Scope string_scope.

Lemma digitsOnly_cons c s : digitsOnly (String c s) <-> is_digit c = true /\ digitsOnly s.
Proof.
  unfold digitsOnly. cbn. split.
  - intros H. split; [apply H; now left|]. intros c' Hc'. apply H. now right.
  - intros [Hc Hs] c' [<-|Hc']; [assumption|now apply Hs].
Qed.

Lemma digitsOnly_nil : digitsOnly EmptyString.
Proof. intros c []. Qed.

Lemma span_digits_spec s d r :
  span_digits s = (d, r) <-> s = d ++ r /\ digitsOnly d /\ startsNonDigit r.
Proof.
  split.
  - revert d r. induction s as [|c s IH]; intros d r H; cbn [span_digits] in H.
    + injection H as <- <-. repeat split. apply digitsOnly_nil.
    + destruct (is_digit c) eqn:Hc.
      * destruct (span_digits s) as [d' t] eqn:E. injection H as <- <-.
        destruct (IH d' t eq_refl) as (-> & Hd & Hr).
        repeat split; try assumption. apply digitsOnly_cons. now split.
      * injection H as <- <-. repeat split; [apply digitsOnly_nil|exact Hc].
  - intros (-> & Hd & Hr). induction d as [|c d IH]; cbn [append span_digits].
    + destruct r as [|c r]; [reflexivity|].
      cbn [startsNonDigit] in Hr. cbn [span_digits]. now rewrite Hr.
    + apply digitsOnly_cons in Hd. destruct Hd as [Hc Hd].
      rewrite Hc, (IH Hd). reflexivity.
Qed.

Lemma group_digits_spec s d r :
  group_digits s = Some (d, r)
  <-> d <> EmptyString /\ s = d ++ r /\ digitsOnly d /\ startsNonDigit r.
Proof.
  unfold group_digits. rewrite <- span_digits_spec.
  destruct (span_digits s) as [[|c d'] t]; split.
  - discriminate.
  - intros [Hne [= <- <-]]. contradiction.
  - intros [= <- <-]. split; [discriminate|reflexivity].
  - intros [_ [= <- <-]]. reflexivity.
Qed.

Lemma literal_spec c s r : literal c s = Some r <-> s = String c r.
Proof.
  unfold literal. destruct s as [|c' s]; [split; discriminate|].
  destruct (Ascii.eqb_spec c c') as [->|Hne]; split.
  - now intros [= ->].
  - now intros [= ->].
  - discriminate.
  - intros [= -> ->]. contradiction.
Qed.

(** What the pattern matches, and what it captures. *)
Lemma FindStringSubmatch_spec path g1 g2 g3 :
  FindStringSubmatch path = [path; g1; g2; g3]
  <-> isDecimal g1 /\ isDecimal g2 /\ isDecimal g3
      /\ path = "/" ++ g1 ++ "/" ++ g2 ++ "/" ++ g3 ++ ".png".
Proof.
  unfold FindStringSubmatch. split.
  - destruct (literal "/" path) as [r0|] eqn:L0; [|discriminate].
    destruct (group_digits r0) as [[h1 r1]|] eqn:G1; [|discriminate].
    destruct (literal "/" r1) as [r2|] eqn:L1; [|discriminate].
    destruct (group_digits r2) as [[h2 r3]|] eqn:G2; [|discriminate].
    destruct (literal "/" r3) as [r4|] eqn:L2; [|discriminate].
    destruct (group_digits r4) as [[h3 r5]|] eqn:G3; [|discriminate].
    destruct (String.eqb_spec r5 ".png") as [->|]; [|discriminate].
    intros [= <- <- <-].
    apply literal_spec in L0, L1, L2.
    apply group_digits_spec in G1, G2, G3.
    destruct G1 as (N1 & E1 & D1 & _), G2 as (N2 & E2 & D2 & _),
      G3 as (N3 & E3 & D3 & _).
    repeat split; try assumption.
    subst. reflexivity.
  - intros ((N1 & D1) & (N2 & D2) & (N3 & D3) & ->).
    cbn [append literal]. rewrite Ascii.eqb_refl.
    rewrite (proj2 (group_digits_spec (g1 ++ String "/" (g2 ++ String "/" (g3 ++ ".png")))
                      g1 (String "/" (g2 ++ String "/" (g3 ++ ".png")))))
      by (repeat split; try assumption; reflexivity).
    cbn [literal]. rewrite Ascii.eqb_refl.
    rewrite (proj2 (group_digits_spec (g2 ++ String "/" (g3 ++ ".png"))
                      g2 (String "/" (g3 ++ ".png"))))
      by (repeat split; try assumption; reflexivity).
    cbn [literal]. rewrite Ascii.eqb_refl.
    rewrite (proj2 (group_digits_spec (g3 ++ ".png") g3 ".png"))
      by (repeat split; try assumption; reflexivity).
    reflexivity.
Qed.

Lemma FindStringSubmatch_shape path :
  FindStringSubmatch path = []
  \/ exists g1 g2 g3, FindStringSubmatch path = [path; g1; g2; g3].
Proof.
  unfold FindStringSubmatch.
  destruct (literal "/" path) as [r0|]; [|now left].
  destruct (group_digits r0) as [[h1 r1]|]; [|now left].
  destruct (literal "/" r1) as [r2|]; [|now left].
  destruct (group_digits r2) as [[h2 r3]|]; [|now left].
  destruct (literal "/" r3) as [r4|]; [|now left].
  destruct (group_digits r4) as [[h3 r5]|]; [|now left].
  destruct (r5 =? ".png"); [right; now exists h1, h2, h3|now left].
Qed.

End PathFacts.

Section AtoiFacts.
Local Open Scope Z_scope.

Lemma is_digit_range c :
  is_digit c = true -> 0 <= Z.of_nat (nat_of_ascii c) - 48 <= 9.
Proof.
  unfold is_digit. intros H. apply andb_true_iff in H. destruct H as [H1 H2].
  apply Nat.leb_le in H1, H2. lia.
Qed.

Lemma digits_value_spec s acc :
  digitsOnly s ->
  digits_value acc s = Some (fold_left digitStep (list_ascii_of_string s) acc).
Proof.
  revert acc. induction s as [|c s IH]; intros acc Hd; cbn [digits_value].
  - reflexivity.
  - apply digitsOnly_cons in Hd. destruct Hd as [Hc Hd].
    rewrite Hc, (IH _ Hd). cbn [list_ascii_of_string fold_left].
    replace (acc * 10 + (Z.of_nat (nat_of_ascii c) - 48)) with (digitStep acc c)
      by (unfold digitStep; lia).
    reflexivity.
Qed.

Lemma fold_digitStep_nonneg l acc :
  (forall c, In c l -> is_digit c = true) -> 0 <= acc ->
  0 <= fold_left digitStep l acc.
Proof.
  revert acc. induction l as [|c l IH]; intros acc Hd Hacc; cbn [fold_left].
  - assumption.
  - apply IH; [intros c' Hc'; apply Hd; now right|].
    pose proof (is_digit_range c (Hd c (or_introl eq_refl))).
    unfold digitStep. lia.
Qed.

Lemma decimalValue_fold s : decimalValue s = fold_left digitStep (list_ascii_of_string s) 0.
Proof. reflexivity. Qed.

Lemma decimalValue_nonneg s : digitsOnly s -> 0 <= decimalValue s.
Proof. intros Hd. rewrite decimalValue_fold. apply fold_digitStep_nonneg; [exact Hd|lia]. Qed.

Lemma Atoi_decimal s :
  isDecimal s ->
  Atoi s = if decimalValue s <=? GoInt.max_int then Some (decimalValue s) else None.
Proof.
  intros [Hne Hd]. pose proof (decimalValue_nonneg s Hd) as Hpos.
  destruct s as [|c s]; [contradiction|].
  pose proof (proj1 (proj1 (digitsOnly_cons c s) Hd)) as Hc.
  assert (Hbody : Atoi (String c s)
                  = match digits_value 0 (String c s) with
                    | None => None
                    | Some v =>
                        if (GoInt.min_int <=? v) && (v <=? GoInt.max_int)
                        then Some v else None
                    end).
  { unfold Atoi.
    destruct c as [[] [] [] [] [] [] [] []]; try discriminate Hc; reflexivity. }
  rewrite Hbody, (digits_value_spec _ 0 Hd), <- decimalValue_fold.
  replace (GoInt.min_int <=? decimalValue (String c s)) with true; [reflexivity|].
  symmetry. apply Z.leb_le. unfold GoInt.min_int.
  change (2 ^ 63) with 9223372036854775808. lia.
Qed.

Lemma shl_one_small z : 0 <= z <= 62 -> GoInt.shl 1 (GoInt.to_uint z) = 2 ^ z.
Proof.
  intros Hz. unfold GoInt.shl, GoInt.to_uint, GoInt.wrap_uint.
  rewrite (Z.mod_small z) by (change (2 ^ 64) with 18446744073709551616; lia).
  replace (z <? 64) with true by (symmetry; apply Z.ltb_lt; lia).
  rewrite Z.mul_1_l. apply wrap_int_small.
  assert (0 < 2 ^ z) by (apply Z.pow_pos_nonneg; lia).
  assert (2 ^ z <= 2 ^ 62) by (apply Z.pow_le_mono_r; lia).
  unfold GoInt.min_int, GoInt.max_int.
  change (2 ^ 63) with 9223372036854775808.
  change (2 ^ 62) with 4611686018427387904 in *. lia.
Qed.

Lemma shl_one_large z :
  63 <= z <= GoInt.max_int -> GoInt.shl 1 (GoInt.to_uint z) <= 0.
Proof.
  intros Hz. unfold GoInt.shl, GoInt.to_uint, GoInt.wrap_uint, GoInt.max_int in *.
  change (2 ^ 63) with 9223372036854775808 in *.
  rewrite (Z.mod_small z) by (change (2 ^ 64) with 18446744073709551616; lia).
  destruct (Z.ltb_spec z 64); [|lia].
  assert (z = 63) by lia. subst. vm_compute. discriminate.
Qed.

End AtoiFacts.

Section RequestFacts.
Local Open Scope Z_scope.
Variables Cos Sin : float -> float.
Variable Noise4 : float -> float -> float -> float -> float.

Lemma extractTileCoords_accepts path z x y :
  parsesAs path z x y -> z <= 62 -> 0 <= x < 2 ^ z -> 0 <= y < 2 ^ z ->
  extractTileCoords path = inr (mkTileCoords z x y).
Proof.
  intros (dz & dx & dy & Dz & Dx & Dy & Hpath & <- & <- & <-) Hz Hx Hy.
  pose proof (decimalValue_nonneg dz (proj2 Dz)) as Hz0.
  assert (Hle : 2 ^ decimalValue dz <= 2 ^ 62) by (apply Z.pow_le_mono_r; lia).
  change (2 ^ 62) with 4611686018427387904 in Hle.
  assert (Hmax : GoInt.max_int = 9223372036854775807) by reflexivity.
  unfold extractTileCoords.
  rewrite (proj2 (FindStringSubmatch_spec path dz dx dy))
    by (split; [exact Dz|split; [exact Dx|split; [exact Dy|exact Hpath]]]).
  cbn [List.length Nat.eqb negb nth].
  rewrite !Atoi_decimal by assumption.
  rewrite !(proj2 (Z.leb_le _ _)) by lia.
  cbn [coordZ coordX coordY].
  rewrite shl_one_small by lia.
  destruct (Z.ltb_spec (decimalValue dx) 0); [lia|].
  destruct (Z.geb_spec (decimalValue dx) (2 ^ decimalValue dz)); [lia|].
  destruct (Z.ltb_spec (decimalValue dy) 0); [lia|].
  destruct (Z.geb_spec (decimalValue dy) (2 ^ decimalValue dz)); [lia|].
  reflexivity.
Qed.

Lemma extractTileCoords_accepted path coords :
  extractTileCoords path = inr coords ->
  exists z x y,
    parsesAs path z x y /\ z <= 62 /\ 0 <= x < 2 ^ z /\ 0 <= y < 2 ^ z
    /\ coords = mkTileCoords z x y.
Proof.
  unfold extractTileCoords.
  destruct (FindStringSubmatch_shape path) as [->|(g1 & g2 & g3 & E)];
    [discriminate|].
  rewrite E. cbn [List.length Nat.eqb negb nth].
  apply FindStringSubmatch_spec in E. destruct E as (D1 & D2 & D3 & Hpath).
  rewrite !Atoi_decimal by assumption.
  pose proof (decimalValue_nonneg g1 (proj2 D1)) as Hz0.
  pose proof (decimalValue_nonneg g2 (proj2 D2)) as Hx0.
  pose proof (decimalValue_nonneg g3 (proj2 D3)) as Hy0.
  destruct (Z.leb_spec (decimalValue g1) GoInt.max_int) as [Hz|]; [|discriminate].
  destruct (Z.leb_spec (decimalValue g2) GoInt.max_int) as [Hx|]; [|discriminate].
  destruct (Z.leb_spec (decimalValue g3) GoInt.max_int) as [Hy|]; [|discriminate].
  cbn [coordZ coordX coordY].
  destruct (Z.ltb_spec (decimalValue g2) 0); [discriminate|].
  destruct (Z.geb_spec (decimalValue g2) (GoInt.shl 1 (GoInt.to_uint (decimalValue g1))));
    [discriminate|].
  destruct (Z.ltb_spec (decimalValue g3) 0); [discriminate|].
  destruct (Z.geb_spec (decimalValue g3) (GoInt.shl 1 (GoInt.to_uint (decimalValue g1))));
    [discriminate|].
  cbn [orb]. intros [= <-].
  assert (Hz62 : decimalValue g1 <= 62).
  { destruct (Z_le_gt_dec (decimalValue g1) 62); [assumption|exfalso].
    pose proof (shl_one_large (decimalValue g1) ltac:(lia)). lia. }
  rewrite shl_one_small in * by lia.
  exists (decimalValue g1), (decimalValue g2), (decimalValue g3).
  repeat split; try lia.
  exists g1, g2, g3. repeat split; try assumption; try apply D1; try apply D2; try apply D3.
Qed.

(** C8, amended: [extractTileCoords] accepts a path exactly when it is
    [/z/x/y.png] in decimal digits with [z <= 62], [0 <= x < 2^z] and
    [0 <= y < 2^z], and then returns that triple; every other path is an
    error, which the handler answers with "bad request" without rendering;
    in particular z=3, x=8, y=8 is rejected. *)
Theorem extractTileCoords_accepts_iff :
  (forall path coords,
      extractTileCoords path = inr coords
      <-> exists z x y,
            parsesAs path z x y /\ z <= 62 /\ 0 <= x < 2 ^ z /\ 0 <= y < 2 ^ z
            /\ coords = mkTileCoords z x y)
  /\ (forall path,
        (exists err, extractTileCoords path = inl err
                     /\ tileServer Cos Sin Noise4 path = BadRequest err)
        \/ (exists coords, extractTileCoords path = inr coords
                           /\ tileServer Cos Sin Noise4 path
                              = TilePNG (renderTile Cos Sin Noise4 coords)))
  /\ extractTileCoords "/3/8/8.png" = inl (ErrInvalidCoords (mkTileCoords 3 8 8)).
Proof.
  split; [|split].
  - intros path coords. split.
    + apply extractTileCoords_accepted.
    + intros (z & x & y & Hp & Hz & Hx & Hy & ->).
      now apply extractTileCoords_accepts.
  - intros path. unfold tileServer.
    destruct (extractTileCoords path) as [err|coords].
    + left. now exists err.
    + right. now exists coords.
  - vm_compute. reflexivity.
Qed.

(** C8 as stated fails: the triple z=63, x=0, y=0 satisfies the invariant
    and its path parses, but [1 << 63] is the smallest [int] and every [x]
    is at least that. *)
Lemma extractTileCoords_rejects_zoom_63 :
  parsesAs "/63/0/0.png" 63 0 0 /\ 0 <= 0 < 2 ^ 63
  /\ extractTileCoords "/63/0/0.png" = inl (ErrInvalidCoords (mkTileCoords 63 0 0)).
Proof.
  split; [|split].
  - exists "63"%string, "0"%string, "0"%string.
    repeat split; try discriminate;
      intros c Hc; cbn in Hc; intuition (subst; reflexivity).
  - change (2 ^ 63) with 9223372036854775808. lia.
  - vm_compute. reflexivity.
Qed.

End RequestFacts.

(** ** The HSL helper, in exact arithmetic *)

Section IdealHSL.
Local Open Scope R_scope.

Lemma Rltb_false x y : y <= x -> Ideal.Rltb x y = false.
Proof. intros H. unfold Ideal.Rltb. destruct (Rlt_dec x y); [lra|reflexivity]. Qed.

Lemma Mod_2_range r : 0 <= r -> 0 <= Ideal.Mod r 2 < 2.
Proof.
  intros Hr. unfold Ideal.Mod, Ideal.Rtrunc.
  destruct (Rle_dec 0 (r / 2)) as [_|Hn]; [|exfalso; apply Hn; lra].
  destruct (base_Int_part (r / 2)) as [H1 H2]. lra.
Qed.

(** Over the reals the preconditions keep every channel in [0, 1]: no
    panic is reached. *)
Lemma hslToRGB_total_over_reals (hue saturation lightness : R) :
  0 <= hue <= 360 -> 0 <= saturation <= 1 -> 0 <= lightness <= 1 ->
  exists r g b,
    Ideal.hslToRGB hue saturation lightness = Ideal.Returns r g b
    /\ 0 <= r <= 1 /\ 0 <= g <= 1 /\ 0 <= b <= 1.
Proof.
  intros Hh Hs Hl. unfold Ideal.hslToRGB.
  rewrite !Rltb_false by lra. cbn [orb].
  set (A := 1 - Rabs (2 * lightness - 1)).
  assert (HA : 0 <= A /\ A <= 2 * lightness /\ A <= 2 - 2 * lightness).
  { unfold A. unfold Rabs. destruct (Rcase_abs (2 * lightness - 1)); lra. }
  set (c := A * saturation).
  assert (Hc : 0 <= c <= A) by (unfold c; nra).
  pose proof (Mod_2_range (hue / 60) ltac:(lra)) as HM.
  set (B := 1 - Rabs (Ideal.Mod (hue / 60) 2 - 1)).
  assert (HB : 0 <= B <= 1).
  { unfold B. unfold Rabs. destruct (Rcase_abs (Ideal.Mod (hue / 60) 2 - 1)); lra. }
  set (x := c * B).
  assert (Hx : 0 <= x <= c) by (unfold x; nra).
  set (m := lightness - 0.5 * c).
  assert (Hm : 0 <= m /\ c + m <= 1) by (unfold m; lra).
  unfold Ideal.Rleb.
  destruct (Rle_dec (hue / 60) 1);
    [|destruct (Rle_dec (hue / 60) 2);
      [|destruct (Rle_dec (hue / 60) 3);
        [|destruct (Rle_dec (hue / 60) 4);
          [|destruct (Rle_dec (hue / 60) 5);
            [|destruct (Rle_dec (hue / 60) 6); [|exfalso; lra]]]]]];
    cbv zeta; fold m;
    rewrite !Rltb_false by lra; cbn [orb];
    eexists _, _, _; (split; [reflexivity|lra]).
Qed.

End IdealHSL.

(** ** Palette *)

Section PaletteFacts.

Local Open Scope float_scope.

(** The exact sums [0.40 + 0.20] and [0.60 + 0.30] of the source are not
    what binary64 addition of the rounded operands gives: the constants have
    to be folded before they are rounded. *)
Remark constant_sums_are_folded :
  (0.40 + 0.20 =? 0.6) = false /\ (0.60 + 0.30 =? 0.9) = false.
Proof. split; reflexivity. Qed.

(** C5: for every elevation value the palette mapper is the first of the
    seven bands whose bound lies strictly above it (white when there is
    none), the band's affine law for r, g, b, each channel multiplied by 255
    and truncated without clamping, and alpha 255. *)
Theorem colouriseByValue_bands (value : float) :
  colouriseByValue value = paletteSpec value.
Proof.
  unfold colouriseByValue, paletteSpec, bands, selectBand.
  destruct (value <? -0.1); [reflexivity|].
  destruct (value <? 0.2).
  { rewrite (float_add_zero_inner 0.1 value false 7205759403792794 (-56))
      by reflexivity.
    rewrite (float_add_zero_inner 0.5 value false 4503599627370496 (-53))
      by reflexivity.
    reflexivity. }
  destruct (value <? 0.201); [reflexivity|].
  destruct (value <? 0.40); [reflexivity|].
  destruct (value <? 0.60); [reflexivity|].
  destruct (value <? 0.90).
  { change (0.90 - 0.10) with 0.8.
    rewrite !(float_mul_comm (value - 0.10)).
    reflexivity. }
  destruct (value <? 1.2); reflexivity.
Qed.

(** C6 as stated fails: whatever step counts as large, the boundary 0.2
    (shallow water / sand), which the claim takes to be continuous, steps
    further than the boundary 0.201 that it excepts. *)
Lemma palette_boundaries_not_continuous :
  ~ exists tol, continuousExceptSandGrass tol.
Proof.
  intros [tol H]. unfold continuousExceptSandGrass in H.
  destruct H as (_ & H2 & _ & _ & _ & _ & H7).
  assert (E2 : jumpAt 0.2 = 179%Z) by (vm_compute; reflexivity).
  assert (E3 : jumpAt 0.201 = 35%Z) by (vm_compute; reflexivity).
  lia.
Qed.

(** C6, amended: the step of the palette at each boundary, from the
    largest [float64] below it to the boundary itself, in 8-bit units of
    the channel that moves most.  Only -0.1 is continuous; 0.90 and 1.2
    step by less than sand/grassland (35), and 0.2, 0.40 and 0.60 by
    more. *)
Theorem palette_boundary_steps :
  map jumpAt boundaries = [0; 179; 35; 36; 112; 31; 11]%Z
  /\ colouriseByValue (next_down (-0.1)) = colouriseByValue (-0.1)
  /\ colouriseByValue (next_down 0.2) = mkRGBA 76 76 178 255
  /\ colouriseByValue 0.2 = mkRGBA 255 255 127 255
  /\ colouriseByValue (next_down 0.201) = mkRGBA 127 127 63 255
  /\ colouriseByValue 0.201 = mkRGBA 122 162 81 255.
Proof. repeat split; vm_compute; reflexivity. Qed.

(** C10 fails on the code: with hue 0, saturation 1 and lightness 3·2^-56
    the subtraction [2*lightness - 1] rounds to [-(1 - 2^-53)], the chroma
    becomes [2^-53], [m = lightness - 0.5*c] is [-2^-56], and [g = 0 + m] is
    negative: the range check on [g] panics. *)
Theorem hslToRGB_panics_on_tiny_lightness :
  hslToRGB 0 1 0x3p-56 = Panics (PanicG (-0x1p-56)).
Proof. vm_compute. reflexivity. Qed.

End PaletteFacts.

(** ** Errors of the request validation *)

Section RequestErrors.
Local Open Scope Z_scope.

Lemma extractTileCoords_no_parse path :
  (forall z x y, ~ parsesAs path z x y) ->
  extractTileCoords path = inl (ErrNotEnoughMatches 0).
Proof.
  intros Hno. unfold extractTileCoords.
  destruct (FindStringSubmatch_shape path) as [->|(g1 & g2 & g3 & E)];
    [reflexivity|exfalso].
  apply FindStringSubmatch_spec in E. destruct E as (D1 & D2 & D3 & Hpath).
  apply (Hno (decimalValue g1) (decimalValue g2) (decimalValue g3)).
  exists g1, g2, g3.
  split; [exact D1|]. split; [exact D2|]. split; [exact D3|].
  split; [exact Hpath|]. repeat split.
Qed.

Lemma extractTileCoords_of_parse path z x y :
  parsesAs path z x y -> extractTileCoords path = answerFor z x y.
Proof.
  intros (dz & dx & dy & Dz & Dx & Dy & Hpath & <- & <- & <-).
  pose proof (decimalValue_nonneg dz (proj2 Dz)) as Hz0.
  pose proof (decimalValue_nonneg dx (proj2 Dx)) as Hx0.
  pose proof (decimalValue_nonneg dy (proj2 Dy)) as Hy0.
  unfold extractTileCoords, answerFor.
  rewrite (proj2 (FindStringSubmatch_spec path dz dx dy))
    by (split; [exact Dz|split; [exact Dx|split; [exact Dy|exact Hpath]]]).
  cbn [List.length Nat.eqb negb nth].
  rewrite !Atoi_decimal by assumption.
  destruct (Z.leb_spec (decimalValue dz) GoInt.max_int) as [Hz|Hz];
    destruct (Z.ltb_spec GoInt.max_int (decimalValue dz)); try lia; [|reflexivity].
  destruct (Z.leb_spec (decimalValue dx) GoInt.max_int) as [Hx|Hx];
    destruct (Z.ltb_spec GoInt.max_int (decimalValue dx)); try lia; [|reflexivity].
  destruct (Z.leb_spec (decimalValue dy) GoInt.max_int) as [Hy|Hy];
    destruct (Z.ltb_spec GoInt.max_int (decimalValue dy)); try lia; [|reflexivity].
  cbn [coordZ coordX coordY].
  destruct (Z.ltb_spec (decimalValue dx) 0); [lia|].
  destruct (Z.ltb_spec (decimalValue dy) 0); [lia|].
  cbn [orb].
  destruct (Z.leb_spec (decimalValue dz) 62) as [Hz62|Hz62].
  - rewrite shl_one_small by lia. cbn [andb].
    destruct (Z.geb_spec (decimalValue dx) (2 ^ decimalValue dz));
      destruct (Z.ltb_spec (decimalValue dx) (2 ^ decimalValue dz)); try lia;
      [reflexivity|].
    destruct (Z.geb_spec (decimalValue dy) (2 ^ decimalValue dz));
      destruct (Z.ltb_spec (decimalValue dy) (2 ^ decimalValue dz)); try lia;
      reflexivity.
  - pose proof (shl_one_large (decimalValue dz) ltac:(lia)) as Hs.
    cbn [andb].
    destruct (Z.geb_spec (decimalValue dx)
                (GoInt.shl 1 (GoInt.to_uint (decimalValue dz)))); [reflexivity|lia].
Qed.

(** X1: the answer of [extractTileCoords] for every path.  A path that is
    not [/z/x/y.png] in decimal digits is refused with "not enough matches,
    got 0"; for one that is, the answer depends on the three numbers alone:
    the first of z, x, y above the largest [int] is reported as the number
    that could not be extracted, and a triple that fits is accepted when
    [z <= 62] and [x, y < 2^z] and refused as invalid otherwise. *)
Theorem extractTileCoords_answers :
  (forall path, (forall z x y, ~ parsesAs path z x y) ->
                extractTileCoords path = inl (ErrNotEnoughMatches 0))
  /\ (forall path z x y, parsesAs path z x y ->
                         extractTileCoords path = answerFor z x y).
Proof.
  split; [exact extractTileCoords_no_parse|exact extractTileCoords_of_parse].
Qed.

Local Open Scope string_scope.

Lemma isDecimal_zero_prefix d : isDecimal d -> isDecimal ("0" ++ d).
Proof.
  intros [Hne Hd]. split; [discriminate|].
  cbn [append]. apply digitsOnly_cons. split; [reflexivity|exact Hd].
Qed.

Lemma decimalValue_zero_prefix d : decimalValue ("0" ++ d) = decimalValue d.
Proof. reflexivity. Qed.

(** X2: leading zeros are accepted and do not change the answer: a tile
    has more than one path. *)
Theorem extractTileCoords_leading_zeros dz dx dy :
  isDecimal dz -> isDecimal dx -> isDecimal dy ->
  extractTileCoords ("/" ++ ("0" ++ dz) ++ "/" ++ ("0" ++ dx) ++ "/" ++ ("0" ++ dy) ++ ".png")
  = extractTileCoords ("/" ++ dz ++ "/" ++ dx ++ "/" ++ dy ++ ".png").
Proof.
  intros Dz Dx Dy.
  rewrite (extractTileCoords_of_parse _ (decimalValue dz) (decimalValue dx) (decimalValue dy)).
  - symmetry. apply extractTileCoords_of_parse.
    exists dz, dx, dy.
    split; [exact Dz|]. split; [exact Dx|]. split; [exact Dy|]. repeat split.
  - exists ("0" ++ dz), ("0" ++ dx), ("0" ++ dy).
    split; [now apply isDecimal_zero_prefix|].
    split; [now apply isDecimal_zero_prefix|].
    split; [now apply isDecimal_zero_prefix|]. repeat split.
Qed.

Local Open Scope Z_scope.

(** X3: for every accepted path the integer arithmetic downstream is
    exact: [1 << uint(z)] in [tileExtent] is [2^z], [x + 1] and [y + 1] do
    not wrap, and the octave loop of [simplexTorus] runs [z + 16] times,
    between 16 and 78. *)
Theorem extractTileCoords_guards_int_arithmetic path coords :
  extractTileCoords path = inr coords ->
  GoInt.ushl 1 (GoInt.to_uint (coordZ coords)) = 2 ^ coordZ coords
  /\ GoInt.add (coordX coords) 1 = coordX coords + 1
  /\ GoInt.add (coordY coords) 1 = coordY coords + 1
  /\ GoInt.add (coordZ coords) 16 = coordZ coords + 16
  /\ 16 <= coordZ coords + 16 <= 78.
Proof.
  intros H. apply extractTileCoords_accepted in H.
  destruct H as (z & x & y & (dz & _ & _ & Dz & _ & _ & _ & <- & _) & Hz & Hx & Hy & ->).
  pose proof (decimalValue_nonneg dz (proj2 Dz)) as Hz0.
  cbn [coordZ coordX coordY].
  assert (Hle : 2 ^ decimalValue dz <= 2 ^ 62) by (apply Z.pow_le_mono_r; lia).
  change (2 ^ 62) with 4611686018427387904 in Hle.
  assert (Hmax : GoInt.max_int = 9223372036854775807) by reflexivity.
  assert (Hmin : GoInt.min_int = -9223372036854775808) by reflexivity.
  split; [apply ushl_one; lia|].
  unfold GoInt.add. rewrite !wrap_int_small by lia. lia.
Qed.

End RequestErrors.

(** ** Results computed without rounding *)

Section ExactResults.
Local Open Scope Z_scope.

Lemma exactly_value f r : exactly f r -> F64.value f = Some r.
Proof.
  intros [[-> ->]|(s & n & e & Hf & _ & _ & ->)]; unfold F64.value.
  - reflexivity.
  - now rewrite Hf.
Qed.

Lemma SFval_nonzero s n e : F64.SFval s n e <> 0%R.
Proof. pose proof (SFval_sign s n e) as H. destruct s; lra. Qed.

(** Two normal binary64 numbers with the same value are the same. *)
Lemma normal_unique s1 n1 e1 s2 n2 e2 :
  Zpos (digits2_pos n1) = 53 -> Zpos (digits2_pos n2) = 53 ->
  F64.SFval s1 n1 e1 = F64.SFval s2 n2 e2 ->
  s1 = s2 /\ n1 = n2 /\ e1 = e2.
Proof.
  intros D1 D2 Hv.
  pose proof (SFval_sign s1 n1 e1) as S1. pose proof (SFval_sign s2 n2 e2) as S2.
  assert (Hs : s1 = s2) by (destruct s1, s2; try reflexivity; lra).
  subst s2. split; [reflexivity|].
  assert (Hm : (IZR (Zpos n1) * powerRZ 2 e1 = IZR (Zpos n2) * powerRZ 2 e2)%R).
  { unfold F64.SFval in Hv. destruct s1; lra. }
  pose proof (dyadic_of_real _ _ _ _ Hm) as Hd.
  pose proof (same_dyadic_digits _ _ _ _ Hd) as He.
  assert (e1 = e2) by lia. subst e2. split; [|reflexivity].
  destruct Hd as [[_ Hd]|[_ Hd]]; rewrite Z.sub_diag in Hd;
    change (2 ^ 0) with 1 in Hd; lia.
Qed.

Lemma exactly_inj a b r : exactly a r -> exactly b r -> a = b.
Proof.
  intros [[-> ->]|(s & n & e & Hf & Hc & He & Hr)]
         [[E0 ->]|(s' & n' & e' & Hf' & Hc' & He' & Hr')].
  - reflexivity.
  - exfalso. symmetry in Hr'. now apply SFval_nonzero in Hr'.
  - exfalso. subst r. now apply SFval_nonzero in E0.
  - apply Prim2SF_inj. rewrite Hf, Hf'. subst r.
    pose proof (canonical_digits n e Hc ltac:(lia)) as D.
    pose proof (canonical_digits n' e' Hc' ltac:(lia)) as D'.
    destruct (normal_unique s n e s' n' e' D D' Hr') as (-> & -> & ->).
    reflexivity.
Qed.

Lemma exactly_ext f r r' : exactly f r -> r = r' -> exactly f r'.
Proof. now intros H <-. Qed.

Lemma dyadic53_form r :
  dyadic53 r -> r <> 0%R ->
  exists s n e, canonical_mantissa prec emax n e = true /\ -1074 < e <= 971
                /\ r = F64.SFval s n e.
Proof.
  intros (N & E & HN & HE & ->) Hr.
  assert (N <> 0) by (intros ->; apply Hr; lra).
  destruct (representable N E) as (n & e & Hc & He & Hv); try assumption; try lia.
  exists (N <? 0), n, e. split; [assumption|]. split; [lia|exact Hv].
Qed.

Lemma dyadic53_intro M E :
  Z.abs M <= 2 ^ 53 -> -1021 <= E <= 918 -> dyadic53 (IZR M * powerRZ 2 E).
Proof.
  intros HM HE. change (2 ^ 53) with 9007199254740992 in HM.
  destruct (Z.eq_dec (Z.abs M) 9007199254740992) as [Heq|Hne].
  - exists (Z.sgn M), (E + 53). split; [|split; [lia|]].
    + change (2 ^ 53) with 9007199254740992. lia.
    + rewrite powerRZ_2_add, (powerRZ_2_nonneg 53) by lia.
      change (2 ^ 53) with 9007199254740992.
      assert (HMs : M = Z.sgn M * 9007199254740992) by lia.
      rewrite HMs at 1. rewrite mult_IZR. ring.
  - exists M, E. split; [|split; [lia|reflexivity]].
    change (2 ^ 53) with 9007199254740992. lia.
Qed.

Lemma exactly_finite f s n e r :
  Prim2SF f = S754_finite s n e ->
  canonical_mantissa prec emax n e = true -> -1074 < e <= 971 ->
  r = F64.SFval s n e -> exactly f r.
Proof. intros. right. exists s, n, e. auto. Qed.

Lemma exactly_zero f : Prim2SF f = S754_zero false -> exactly f 0.
Proof.
  intros H. left. split; [reflexivity|]. apply Prim2SF_inj. rewrite H. reflexivity.
Qed.

(** A result with a given finite form, known to be a 53-bit dyadic. *)
Lemma exactly_of_form f s n e r :
  Prim2SF f = F64.overflow_or s n e ->
  Zpos (digits2_pos n) = 53 ->
  r = F64.SFval s n e -> dyadic53 r -> exactly f r.
Proof.
  intros Hf Hd Hr Hdy.
  destruct (dyadic53_form r Hdy) as (s' & n' & e' & Hc' & He' & Hr').
  { subst r. apply SFval_nonzero. }
  pose proof (canonical_digits n' e' Hc' ltac:(lia)) as D'.
  assert (Hv : F64.SFval s n e = F64.SFval s' n' e') by congruence.
  destruct (normal_unique s n e s' n' e' Hd D' Hv) as (-> & -> & ->).
  rewrite overflow_or_finite in Hf by lia.
  now apply (exactly_finite f s' n' e').
Qed.

Lemma exactly_of_int x : dyadic53 (IZR x) -> exactly (F64.of_int x) (IZR x).
Proof.
  intros Hdy. destruct (Z.eq_dec x 0) as [->|Hx].
  - apply exactly_zero. reflexivity.
  - destruct (dyadic53_form _ Hdy) as (s & n & e & Hc & He & Hr).
    { now apply not_0_IZR. }
    assert (Hs : s = (x <? 0)).
    { pose proof (SFval_sign s n e) as S. rewrite <- Hr in S.
      destruct s, (Z.ltb_spec x 0); try reflexivity.
      - apply lt_IZR in S. lia.
      - apply lt_IZR in S. lia. }
    subst s.
    apply (exactly_finite _ (x <? 0) n e); try assumption.
    apply of_int_exact; (assumption || lia).
Qed.

Lemma add_exact sx mx ex sy my ey s n e :
  canonical_mantissa prec emax n e = true -> e <= 971 ->
  (F64.SFval sx mx ex + F64.SFval sy my ey = F64.SFval s n e)%R ->
  SF64add (S754_finite sx mx ex) (S754_finite sy my ey) = S754_finite s n e.
Proof.
  intros Hc He Hv. unfold SF64add, SFadd.
  apply normalize_exact; try assumption.
  rewrite plus_IZR, Rmult_plus_distr_r.
  rewrite !aligned_value by lia. exact Hv.
Qed.

Lemma add_cancel sx mx ex sy my ey :
  (F64.SFval sx mx ex + F64.SFval sy my ey = 0)%R ->
  SF64add (S754_finite sx mx ex) (S754_finite sy my ey) = S754_zero false.
Proof.
  intros Hv. unfold SF64add, SFadd.
  set (ez := Z.min ex ey).
  assert (H0 : cond_Zopp sx (Zpos (fst (shl_align mx ex ez)))
               + cond_Zopp sy (Zpos (fst (shl_align my ey ez))) = 0).
  { apply eq_IZR.
    apply Rmult_eq_reg_r with (powerRZ 2 ez);
      [|apply Rgt_not_eq, Rlt_gt, powerRZ_2_pos].
    rewrite plus_IZR, Rmult_plus_distr_r.
    rewrite !aligned_value by (unfold ez; lia). lra. }
  rewrite H0. reflexivity.
Qed.

Lemma exactly_add a b va vb :
  exactly a va -> exactly b vb -> dyadic53 (va + vb)%R ->
  exactly (a + b)%float (va + vb)%R.
Proof.
  intros [[-> ->]|(sa & na & ea & Ha & Ca & Ea & ->)]
         [[-> ->]|(sb & nb & eb & Hb & Cb & Eb & ->)] Hdy.
  - apply (exactly_ext _ 0%R); [|lra]. apply exactly_zero. reflexivity.
  - apply (exactly_finite _ sb nb eb); try assumption; [|lra].
    rewrite add_spec, Hb. reflexivity.
  - apply (exactly_finite _ sa na ea); try assumption; [|lra].
    rewrite add_spec, Ha. reflexivity.
  - destruct (Req_dec (F64.SFval sa na ea + F64.SFval sb nb eb) 0) as [H0|H0].
    + rewrite H0. apply exactly_zero. rewrite add_spec, Ha, Hb. now apply add_cancel.
    + destruct (dyadic53_form _ Hdy H0) as (s & n & e & Hc & He & Hr).
      apply (exactly_finite _ s n e); try assumption.
      rewrite add_spec, Ha, Hb. apply add_exact; (assumption || lia).
Qed.

Lemma exactly_sub a b va vb :
  exactly a va -> exactly b vb -> dyadic53 (va - vb)%R ->
  exactly (a - b)%float (va - vb)%R.
Proof.
  intros [[-> ->]|(sa & na & ea & Ha & Ca & Ea & ->)]
         [[-> ->]|(sb & nb & eb & Hb & Cb & Eb & ->)] Hdy.
  - apply (exactly_ext _ 0%R); [|lra]. apply exactly_zero. reflexivity.
  - apply (exactly_finite _ (negb sb) nb eb); try assumption.
    + rewrite sub_spec, Hb. reflexivity.
    + unfold F64.SFval. destruct sb; cbn [negb]; lra.
  - apply (exactly_finite _ sa na ea); try assumption; [|lra].
    rewrite sub_spec, Ha. reflexivity.
  - destruct (Req_dec (F64.SFval sa na ea - F64.SFval sb nb eb) 0) as [H0|H0].
    + rewrite H0. apply exactly_zero. rewrite sub_spec, Ha, Hb.
      apply sub_cancel. lra.
    + destruct (dyadic53_form _ Hdy H0) as (s & n & e & Hc & He & Hr).
      apply (exactly_finite _ s n e); try assumption.
      rewrite sub_spec, Ha, Hb. apply sub_exact; (assumption || lia).
Qed.

(** The exponent a dyadic value of the normal range leaves to a 53-bit
    mantissa. *)
Lemma dyadic53_exponent s n x :
  Zpos (digits2_pos n) = 53 -> dyadic53 (F64.SFval s n x) -> -1074 < x <= 971.
Proof.
  intros Hd Hdy.
  destruct (dyadic53_form _ Hdy (SFval_nonzero _ _ _)) as (s' & n' & e' & Hc' & He' & Hr').
  pose proof (canonical_digits n' e' Hc' ltac:(lia)) as D'.
  destruct (normal_unique s n x s' n' e' Hd D' Hr') as (_ & _ & ->). lia.
Qed.

Lemma exactly_mul_pow2 a va p j :
  exactly a va -> Prim2SF p = S754_finite false F64.two52 (j - 52) ->
  dyadic53 (va * powerRZ 2 j)%R ->
  exactly (a * p)%float (va * powerRZ 2 j)%R.
Proof.
  intros [[-> ->]|(s & n & e & Ha & Ca & Ea & ->)] Hp Hdy.
  - apply (exactly_ext _ 0%R); [|lra]. apply exactly_zero.
    rewrite mul_spec, Hp. reflexivity.
  - pose proof (canonical_digits n e Ca ltac:(lia)) as Hd.
    rewrite <- SFval_shift in Hdy |- *.
    pose proof (dyadic53_exponent s n (e + j) Hd Hdy) as Hej.
    apply (exactly_finite _ s n (e + j)); try lia; try reflexivity.
    + rewrite mul_spec, Ha, Hp, mul_pow2_exact by (assumption || lia).
      apply overflow_or_finite. lia.
    + apply canonical_normal; lia.
Qed.

Lemma exactly_div_pow2 a va p k :
  exactly a va -> Prim2SF p = S754_finite false F64.two52 (k - 52) ->
  dyadic53 (va * powerRZ 2 (- k))%R ->
  exactly (a / p)%float (va * powerRZ 2 (- k))%R.
Proof.
  intros [[-> ->]|(s & n & e & Ha & Ca & Ea & ->)] Hp Hdy.
  - apply (exactly_ext _ 0%R); [|lra]. apply exactly_zero.
    rewrite div_spec, Hp. reflexivity.
  - pose proof (canonical_digits n e Ca ltac:(lia)) as Hd.
    rewrite <- SFval_shift in Hdy |- *.
    pose proof (dyadic53_exponent s n (e + - k) Hd Hdy) as Hej.
    apply (exactly_finite _ s n (e + - k)); try lia; try reflexivity.
    + rewrite div_spec, Ha, Hp, div_pow2_exact by (assumption || lia).
      reflexivity.
    + apply canonical_normal; lia.
Qed.

(** The only binary64 with the value [2^k]. *)
Lemma exactly_pow2_form f k :
  exactly f (powerRZ 2 k) -> Prim2SF f = S754_finite false F64.two52 (k - 52).
Proof.
  intros [[H0 _]|(s & n & e & Hf & Hc & He & Hr)].
  - pose proof (powerRZ_2_pos k). lra.
  - assert (Hv : F64.SFval s n e = F64.SFval false F64.two52 (k - 52)).
    { rewrite <- Hr. unfold F64.SFval.
      replace k with (52 + (k - 52)) at 1 by lia.
      rewrite powerRZ_2_add, (powerRZ_2_nonneg 52) by lia. reflexivity. }
    assert (D2 : Zpos (digits2_pos F64.two52) = 53) by reflexivity.
    destruct (normal_unique _ _ _ _ _ _ (canonical_digits n e Hc ltac:(lia))
                D2 Hv) as (-> & -> & ->).
    exact Hf.
Qed.

End ExactResults.

(** ** The tile pyramid *)

Section TileGeometry.
Local Open Scope Z_scope.
Variables Cos Sin : float -> float.
Variable Noise4 : float -> float -> float -> float -> float.

Lemma dyadic53_of M E r :
  Z.abs M <= 2 ^ 53 -> -1021 <= E <= 918 -> r = (IZR M * powerRZ 2 E)%R ->
  dyadic53 r.
Proof. intros HM HE ->. now apply dyadic53_intro. Qed.

Lemma exactly_half : exactly 0.5%float (1 / 2)%R.
Proof.
  apply (exactly_finite _ false F64.two52 (-53)); try reflexivity; try lia.
  symmetry. apply SFval_half.
Qed.

Lemma pow2_inv z : 0 <= z -> (powerRZ 2 (- z) * IZR (2 ^ z) = 1)%R.
Proof.
  intros Hz. rewrite powerRZ_2_opp by lia. field.
  apply not_0_IZR. pose proof (Z.pow_pos_nonneg 2 z). lia.
Qed.

(** A corner coordinate is computed without any rounding, and a corner at
    the centre of the world is [+0]. *)
Lemma axisCoord_exact x z :
  0 <= z <= 53 -> 0 <= x <= 2 ^ z ->
  exactly (F64.axisCoord x z) (4 * (IZR x / IZR (2 ^ z) - 1 / 2))%R.
Proof.
  intros Hz Hx.
  assert (Hle : 2 ^ z <= 2 ^ 53) by (apply Z.pow_le_mono_r; lia).
  assert (Hpos : 0 < 2 ^ z) by (apply Z.pow_pos_nonneg; lia).
  pose proof (pow2_inv z ltac:(lia)) as Hinv.
  assert (HP : (0 < IZR (2 ^ z))%R) by (apply IZR_lt; lia).
  assert (E1 : exactly (F64.of_int x) (IZR x)).
  { apply exactly_of_int. apply (dyadic53_of x 0); try lia.
    cbn [powerRZ]. ring. }
  assert (E2 : exactly (F64.of_int x / F64.of_int (2 ^ z))%float
                       (IZR x * powerRZ 2 (- z))%R).
  { apply exactly_div_pow2; [exact E1|apply of_int_pow2; lia|].
    apply (dyadic53_of x (- z)); try lia. reflexivity. }
  assert (E3 : exactly (F64.of_int x / F64.of_int (2 ^ z) - 0.5)%float
                       (IZR x * powerRZ 2 (- z) - 1 / 2)%R).
  { apply exactly_sub; [exact E2|exact exactly_half|].
    apply (dyadic53_of (2 * x - 2 ^ z) (- z + -1)); try lia.
    rewrite powerRZ_2_add, minus_IZR, mult_IZR.
    change (powerRZ 2 (-1)) with (/ (2 * 1))%R.
    set (P := IZR (2 ^ z)) in *. set (Q := powerRZ 2 (- z)) in *.
    replace ((2 * IZR x - P) * (Q * / (2 * 1)))%R
      with (IZR x * Q - (Q * P) / 2)%R by (field; lra).
    rewrite Hinv. lra. }
  assert (E4 : exactly (F64.axisCoord x z)
                       ((IZR x * powerRZ 2 (- z) - 1 / 2) * powerRZ 2 2)%R).
  { unfold F64.axisCoord. apply exactly_mul_pow2; [exact E3|reflexivity|].
    apply (dyadic53_of (2 * x - 2 ^ z) (- z + 1)); try lia.
    rewrite powerRZ_2_add, minus_IZR, mult_IZR.
    change (powerRZ 2 1) with (2 * 1)%R. change (powerRZ 2 2) with (2 * (2 * 1))%R.
    set (P := IZR (2 ^ z)) in *. set (Q := powerRZ 2 (- z)) in *.
    replace ((2 * IZR x - P) * (Q * (2 * 1)))%R
      with ((IZR x * Q - (Q * P) / 2) * 4)%R by (field; lra).
    rewrite Hinv. lra. }
  apply (exactly_ext _ _ _ E4).
  rewrite powerRZ_2_opp by lia. change (powerRZ 2 2) with (2 * (2 * 1))%R.
  unfold Rdiv. ring.
Qed.

(** The corner of an index at zoom [z] is bit for bit the corner of the
    index [2^k] times as large, [k] levels down. *)
Lemma axisCoord_refine x z k :
  0 <= z -> 0 <= k -> z + k <= 53 -> 0 <= x <= 2 ^ z ->
  F64.axisCoord (2 ^ k * x) (z + k) = F64.axisCoord x z.
Proof.
  intros Hz Hk Hzk Hx.
  assert (Hpz : 0 < 2 ^ z) by (apply Z.pow_pos_nonneg; lia).
  assert (Hpk : 0 < 2 ^ k) by (apply Z.pow_pos_nonneg; lia).
  apply (exactly_inj _ _ (4 * (IZR x / IZR (2 ^ z) - 1 / 2))%R).
  - apply (exactly_ext _ (4 * (IZR (2 ^ k * x) / IZR (2 ^ (z + k)) - 1 / 2))%R).
    + apply axisCoord_exact; [lia|]. rewrite Z.pow_add_r by lia. nia.
    + rewrite Z.pow_add_r, !mult_IZR by lia. field.
      split; apply not_0_IZR; lia.
  - apply axisCoord_exact; lia.
Qed.

(** X5: the tile pyramid is exact up to zoom 53.  [k] levels below a
    tile, the descendant at its first column and row has the same min corner
    as the tile, bit for bit, and the descendant at its last column and row
    has the same max corner: the [2^k] by [2^k] descendants cover the extent
    of the tile and nothing else. *)
Theorem tileExtent_descendants (c : TileCoords) (k : Z) :
  validTileCoords c -> 0 <= k -> coordZ c + k <= 53 ->
  Min (tileExtent (mkTileCoords (coordZ c + k) (2 ^ k * coordX c) (2 ^ k * coordY c)))
  = Min (tileExtent c)
  /\ Max (tileExtent (mkTileCoords (coordZ c + k) (2 ^ k * (coordX c + 1) - 1)
                                   (2 ^ k * (coordY c + 1) - 1)))
     = Max (tileExtent c).
Proof.
  intros (Hz & Hx & Hy) Hk Hzk.
  assert (Hpk : 0 < 2 ^ k) by (apply Z.pow_pos_nonneg; lia).
  assert (Hp : 2 ^ (coordZ c + k) = 2 ^ k * 2 ^ coordZ c)
    by (rewrite Z.pow_add_r by lia; lia).
  rewrite (tileExtent_axes c) by lia.
  rewrite !tileExtent_axes by (cbn [coordZ coordX coordY]; nia).
  cbn [coordZ coordX coordY Min Max].
  replace (2 ^ k * (coordX c + 1) - 1 + 1) with (2 ^ k * (coordX c + 1)) by lia.
  replace (2 ^ k * (coordY c + 1) - 1 + 1) with (2 ^ k * (coordY c + 1)) by lia.
  rewrite !axisCoord_refine by lia. split; reflexivity.
Qed.

Lemma axis_span_exact x z :
  0 <= z <= 53 -> 0 <= x < 2 ^ z ->
  exactly (F64.axisCoord (x + 1) z - F64.axisCoord x z)%float (powerRZ 2 (2 - z)).
Proof.
  intros Hz Hx.
  assert (Hpos : 0 < 2 ^ z) by (apply Z.pow_pos_nonneg; lia).
  assert (HP : (0 < IZR (2 ^ z))%R) by (apply IZR_lt; lia).
  assert (Hq : (4 * (IZR (x + 1) / IZR (2 ^ z) - 1 / 2)
                - 4 * (IZR x / IZR (2 ^ z) - 1 / 2))%R = powerRZ 2 (2 - z)).
  { replace (2 - z) with (2 + - z) by lia.
    rewrite powerRZ_2_add, powerRZ_2_opp, plus_IZR by lia.
    change (powerRZ 2 2) with (2 * (2 * 1))%R. field. apply Rgt_not_eq, HP. }
  rewrite <- Hq.
  apply exactly_sub; try (apply axisCoord_exact; lia).
  rewrite Hq. apply (dyadic53_of 1 (2 - z)); try lia. ring.
Qed.

(** X6: up to zoom 53 the extent of a valid tile is a square: the x span
    and the y span are the same [float64].  [renderTile] advances the y
    coordinate by the x span; on these tiles that is the y span. *)
Theorem tileExtent_square (c : TileCoords) :
  validTileCoords c -> coordZ c <= 53 ->
  (X (Max (tileExtent c)) - X (Min (tileExtent c))
   = Y (Max (tileExtent c)) - Y (Min (tileExtent c)))%float.
Proof.
  intros (Hz & Hx & Hy) Hz'.
  rewrite (tileExtent_axes c) by lia. cbn [Min Max X Y].
  apply (exactly_inj _ _ (powerRZ 2 (2 - coordZ c))); apply axis_span_exact; lia.
Qed.

(** The sample position of pixel [p] on one axis: the corner of index
    [256 y + p], eight levels down. *)
Lemma pixel_axis x y z p :
  0 <= z <= 45 -> 0 <= x < 2 ^ z -> 0 <= y < 2 ^ z -> 0 <= p < 256 ->
  (F64.axisCoord y z
   + (F64.axisCoord (x + 1) z - F64.axisCoord x z) * F64.of_int p / 256)%float
  = F64.axisCoord (256 * y + p) (z + 8).
Proof.
  intros Hz Hx Hy Hp.
  assert (Hpos : 0 < 2 ^ z) by (apply Z.pow_pos_nonneg; lia).
  assert (Hle : 2 ^ z <= 2 ^ 45) by (apply Z.pow_le_mono_r; lia).
  change (2 ^ 45) with 35184372088832 in Hle.
  assert (HP : (0 < IZR (2 ^ z))%R) by (apply IZR_lt; lia).
  assert (Hz8 : 2 ^ (z + 8) = 256 * 2 ^ z)
    by (rewrite Z.pow_add_r by lia; change (2 ^ 8) with 256; lia).
  pose proof (pow2_inv z ltac:(lia)) as Hinv.
  pose proof (axis_span_exact x z ltac:(lia) ltac:(lia)) as Es.
  pose proof (exactly_pow2_form _ _ Es) as Fs.
  assert (Ep : exactly (F64.of_int p) (IZR p)).
  { apply exactly_of_int. apply (dyadic53_of p 0); try lia.
    cbn [powerRZ]. ring. }
  assert (E1 : exactly ((F64.axisCoord (x + 1) z - F64.axisCoord x z)
                        * F64.of_int p)%float (IZR p * powerRZ 2 (2 - z))%R).
  { rewrite float_mul_comm. apply exactly_mul_pow2; [exact Ep|exact Fs|].
    apply (dyadic53_of p (2 - z)); try lia. reflexivity. }
  assert (E2 : exactly ((F64.axisCoord (x + 1) z - F64.axisCoord x z)
                        * F64.of_int p / 256)%float
                       (IZR p * powerRZ 2 (2 - z) * powerRZ 2 (- 8))%R).
  { apply (exactly_div_pow2 _ _ 256%float 8); [exact E1|reflexivity|].
    change (Z.opp 8) with (-8).
    apply (dyadic53_of p (2 - z + - 8)); try lia.
    rewrite powerRZ_2_add. ring. }
  pose proof (axisCoord_exact y z ltac:(lia) ltac:(lia)) as Ey.
  apply (exactly_inj _ _ (4 * (IZR (256 * y + p) / IZR (2 ^ (z + 8)) - 1 / 2))%R);
    [|apply axisCoord_exact; lia].
  assert (Hr : (4 * (IZR y / IZR (2 ^ z) - 1 / 2)
                + IZR p * powerRZ 2 (2 - z) * powerRZ 2 (- 8))%R
               = (4 * (IZR (256 * y + p) / IZR (2 ^ (z + 8)) - 1 / 2))%R).
  { rewrite Hz8, plus_IZR, !mult_IZR.
    replace (2 - z) with (2 + - z) by lia.
    rewrite powerRZ_2_add, powerRZ_2_opp by lia.
    change (powerRZ 2 2) with (2 * (2 * 1))%R.
    rewrite (powerRZ_2_neg 8). change (2 ^ 8) with 256. field. apply Rgt_not_eq, HP. }
  rewrite <- Hr. apply exactly_add; [exact Ey|exact E2|].
  rewrite Hr.
  apply (dyadic53_of (256 * y + p - 2 ^ (z + 7)) (- z + - 6)).
  - assert (2 ^ (z + 7) = 128 * 2 ^ z)
      by (rewrite Z.pow_add_r by lia; change (2 ^ 7) with 128; lia).
    change (2 ^ 53) with 9007199254740992. lia.
  - lia.
  - rewrite Hz8, minus_IZR, plus_IZR, !mult_IZR.
    replace (2 ^ (z + 7)) with (128 * 2 ^ z)
      by (rewrite Z.pow_add_r by lia; change (2 ^ 7) with 128; lia).
    rewrite mult_IZR, powerRZ_2_add, powerRZ_2_opp by lia.
    rewrite (powerRZ_2_neg 6). change (2 ^ 6) with 64. field. apply Rgt_not_eq, HP.
Qed.

Lemma renderTile_at (coords : TileCoords) (px py : nat) :
  (px < 256)%nat -> (py < 256)%nat ->
  RGBAAt (renderTile Cos Sin Noise4 coords) px py
  = colouriseByValue
      (simplexTorus Cos Sin Noise4 (pixelPoint (tileExtent coords) px py) coords).
Proof.
  intros Hx Hy. rewrite renderTile_paint.
  rewrite (paintRows_pixel _ tileSize tileSize)
    by (try apply NewRGBA_sized; unfold tileSize; lia).
  unfold tileSize.
  destruct (Nat.leb_spec 0 py), (Nat.ltb_spec py (0 + 256)); try lia.
  reflexivity.
Qed.

(** X7: up to zoom 45 the pixel grid of a tile is the tile grid eight
    levels down, without any rounding: pixel ([px], [py]) of the tile
    ([z], [x], [y]) is coloured by the elevation, at zoom [z], of the min
    corner of the tile ([z + 8], [256 x + px], [256 y + py]). *)
Theorem renderTile_samples_eight_levels_down (coords : TileCoords) (px py : nat) :
  validTileCoords coords -> coordZ coords <= 45 ->
  (px < 256)%nat -> (py < 256)%nat ->
  RGBAAt (renderTile Cos Sin Noise4 coords) px py
  = colouriseByValue
      (simplexTorus Cos Sin Noise4
         (Min (tileExtent (mkTileCoords (coordZ coords + 8)
                             (256 * coordX coords + Z.of_nat px)
                             (256 * coordY coords + Z.of_nat py))))
         coords).
Proof.
  intros (Hz & Hx & Hy) Hz' Hpx Hpy.
  rewrite renderTile_at by assumption. do 2 f_equal.
  assert (Hz8 : 2 ^ (coordZ coords + 8) = 256 * 2 ^ coordZ coords)
    by (rewrite Z.pow_add_r by lia; change (2 ^ 8) with 256; lia).
  unfold pixelPoint.
  rewrite (tileExtent_axes coords) by lia.
  rewrite tileExtent_axes by (cbn [coordZ coordX coordY]; lia).
  cbn [coordZ coordX coordY Min Max X Y].
  rewrite !pixel_axis by lia. reflexivity.
Qed.

Lemma div_by_zero_not_finite (a : float) :
  F64.value ((a / 0 - 0.5) * 4)%float = None.
Proof.
  unfold F64.value. rewrite mul_spec, sub_spec, div_spec.
  change (Prim2SF 0%float) with (S754_zero false).
  change (Prim2SF 0.5%float) with (S754_finite false F64.two52 (-53)).
  change (Prim2SF 4%float) with (S754_finite false F64.two52 (-50)).
  destruct (Prim2SF a) as [[|]|[|]| |[|] m e]; reflexivity.
Qed.

(** X8: a zoom level outside 0..63 is no error for [tileExtent]: the
    shift [1 << uint(z)] is 0, the divisions by [float64(0)] give infinities
    or NaN, and no coordinate of the extent is a finite number. *)
Theorem tileExtent_not_finite_outside_shift_range (coords : TileCoords) :
  GoInt.min_int <= coordZ coords <= GoInt.max_int ->
  ~ 0 <= coordZ coords <= 63 ->
  F64.value (X (Min (tileExtent coords))) = None
  /\ F64.value (Y (Min (tileExtent coords))) = None
  /\ F64.value (X (Max (tileExtent coords))) = None
  /\ F64.value (Y (Max (tileExtent coords))) = None.
Proof.
  intros Hr Hz.
  assert (Hs : GoInt.ushl 1 (GoInt.to_uint (coordZ coords)) = 0).
  { unfold GoInt.ushl, GoInt.to_uint, GoInt.wrap_uint, GoInt.min_int, GoInt.max_int in *.
    change (2 ^ 63) with 9223372036854775808 in Hr.
    change (2 ^ 64) with 18446744073709551616.
    destruct (Z.ltb_spec (coordZ coords mod 18446744073709551616) 64) as [Hlt|];
      [exfalso|reflexivity].
    destruct (Z_lt_le_dec (coordZ coords) 0).
    - rewrite <- (Z.mod_add _ 1) in Hlt by lia. rewrite Z.mod_small in Hlt; lia.
    - rewrite Z.mod_small in Hlt; lia. }
  unfold tileExtent. rewrite Hs. cbn [Min Max Sub Scale X Y].
  change (F64.of_int 0) with 0%float.
  repeat split; apply div_by_zero_not_finite.
Qed.

Lemma axisCoord_inj x x' z :
  0 <= z <= 53 -> 0 <= x <= 2 ^ z -> 0 <= x' <= 2 ^ z ->
  F64.axisCoord x z = F64.axisCoord x' z -> x = x'.
Proof.
  intros Hz Hx Hx' Heq.
  pose proof (exactly_value _ _ (axisCoord_exact x z Hz Hx)) as V.
  pose proof (exactly_value _ _ (axisCoord_exact x' z Hz Hx')) as V'.
  rewrite Heq, V' in V. injection V as V.
  assert (HP : (0 < IZR (2 ^ z))%R) by (apply IZR_lt, Z.pow_pos_nonneg; lia).
  apply eq_IZR. set (P := IZR (2 ^ z)) in *.
  assert (Hq : (IZR x' * / P = IZR x * / P)%R) by (unfold Rdiv in V; lra).
  apply Rmult_eq_reg_r in Hq; [congruence|].
  apply Rinv_neq_0_compat, Rgt_not_eq, HP.
Qed.

(** X9: up to zoom 53 no two tiles have the same extent: the width of
    the extent gives the zoom level back and its min corner the column and
    the row. *)
Theorem tileExtent_injective (c c' : TileCoords) :
  validTileCoords c -> validTileCoords c' ->
  coordZ c <= 53 -> coordZ c' <= 53 ->
  tileExtent c = tileExtent c' -> c = c'.
Proof.
  intros (Hz & Hx & Hy) (Hz' & Hx' & Hy') Hz53 Hz53' Heq.
  rewrite (tileExtent_axes c), (tileExtent_axes c') in Heq by lia.
  injection Heq as Hminx Hminy Hmaxx Hmaxy.
  pose proof (exactly_pow2_form _ _
                (axis_span_exact (coordX c) (coordZ c) ltac:(lia) ltac:(lia))) as F.
  pose proof (exactly_pow2_form _ _
                (axis_span_exact (coordX c') (coordZ c') ltac:(lia) ltac:(lia))) as F'.
  rewrite Hminx, Hmaxx, F' in F.
  assert (Ee : 2 - coordZ c' - 52 = 2 - coordZ c - 52) by congruence.
  assert (Ez : coordZ c = coordZ c') by lia. clear F F' Ee.
  rewrite <- Ez in *.
  apply axisCoord_inj in Hminx; try lia.
  apply axisCoord_inj in Hminy; try lia.
  destruct c, c'. cbn [coordZ coordX coordY] in *. congruence.
Qed.

(** X10: at every zoom level up to 53 the tiles cover the world square
    [-2, 2] x [-2, 2] and end on its border: the first column starts at
    exactly -2 and the last column ends at exactly 2, and so do the first and
    the last row. *)
Theorem tileExtent_world_border (c : TileCoords) :
  validTileCoords c -> coordZ c <= 53 ->
  (coordX c = 0 -> X (Min (tileExtent c)) = (-2)%float)
  /\ (coordX c = 2 ^ coordZ c - 1 -> X (Max (tileExtent c)) = 2%float)
  /\ (coordY c = 0 -> Y (Min (tileExtent c)) = (-2)%float)
  /\ (coordY c = 2 ^ coordZ c - 1 -> Y (Max (tileExtent c)) = 2%float).
Proof.
  intros (Hz & Hx & Hy) Hz53.
  rewrite (tileExtent_axes c) by lia. cbn [Min Max X Y].
  assert (Hlo : F64.axisCoord 0 (coordZ c) = (-2)%float).
  { pose proof (axisCoord_refine 0 0 (coordZ c)) as H.
    rewrite Z.mul_0_r, Z.add_0_l in H. now rewrite H by lia. }
  assert (Hhi : F64.axisCoord (2 ^ coordZ c) (coordZ c) = 2%float).
  { pose proof (axisCoord_refine 1 0 (coordZ c)) as H.
    rewrite Z.mul_1_r, Z.add_0_l in H. now rewrite H by lia. }
  repeat split; intros ->; rewrite ?Z.sub_add; assumption.
Qed.

End TileGeometry.

(** ** Octaves and zoom levels *)

Section ZoomFacts.
Local Open Scope float_scope.
Variables Cos Sin : float -> float.
Variable Noise4 : float -> float -> float -> float -> float.

(** X11: one zoom level further in, the elevation at a point is the
    elevation of the level before plus one more octave, the octave
    [z + 17]: the octaves a tile shares with its parent are computed and
    added alike, so a zoom level only adds detail. *)
Theorem simplexTorus_next_zoom (c : Vector) (z x y x' y' : Z) :
  (-16 <= z)%Z -> (z + 17 < GoInt.max_int)%Z ->
  simplexTorus Cos Sin Noise4 c (mkTileCoords (z + 1) x' y')
  = simplexTorus Cos Sin Noise4 c (mkTileCoords z x y)
    + octave Cos Sin Noise4 c (Z.to_nat (z + 17)).
Proof.
  intros Hlo Hhi. unfold simplexTorus, GoInt.add. cbn [coordZ].
  rewrite !wrap_int_small
    by (revert Hlo Hhi; unfold GoInt.min_int, GoInt.max_int;
        change (2 ^ 63)%Z with 9223372036854775808%Z; lia).
  replace (Z.to_nat (z + 1 + 16)) with (S (Z.to_nat (z + 16))) by lia.
  change 1 with (pow2 0). rewrite !torusLoop_octaves.
  rewrite seq_S, fold_left_app. cbn [fold_left].
  replace (1 + Z.to_nat (z + 16))%nat with (Z.to_nat (z + 17)) by lia.
  reflexivity.
Qed.

End ZoomFacts.

(** ** Pixels of a rendered tile *)

Section PixelFacts.
Local Open Scope Z_scope.
Variables Cos Sin : float -> float.
Variable Noise4 : float -> float -> float -> float -> float.

Lemma to_uint8_byte (f : float) : 0 <= F64.to_uint8 f < 256.
Proof.
  unfold F64.to_uint8. destruct (F64.trunc f); [apply Z.mod_pos_bound|]; lia.
Qed.

Lemma colouriseByValue_opaque (value : float) : opaqueColour (colouriseByValue value).
Proof.
  unfold colouriseByValue, opaqueColour.
  destruct (value <? -0.1)%float; [|destruct (value <? 0.2)%float;
    [|destruct (value <? 0.201)%float; [|destruct (value <? 0.40)%float;
      [|destruct (value <? 0.60)%float; [|destruct (value <? 0.90)%float;
        [|destruct (value <? 1.2)%float]]]]]];
    cbn [chR chG chB chA];
    (split; [apply to_uint8_byte|split; [apply to_uint8_byte|
      split; [apply to_uint8_byte|reflexivity]]]).
Qed.

(** X14: whatever the noise primitive returns (infinities and NaN
    included), every pixel inside the 256 by 256 rectangle of a rendered
    tile holds three bytes and full opacity, and a read outside the
    rectangle gives the zero colour. *)
Theorem renderTile_opaque (coords : TileCoords) (px py : nat) :
  if (px <? 256)%nat && (py <? 256)%nat
  then opaqueColour (RGBAAt (renderTile Cos Sin Noise4 coords) px py)
  else RGBAAt (renderTile Cos Sin Noise4 coords) px py = mkRGBA 0 0 0 0.
Proof.
  destruct (Nat.ltb_spec px 256) as [Hx|Hx]; cbn [andb];
    [destruct (Nat.ltb_spec py 256) as [Hy|Hy]|].
  - rewrite (renderTile_at Cos Sin Noise4) by assumption.
    apply colouriseByValue_opaque.
  - rewrite renderTile_paint.
    pose proof (paintRows_sized
                  (fun x y => colouriseByValue
                     (simplexTorus Cos Sin Noise4
                        (pixelPoint (tileExtent coords) x y) coords))
                  tileSize tileSize 0 tileSize _
                  (NewRGBA_sized tileSize tileSize)) as (Hw & Hh & _).
    unfold RGBAAt, in_bounds. rewrite Hw, Hh. unfold tileSize.
    destruct (Nat.ltb_spec py 256); [lia|]. now rewrite andb_false_r.
  - rewrite renderTile_paint.
    pose proof (paintRows_sized
                  (fun x y => colouriseByValue
                     (simplexTorus Cos Sin Noise4
                        (pixelPoint (tileExtent coords) x y) coords))
                  tileSize tileSize 0 tileSize _
                  (NewRGBA_sized tileSize tileSize)) as (Hw & Hh & _).
    unfold RGBAAt, in_bounds. rewrite Hw, Hh. unfold tileSize.
    destruct (Nat.ltb_spec px 256); [lia|]. reflexivity.
Qed.

End PixelFacts.

(** ** Edge cases of the HSL helper *)

Section HSLFacts.

(** X15: a NaN hue is not caught by the parameter check, which only
    compares: with a saturation and a lightness that pass their checks,
    [hslToRGB] reaches the default branch of its switch and panics there. *)
Theorem hslToRGB_nan_hue (saturation lightness : float) :
  (saturation <? 0)%float = false -> (1 <? saturation)%float = false ->
  (lightness <? 0)%float = false -> (1 <? lightness)%float = false ->
  hslToRGB nan saturation lightness = Panics PanicSwitchDefault.
Proof.
  intros H1 H2 H3 H4. unfold hslToRGB.
  change (nan <? 0)%float with false. change (360 <? nan)%float with false.
  rewrite H1, H2, H3, H4. cbn [orb].
  change (nan / 60)%float with nan.
  change (nan <=? 1)%float with false. change (nan <=? 2)%float with false.
  change (nan <=? 3)%float with false. change (nan <=? 4)%float with false.
  change (nan <=? 5)%float with false. change (nan <=? 6)%float with false.
  reflexivity.
Qed.

End HSLFacts.

(** ** The escape loop of [mandelbrot] *)

Section MandelbrotFacts.
Local Open Scope float_scope.
Variable Log : float -> float.

Lemma add_nan_r (a : float) : a + nan = nan.
Proof.
  apply Prim2SF_inj. rewrite add_spec. change (Prim2SF nan) with S754_nan.
  destruct (Prim2SF a) as [[|]|[|]| |s m e]; reflexivity.
Qed.

Lemma add_nan_l (a : float) : nan + a = nan.
Proof.
  apply Prim2SF_inj. rewrite add_spec. change (Prim2SF nan) with S754_nan.
  reflexivity.
Qed.

Lemma sub_nan_r (a : float) : a - nan = nan.
Proof.
  apply Prim2SF_inj. rewrite sub_spec. change (Prim2SF nan) with S754_nan.
  destruct (Prim2SF a) as [[|]|[|]| |s m e]; reflexivity.
Qed.

Lemma sub_nan_l (a : float) : nan - a = nan.
Proof.
  apply Prim2SF_inj. rewrite sub_spec. change (Prim2SF nan) with S754_nan.
  reflexivity.
Qed.

Lemma mul_nan_r (a : float) : a * nan = nan.
Proof.
  apply Prim2SF_inj. rewrite mul_spec. change (Prim2SF nan) with S754_nan.
  destruct (Prim2SF a) as [[|]|[|]| |s m e]; reflexivity.
Qed.

Lemma mul_nan_l (a : float) : nan * a = nan.
Proof.
  apply Prim2SF_inj. rewrite mul_spec. change (Prim2SF nan) with S754_nan.
  reflexivity.
Qed.

Lemma iterate_nan (c z : Vector) :
  X c = nan \/ Y c = nan -> X (iterate c z) = nan \/ Y (iterate c z) = nan.
Proof.
  unfold iterate. cbn [X Y].
  intros [-> | ->]; [left|right]; apply add_nan_r.
Qed.

Lemma modulus_nan (z : Vector) :
  X z = nan \/ Y z = nan -> (4 <? X z * X z + Y z * Y z) = false.
Proof.
  intros [-> | ->].
  - now rewrite mul_nan_l, add_nan_l.
  - now rewrite mul_nan_l, add_nan_r.
Qed.

Lemma mandelbrotLoop_nan (n : nat) (c z : Vector) (i : Z) :
  X c = nan \/ Y c = nan -> mandelbrotLoop Log n c z i = 0.
Proof.
  intros Hc. revert z i. induction n as [|n IH]; intros z i; cbn [mandelbrotLoop].
  - reflexivity.
  - cbv zeta. rewrite (modulus_nan _ (iterate_nan c z Hc)). apply IH.
Qed.

(** X19: a point with a NaN coordinate never passes the escape test,
    which only compares: [mandelbrot] runs all of its rounds and returns 0,
    the value of a point of the set. *)
Theorem mandelbrot_nan (c : Vector) :
  X c = nan \/ Y c = nan -> mandelbrot Log c = 0.
Proof. intros Hc. unfold mandelbrot. now apply mandelbrotLoop_nan. Qed.

End MandelbrotFacts.

(** ** Vector arithmetic *)

Section VectorFacts.
Local Open Scope float_scope.

Lemma float_sub_zero (x : float) : x - 0 = x.
Proof.
  apply Prim2SF_inj. rewrite sub_spec.
  change (Prim2SF 0) with (S754_zero false).
  destruct (Prim2SF x) as [[|]|[|]| |s m e]; reflexivity.
Qed.

Lemma float_mul_one (x : float) : x * 1 = x.
Proof.
  apply Prim2SF_inj. rewrite mul_spec.
  change (Prim2SF 1) with (S754_finite false F64.two52 (0 - 52)).
  pose proof (Prim2SF_valid x) as V.
  destruct (Prim2SF x) as [[|]|[|]| |s m e]; try reflexivity.
  unfold SpecFloat.valid_binary, SpecFloat.bounded in V.
  apply andb_true_iff in V. destruct V as [Hc He%Z.leb_le].
  change (emax - prec)%Z with 971%Z in He.
  unfold SF64mul, SFmul. rewrite xorb_false_r.
  assert (Hm : (m * F64.two52)%positive = Pos.iter xO m 52).
  { apply Pos2Z.inj. rewrite pos_iter_xO, Pos2Z.inj_mul. reflexivity. }
  rewrite Hm. replace (e + (0 - 52))%Z with (e - Zpos 52)%Z by lia.
  rewrite bra_exact_shifted by assumption.
  now apply overflow_or_finite.
Qed.

Lemma float_sub_self (x : float) (r : R) : F64.has_value x r -> x - x = 0.
Proof.
  unfold F64.has_value, F64.value. intros H.
  apply Prim2SF_inj. rewrite sub_spec.
  change (Prim2SF 0) with (S754_zero false).
  destruct (Prim2SF x) as [[|]|[|]| |s m e]; try discriminate; try reflexivity.
  now apply sub_cancel.
Qed.

(** X21: the identities of the vector helpers on every [float64], NaN,
    infinities and both zeros included: subtracting the zero vector and
    scaling by 1 change nothing; a vector of finite coordinates minus itself
    is the zero vector, with both coordinates [+0]. *)
Theorem vector_identities (v : Vector) :
  Sub v (mkVector 0 0) = v
  /\ Scale v 1 = v
  /\ (forall rx ry, F64.has_value (X v) rx -> F64.has_value (Y v) ry ->
        Sub v v = mkVector 0 0).
Proof.
  destruct v as [x y]. unfold Sub, Scale. cbn [X Y].
  split; [|split].
  - now rewrite !float_sub_zero.
  - now rewrite !float_mul_one.
  - intros rx ry Hx Hy.
    now rewrite (float_sub_self x rx Hx), (float_sub_self y ry Hy).
Qed.

End VectorFacts.

(** ** Rounding: how far a result is from the exact one *)

Section Rounding.
Local Open Scope Z_scope.

Lemma shr_1_m (r : shr_record) :
  0 <= shr_m r -> shr_m (shr_1 r) = shr_m r / 2 /\ 0 <= shr_m (shr_1 r).
Proof.
  destruct r as [m rb sb]. cbn [shr_m]. intros Hm. unfold shr_1.
  destruct m as [|[p|p|]|p]; cbn [shr_m]; try lia;
    (split; [|lia]).
  - apply Z.div_unique with 0; lia.
  - change (Zpos p~1) with (2 * Zpos p + 1). apply Z.div_unique with 1; lia.
  - change (Zpos p~0) with (2 * Zpos p). apply Z.div_unique with 0; lia.
  - apply Z.div_unique with 1; lia.
Qed.

Lemma iter_shr_m (p : positive) (r : shr_record) :
  0 <= shr_m r ->
  shr_m (SpecFloat.iter_pos shr_1 p r) = shr_m r / 2 ^ Zpos p
  /\ 0 <= shr_m (SpecFloat.iter_pos shr_1 p r).
Proof.
  revert r. induction p as [p IH|p IH|]; intros r Hr; cbn [SpecFloat.iter_pos].
  - destruct (shr_1_m r Hr) as [E1 P1].
    destruct (IH _ P1) as [E2 P2]. destruct (IH _ P2) as [E3 P3].
    split; [|exact P3]. rewrite E3, E2, E1.
    rewrite !Z.div_div by (try apply Z.pow_pos_nonneg; lia).
    f_equal. replace (Zpos p~1) with (1 + (Zpos p + Zpos p)) by lia.
    rewrite !Z.pow_add_r by lia. change (2 ^ 1) with 2. ring.
  - destruct (IH _ Hr) as [E2 P2]. destruct (IH _ P2) as [E3 P3].
    split; [|exact P3]. rewrite E3, E2.
    rewrite !Z.div_div by (try apply Z.pow_pos_nonneg; lia).
    f_equal. replace (Zpos p~0) with (Zpos p + Zpos p) by lia.
    rewrite !Z.pow_add_r by lia. ring.
  - change (2 ^ 1) with 2. now apply shr_1_m.
Qed.

Lemma round_nearest_even_range m l :
  m <= round_nearest_even m l <= m + 1.
Proof.
  unfold round_nearest_even. destruct l as [|[| |]]; try lia.
  destruct (Z.even m); lia.
Qed.

Lemma fexp_eq e : fexp prec emax e = Z.max (e - 53) (-1074).
Proof. reflexivity. Qed.

Lemma pos_lt_pow2_digits (m : positive) : Zpos m < 2 ^ Zpos (digits2_pos m).
Proof.
  rewrite digits2_pos_size. pose proof (Pos.size_gt m) as H.
  rewrite <- Pos2Z.inj_pow. lia.
Qed.

Lemma pos_ge_pow2_digits (m : positive) : 2 ^ (Zpos (digits2_pos m) - 1) <= Zpos m.
Proof.
  rewrite digits2_pos_size. pose proof (Pos.size_le m) as H.
  assert (H' : 2 ^ Zpos (Pos.size m) <= 2 * Zpos m).
  { rewrite <- Pos2Z.inj_pow. change (2 * Zpos m) with (Zpos m~0). lia. }
  replace (Zpos (Pos.size m)) with (1 + (Zpos (Pos.size m) - 1)) in H' by lia.
  rewrite Z.pow_add_r in H' by lia. change (2 ^ 1) with 2 in H'. lia.
Qed.

(** Rounding a positive mantissa: the result stands for one of the two
    multiples of [2^e'] around the number, [e'] being the exponent the
    format gives it. *)
Lemma bra_approx (sx : bool) (mx : positive) (ex : Z) :
  let e' := fexp prec emax (Zpos (digits2_pos mx) + ex) in
  ex <= e' -> e' <= 970 ->
  exists m1,
    Zpos mx / 2 ^ (e' - ex) <= m1 <= Zpos mx / 2 ^ (e' - ex) + 1
    /\ SFreal (binary_round_aux prec emax sx (Zpos mx) ex loc_Exact)
       = Some (signR sx * IZR m1 * powerRZ 2 e')%R.
Proof.
  intros e' Hle Hhi.
  assert (Hemin : -1074 <= e') by (unfold e'; rewrite fexp_eq; lia).
  assert (HD : Zpos (digits2_pos mx) + ex - 53 <= e') by (unfold e'; rewrite fexp_eq; lia).
  set (n := e' - ex). assert (Hn : 0 <= n) by (unfold n; lia).
  set (m0 := Zpos mx / 2 ^ n).
  assert (Hm0 : 0 <= m0 < 2 ^ 53).
  { unfold m0. split; [apply Z.div_pos; [lia|apply Z.pow_pos_nonneg; lia]|].
    apply Z.div_lt_upper_bound; [apply Z.pow_pos_nonneg; lia|].
    rewrite <- Z.pow_add_r by lia.
    pose proof (pos_lt_pow2_digits mx) as Hd.
    assert (2 ^ Zpos (digits2_pos mx) <= 2 ^ (n + 53))
      by (apply Z.pow_le_mono_r; unfold n; lia).
    lia. }
  (* the first shift *)
  assert (H1 : exists mrs,
             shr_fexp prec emax (Zpos mx) ex loc_Exact = (mrs, e')
             /\ shr_m mrs = m0).
  { unfold shr_fexp. cbn [Zdigits2 shr_record_of_loc]. fold e'. fold n.
    unfold shr. destruct n as [|p|p] eqn:En; try lia.
    - eexists. split; [f_equal; unfold n in En; lia|].
      cbn [shr_m]. unfold m0. now rewrite Z.div_1_r.
    - eexists. split; [f_equal; unfold n in En; lia|].
      apply iter_shr_m. cbn [shr_m]. lia. }
  destruct H1 as (mrs & E1 & Em).
  unfold binary_round_aux. rewrite E1.
  set (m1 := round_nearest_even (shr_m mrs) (loc_of_shr_record mrs)).
  pose proof (round_nearest_even_range (shr_m mrs) (loc_of_shr_record mrs)) as Hr.
  fold m1 in Hr. rewrite Em in Hr.
  exists m1. split; [exact Hr|].
  change (2 ^ 53) with 9007199254740992 in Hm0.
  destruct (Z.eq_dec m1 9007199254740992) as [E53|N53].
  - rewrite E53. unfold shr_fexp.
    change (Zdigits2 9007199254740992) with 54. rewrite fexp_eq.
    replace (Z.max (54 + e' - 53) (-1074) - e') with 1 by lia.
    cbn [shr shr_record_of_loc SpecFloat.iter_pos shr_1 shr_m].
    change (emax - prec) with 971.
    replace (e' + 1 <=? 971) with true by (symmetry; apply Z.leb_le; lia).
    cbn [SFreal]. f_equal. unfold F64.SFval, signR.
    rewrite powerRZ_2_add. change (powerRZ 2 1) with (2 * 1)%R.
    destruct sx; lra.
  - destruct m1 as [|k|k] eqn:Ek; try lia.
    + unfold shr_fexp. cbn [Zdigits2]. rewrite fexp_eq.
      unfold shr. destruct (Z.max (0 + e' - 53) (-1074) - e') eqn:Es; try lia;
        cbn [shr_record_of_loc shr_m SFreal]; f_equal; lra.
    + assert (Hk : Zpos (digits2_pos k) <= 53) by (apply digits2_pos_le; lia).
      unfold shr_fexp. cbn [Zdigits2]. rewrite fexp_eq.
      unfold shr.
      destruct (Z.max (Zpos (digits2_pos k) + e' - 53) (-1074) - e') eqn:Es; try lia;
        cbn [shr_record_of_loc shr_m]; change (emax - prec) with 971;
        replace (e' <=? 971) with true by (symmetry; apply Z.leb_le; lia);
        cbn [SFreal]; f_equal; unfold F64.SFval, signR; destruct sx; lra.
Qed.

Lemma powerRZ_2_le a b : a <= b -> (powerRZ 2 a <= powerRZ 2 b)%R.
Proof.
  intros H. replace b with (a + (b - a)) by lia.
  rewrite powerRZ_2_add, (powerRZ_2_nonneg (b - a)) by lia.
  assert (Hk : (1 <= IZR (2 ^ (b - a)))%R).
  { apply (IZR_le 1). pose proof (Z.pow_pos_nonneg 2 (b - a)). lia. }
  pose proof (powerRZ_2_pos a). set (P := powerRZ 2 a) in *.
  set (K := IZR (2 ^ (b - a))) in *. nra.
Qed.

Lemma powerRZ_2_le_inv a b : (powerRZ 2 a <= powerRZ 2 b)%R -> a <= b.
Proof.
  intros H. destruct (Z_le_gt_dec a b) as [|Hgt]; [assumption|exfalso].
  assert (Hlt : (powerRZ 2 b < powerRZ 2 a)%R).
  { replace a with (b + (a - b)) by lia. rewrite powerRZ_2_add.
    rewrite (powerRZ_2_nonneg (a - b)) by lia.
    assert (1 < 2 ^ (a - b)).
    { rewrite <- (Z.pow_0_r 2). apply Z.pow_lt_mono_r; lia. }
    assert (Hk : (1 < IZR (2 ^ (a - b)))%R) by (apply (IZR_lt 1); lia).
    pose proof (powerRZ_2_pos b). set (P := powerRZ 2 b) in *.
    set (K := IZR (2 ^ (a - b))) in *. nra. }
  lra.
Qed.

(** The exponent the format gives a number below [2^K] in magnitude. *)
Lemma fexp_of_magnitude (m : positive) (E K : Z) :
  (IZR (Zpos m) * powerRZ 2 E <= powerRZ 2 K)%R ->
  fexp prec emax (Zpos (digits2_pos m) + E) <= Z.max (K - 52) (-1074).
Proof.
  intros H. rewrite fexp_eq.
  pose proof (pos_ge_pow2_digits m) as Hd. apply IZR_le in Hd.
  rewrite <- powerRZ_2_nonneg in Hd
    by (pose proof (Pos2Z.is_pos (digits2_pos m)); lia).
  assert (Hle : (powerRZ 2 (Zpos (digits2_pos m) - 1 + E) <= powerRZ 2 K)%R).
  { rewrite powerRZ_2_add. pose proof (powerRZ_2_pos E).
    set (A := powerRZ 2 (Zpos (digits2_pos m) - 1)) in *.
    set (B := powerRZ 2 E) in *. set (C := IZR (Zpos m)) in *. nra. }
  apply powerRZ_2_le_inv in Hle. lia.
Qed.

Lemma scaled_distance (m m1 n : Z) (E : Z) :
  0 <= n -> 0 < m ->
  m / 2 ^ n <= m1 <= m / 2 ^ n + 1 ->
  (Rabs (IZR m1 * powerRZ 2 (E + n) - IZR m * powerRZ 2 E) <= powerRZ 2 (E + n))%R.
Proof.
  intros Hn Hm H1.
  assert (Hp : 0 < 2 ^ n) by (apply Z.pow_pos_nonneg; lia).
  pose proof (Z.mul_div_le m (2 ^ n) Hp) as Hlo.
  pose proof (Z.mul_succ_div_gt m (2 ^ n) Hp) as Hhi.
  assert (Hz : - 2 ^ n <= m1 * 2 ^ n - m <= 2 ^ n) by nia.
  rewrite powerRZ_2_add, (powerRZ_2_nonneg n) by lia.
  replace (IZR m1 * (powerRZ 2 E * IZR (2 ^ n)) - IZR m * powerRZ 2 E)%R
    with (IZR (m1 * 2 ^ n - m) * powerRZ 2 E)%R
    by (rewrite minus_IZR, mult_IZR; ring).
  pose proof (powerRZ_2_pos E) as HE.
  destruct Hz as [Hz1 Hz2]. apply IZR_le in Hz1, Hz2. rewrite opp_IZR in Hz1.
  set (T := IZR (m1 * 2 ^ n - m)) in *. set (P := IZR (2 ^ n)) in *.
  set (Q := powerRZ 2 E) in *.
  apply Rabs_le. split; nra.
Qed.

(** Rounding [m * 2^E]: the result is within [2^e'] of the number, and has
    its sign. *)
Lemma round_approx (sx : bool) (m : positive) (E : Z) :
  let e' := fexp prec emax (Zpos (digits2_pos m) + E) in
  e' <= 970 ->
  exists v,
    SFreal (binary_round prec emax sx m E) = Some (signR sx * v)%R
    /\ (0 <= v)%R
    /\ (Rabs (v - IZR (Zpos m) * powerRZ 2 E) <= powerRZ 2 e')%R.
Proof.
  intros e' Hhi. unfold binary_round. fold e'. unfold shl_align.
  destruct (e' - E) as [|d|d] eqn:Ed.
  - destruct (bra_approx sx m E) as (m1 & Hm1 & Hv); fold e'; try lia.
    fold e' in Hm1, Hv. rewrite Hv.
    exists (IZR m1 * powerRZ 2 e')%R. split; [f_equal; ring|].
    assert (H0 : 0 <= m1).
    { assert (0 <= Zpos m / 2 ^ (e' - E))
        by (apply Z.div_pos; [lia|apply Z.pow_pos_nonneg; lia]). lia. }
    split.
    + apply Rmult_le_pos; [apply IZR_le; lia|apply Rlt_le, powerRZ_2_pos].
    + replace e' with (E + (e' - E)) at 1 2 by lia.
      apply scaled_distance; lia.
  - destruct (bra_approx sx m E) as (m1 & Hm1 & Hv); fold e'; try lia.
    fold e' in Hm1, Hv. rewrite Hv.
    exists (IZR m1 * powerRZ 2 e')%R. split; [f_equal; ring|].
    assert (H0 : 0 <= m1).
    { assert (0 <= Zpos m / 2 ^ (e' - E))
        by (apply Z.div_pos; [lia|apply Z.pow_pos_nonneg; lia]). lia. }
    split.
    + apply Rmult_le_pos; [apply IZR_le; lia|apply Rlt_le, powerRZ_2_pos].
    + replace e' with (E + (e' - E)) at 1 2 by lia.
      apply scaled_distance; lia.
  - (* the mantissa is shifted left first *)
    assert (Hdig : Zpos (digits2_pos (Pos.iter xO m d)) + e' = Zpos (digits2_pos m) + E).
    { rewrite digits2_pos_shift. lia. }
    destruct (bra_approx sx (Pos.iter xO m d) e') as (m1 & Hm1 & Hv);
      rewrite ?Hdig; fold e'; try lia.
    rewrite Hdig in Hm1, Hv. fold e' in Hm1, Hv. rewrite Hv.
    rewrite Z.sub_diag in Hm1. change (2 ^ 0) with 1 in Hm1.
    rewrite Z.div_1_r in Hm1.
    exists (IZR m1 * powerRZ 2 e')%R. split; [f_equal; ring|].
    split.
    + apply Rmult_le_pos; [apply IZR_le; lia|apply Rlt_le, powerRZ_2_pos].
    + assert (Hx : (IZR (Zpos m) * powerRZ 2 E
                    = IZR (Zpos (Pos.iter xO m d)) * powerRZ 2 e')%R).
      { rewrite pos_iter_xO, mult_IZR.
        replace E with (e' + Zpos d) by lia.
        rewrite powerRZ_2_add, (powerRZ_2_nonneg (Zpos d)) by lia. ring. }
      rewrite Hx.
      replace (IZR m1 * powerRZ 2 e' - IZR (Zpos (Pos.iter xO m d)) * powerRZ 2 e')%R
        with (IZR (m1 - Zpos (Pos.iter xO m d)) * powerRZ 2 e')%R
        by (rewrite minus_IZR; ring).
      pose proof (powerRZ_2_pos e') as HE.
      assert (Hz1 : (0 <= IZR (m1 - Zpos (Pos.iter xO m d)))%R) by (apply IZR_le; lia).
      assert (Hz2 : (IZR (m1 - Zpos (Pos.iter xO m d)) <= 1)%R) by (apply IZR_le; lia).
      set (T := IZR (m1 - Zpos (Pos.iter xO m d))) in *.
      set (Q := powerRZ 2 e') in *.
      apply Rabs_le. split; nra.
Qed.

Lemma value_SFreal (f : float) : F64.value f = SFreal (Prim2SF f).
Proof. reflexivity. Qed.

Lemma near_exact (f : float) (v d : R) :
  F64.value f = Some v -> (0 <= d)%R -> near f v d.
Proof.
  intros Hv Hd. exists v. split; [exact Hv|]. split; [|auto].
  replace (v - v)%R with 0%R by ring. now rewrite Rabs_R0.
Qed.

Lemma normalize_approx (M E K : Z) :
  (Rabs (IZR M * powerRZ 2 E) <= powerRZ 2 K)%R -> K <= 1022 ->
  exists v,
    SFreal (binary_normalize prec emax M E false) = Some v
    /\ (Rabs (v - IZR M * powerRZ 2 E) <= powerRZ 2 (Z.max (K - 52) (-1074)))%R
    /\ (0 <= IZR M * powerRZ 2 E -> 0 <= v)%R.
Proof.
  intros Hm HK. pose proof (powerRZ_2_pos E) as HE.
  destruct M as [|m|m]; cbn [binary_normalize].
  - exists 0%R. split; [reflexivity|]. split; [|lra].
    replace (0 - 0 * powerRZ 2 E)%R with 0%R by ring. rewrite Rabs_R0.
    apply Rlt_le, powerRZ_2_pos.
  - assert (Hpos : (0 < IZR (Zpos m) * powerRZ 2 E)%R) by apply SFval_pos.
    rewrite Rabs_pos_eq in Hm by lra.
    pose proof (fexp_of_magnitude m E K Hm) as He.
    destruct (round_approx false m E) as (v & Hv & Hv0 & Hd); [lia|].
    exists v. split; [rewrite Hv; f_equal; unfold signR; ring|].
    split; [|intros _; exact Hv0].
    eapply Rle_trans; [exact Hd|]. apply powerRZ_2_le. exact He.
  - assert (Hpos : (0 < IZR (Zpos m) * powerRZ 2 E)%R) by apply SFval_pos.
    change (Zneg m) with (- Zpos m) in *. rewrite opp_IZR in *.
    replace (- IZR (Zpos m) * powerRZ 2 E)%R
      with (- (IZR (Zpos m) * powerRZ 2 E))%R in * by ring.
    rewrite Rabs_Ropp, Rabs_pos_eq in Hm by lra.
    pose proof (fexp_of_magnitude m E K Hm) as He.
    destruct (round_approx true m E) as (v & Hv & Hv0 & Hd); [lia|].
    exists (- v)%R. split; [rewrite Hv; f_equal; unfold signR; ring|].
    split; [|intros; lra].
    replace (- v - - (IZR (Zpos m) * powerRZ 2 E))%R
      with (- (v - IZR (Zpos m) * powerRZ 2 E))%R by ring.
    rewrite Rabs_Ropp.
    eapply Rle_trans; [exact Hd|]. apply powerRZ_2_le. exact He.
Qed.

Lemma near_zero_sum (f : float) (r : R) (K : Z) :
  F64.value f = Some r -> near f r (powerRZ 2 (Z.max (K - 52) (-1074))).
Proof. intros H. apply near_exact; [exact H|apply Rlt_le, powerRZ_2_pos]. Qed.

(** An addition of finite floats is within [2^(K-52)] of the sum, for a sum
    of magnitude up to [2^K]. *)
Lemma add_approx (a b : float) (va vb : R) (K : Z) :
  F64.value a = Some va -> F64.value b = Some vb ->
  (Rabs (va + vb) <= powerRZ 2 K)%R -> K <= 1022 ->
  near (a + b) (va + vb) (powerRZ 2 (Z.max (K - 52) (-1074))).
Proof.
  intros Ha Hb Hm HK.
  assert (Hd0 : (0 <= powerRZ 2 (Z.max (K - 52) (-1074)))%R)
    by apply Rlt_le, powerRZ_2_pos.
  unfold near. rewrite value_SFreal, add_spec. rewrite value_SFreal in Ha, Hb.
  destruct (Prim2SF a) as [sa|sa| |sa ma ea]; try discriminate;
    destruct (Prim2SF b) as [sb|sb| |sb mb eb]; try discriminate;
    cbn [SFreal] in Ha, Hb; injection Ha as <-; injection Hb as <-.
  - exists 0%R. split; [destruct sa, sb; reflexivity|].
    split; [|lra]. replace (0 - (0 + 0))%R with 0%R by ring. now rewrite Rabs_R0.
  - exists (F64.SFval sb mb eb). split; [reflexivity|].
    split; [|intros; lra].
    replace (F64.SFval sb mb eb - (0 + F64.SFval sb mb eb))%R with 0%R by ring.
    now rewrite Rabs_R0.
  - exists (F64.SFval sa ma ea). split; [reflexivity|].
    split; [|intros; lra].
    replace (F64.SFval sa ma ea - (F64.SFval sa ma ea + 0))%R with 0%R by ring.
    now rewrite Rabs_R0.
  - unfold SF64add, SFadd.
    set (M := cond_Zopp sa (Zpos (fst (shl_align ma ea (Z.min ea eb))))
              + cond_Zopp sb (Zpos (fst (shl_align mb eb (Z.min ea eb))))).
    assert (HM : (IZR M * powerRZ 2 (Z.min ea eb)
                  = F64.SFval sa ma ea + F64.SFval sb mb eb)%R).
    { unfold M. rewrite plus_IZR, Rmult_plus_distr_r.
      now rewrite !aligned_value by lia. }
    rewrite <- HM in *. now apply normalize_approx.
Qed.

Lemma sub_approx (a b : float) (va vb : R) (K : Z) :
  F64.value a = Some va -> F64.value b = Some vb ->
  (Rabs (va - vb) <= powerRZ 2 K)%R -> K <= 1022 ->
  near (a - b) (va - vb) (powerRZ 2 (Z.max (K - 52) (-1074))).
Proof.
  intros Ha Hb Hm HK.
  assert (Hd0 : (0 <= powerRZ 2 (Z.max (K - 52) (-1074)))%R)
    by apply Rlt_le, powerRZ_2_pos.
  unfold near. rewrite value_SFreal, sub_spec. rewrite value_SFreal in Ha, Hb.
  destruct (Prim2SF a) as [sa|sa| |sa ma ea]; try discriminate;
    destruct (Prim2SF b) as [sb|sb| |sb mb eb]; try discriminate;
    cbn [SFreal] in Ha, Hb; injection Ha as <-; injection Hb as <-.
  - exists 0%R. split; [destruct sa, sb; reflexivity|].
    split; [|lra]. replace (0 - (0 - 0))%R with 0%R by ring. now rewrite Rabs_R0.
  - exists (F64.SFval (negb sb) mb eb). split; [reflexivity|].
    assert (E : F64.SFval (negb sb) mb eb = (0 - F64.SFval sb mb eb)%R)
      by (unfold F64.SFval; destruct sb; cbn [negb]; ring).
    rewrite E. split; [|intros; lra].
    replace (0 - F64.SFval sb mb eb - (0 - F64.SFval sb mb eb))%R with 0%R by ring.
    now rewrite Rabs_R0.
  - exists (F64.SFval sa ma ea). split; [reflexivity|].
    split; [|intros; lra].
    replace (F64.SFval sa ma ea - (F64.SFval sa ma ea - 0))%R with 0%R by ring.
    now rewrite Rabs_R0.
  - unfold SF64sub, SFsub.
    set (M := cond_Zopp sa (Zpos (fst (shl_align ma ea (Z.min ea eb))))
              - cond_Zopp sb (Zpos (fst (shl_align mb eb (Z.min ea eb))))).
    assert (HM : (IZR M * powerRZ 2 (Z.min ea eb)
                  = F64.SFval sa ma ea - F64.SFval sb mb eb)%R).
    { unfold M. rewrite minus_IZR, Rmult_minus_distr_r.
      now rewrite !aligned_value by lia. }
    rewrite <- HM in *. now apply normalize_approx.
Qed.

Lemma canonical_of_valid (s : bool) (m : positive) (e : Z) :
  valid_binary (S754_finite s m e) = true ->
  canonical_mantissa prec emax m e = true /\ e <= 971.
Proof.
  unfold SpecFloat.valid_binary, SpecFloat.bounded. intros V.
  apply andb_true_iff in V. destruct V as [Hc He%Z.leb_le]. auto.
Qed.

Lemma digits_ge_of_bound (m : positive) (k : Z) :
  2 ^ (k - 1) <= Zpos m -> k <= Zpos (digits2_pos m).
Proof.
  intros H. pose proof (pos_lt_pow2_digits m) as Hd.
  destruct (Z_le_gt_dec k (Zpos (digits2_pos m))) as [|Hgt]; [assumption|exfalso].
  assert (2 ^ Zpos (digits2_pos m) <= 2 ^ (k - 1)) by (apply Z.pow_le_mono_r; lia).
  lia.
Qed.

(** The product of two valid mantissas never has to be shifted left. *)
Lemma mul_exponent_ok (mx my : positive) (ex ey : Z) :
  canonical_mantissa prec emax mx ex = true ->
  canonical_mantissa prec emax my ey = true ->
  ex + ey <= fexp prec emax (Zpos (digits2_pos (mx * my)) + (ex + ey)).
Proof.
  intros Cx Cy. rewrite fexp_eq.
  assert (Hx : Zpos (digits2_pos mx) = 53 \/ ex = -1074).
  { unfold canonical_mantissa in Cx. rewrite fexp_eq in Cx.
    apply Z.eqb_eq in Cx. lia. }
  assert (Hy : Zpos (digits2_pos my) = 53 \/ ey = -1074).
  { unfold canonical_mantissa in Cy. rewrite fexp_eq in Cy.
    apply Z.eqb_eq in Cy. lia. }
  destruct (canonical_emin _ _ Cx) as [Ex Dx], (canonical_emin _ _ Cy) as [Ey Dy].
  assert (Hbig : forall m m' : positive,
             Zpos (digits2_pos m) = 53 -> 53 <= Zpos (digits2_pos (m * m'))).
  { intros m m' Hd. apply digits_ge_of_bound.
    pose proof (pos_ge_pow2_digits m) as Hm. rewrite Hd in Hm.
    rewrite Pos2Z.inj_mul. change (53 - 1) with 52 in *.
    change (2 ^ 52) with 4503599627370496 in *. nia. }
  destruct Hx as [Hx|Hx].
  - pose proof (Hbig mx my Hx). lia.
  - destruct Hy as [Hy|Hy].
    + pose proof (Hbig my mx Hy) as H. rewrite Pos.mul_comm in H. lia.
    + lia.
Qed.

Lemma signR_xorb (a b : bool) : signR (xorb a b) = (signR a * signR b)%R.
Proof. destruct a, b; unfold signR; cbn [xorb]; ring. Qed.

Lemma SFval_signR s m e : F64.SFval s m e = (signR s * (IZR (Zpos m) * powerRZ 2 e))%R.
Proof. unfold F64.SFval, signR. destruct s; ring. Qed.

(** A product of finite floats that are not negative is within [2^(K-52)]
    of the exact product, for a product up to [2^K]. *)
Lemma mul_approx (a b : float) (va vb : R) (K : Z) :
  F64.value a = Some va -> F64.value b = Some vb ->
  (0 <= va)%R -> (0 <= vb)%R ->
  (va * vb <= powerRZ 2 K)%R -> K <= 1022 ->
  near (a * b) (va * vb) (powerRZ 2 (Z.max (K - 52) (-1074))).
Proof.
  intros Ha Hb Pa Pb Hm HK.
  assert (Hd0 : (0 <= powerRZ 2 (Z.max (K - 52) (-1074)))%R)
    by apply Rlt_le, powerRZ_2_pos.
  unfold near. rewrite value_SFreal, mul_spec.
  pose proof (Prim2SF_valid a) as Va. pose proof (Prim2SF_valid b) as Vb.
  rewrite value_SFreal in Ha, Hb.
  destruct (Prim2SF a) as [sa|sa| |sa ma ea]; try discriminate;
    destruct (Prim2SF b) as [sb|sb| |sb mb eb]; try discriminate;
    cbn [SFreal] in Ha, Hb; injection Ha as <-; injection Hb as <-.
  - exists 0%R. split; [reflexivity|]. split; [|lra].
    replace (0 - 0 * 0)%R with 0%R by ring. now rewrite Rabs_R0.
  - exists 0%R. split; [reflexivity|]. split; [|lra].
    replace (0 - 0 * F64.SFval sb mb eb)%R with 0%R by ring. now rewrite Rabs_R0.
  - exists 0%R. split; [reflexivity|]. split; [|lra].
    replace (0 - F64.SFval sa ma ea * 0)%R with 0%R by ring. now rewrite Rabs_R0.
  - destruct (canonical_of_valid _ _ _ Va) as [Ca _].
    destruct (canonical_of_valid _ _ _ Vb) as [Cb _].
    pose proof (SFval_sign sa ma ea) as Sa. pose proof (SFval_sign sb mb eb) as Sb.
    destruct sa; [lra|]. destruct sb; [lra|]. cbn [xorb].
    unfold SF64mul, SFmul. cbn [xorb].
    assert (Hx : (F64.SFval false ma ea * F64.SFval false mb eb
                  = IZR (Zpos (ma * mb)) * powerRZ 2 (ea + eb))%R).
    { unfold F64.SFval. rewrite Pos2Z.inj_mul, mult_IZR, powerRZ_2_add. ring. }
    rewrite Hx in *.
    pose proof (mul_exponent_ok ma mb ea eb Ca Cb) as Hp.
    pose proof (fexp_of_magnitude (ma * mb) (ea + eb) K Hm) as He.
    destruct (bra_approx false (ma * mb) (ea + eb) Hp ltac:(lia)) as (m1 & Hm1 & Hv).
    rewrite Hv.
    set (e' := fexp prec emax (Zpos (digits2_pos (ma * mb)) + (ea + eb))) in *.
    assert (H0 : 0 <= m1).
    { assert (0 <= Zpos (ma * mb) / 2 ^ (e' - (ea + eb)))
        by (apply Z.div_pos; [lia|apply Z.pow_pos_nonneg; lia]). lia. }
    exists (IZR m1 * powerRZ 2 e')%R.
    split; [f_equal; unfold signR; ring|]. split.
    + eapply Rle_trans; [|apply powerRZ_2_le; exact He].
      replace e' with ((ea + eb) + (e' - (ea + eb))) at 1 2 by lia.
      apply scaled_distance; lia.
    + intros _. apply Rmult_le_pos; [apply IZR_le; lia|apply Rlt_le, powerRZ_2_pos].
Qed.

(** The integer part of a float from 0 up to, but not, 256 is a byte. *)
Lemma trunc_byte (f : float) (v : R) :
  F64.value f = Some v -> (0 <= v < 256)%R ->
  exists n, F64.trunc f = Some n /\ 0 <= n <= 255.
Proof.
  unfold F64.value, F64.trunc. intros Hv Hr.
  destruct (Prim2SF f) as [s|s| |s m e]; try discriminate; injection Hv as <-.
  - exists 0. split; [reflexivity|lia].
  - pose proof (SFval_sign s m e) as Hs. destruct s; [lra|].
    unfold F64.SFval in Hr. eexists. split; [reflexivity|].
    destruct (Z.leb_spec 0 e) as [He|He].
    + rewrite powerRZ_2_nonneg, <- mult_IZR in Hr by lia.
      destruct Hr as [_ Hr]. apply lt_IZR in Hr.
      assert (0 < 2 ^ e) by (apply Z.pow_pos_nonneg; lia). nia.
    + assert (Hp : 0 < 2 ^ (- e)) by (apply Z.pow_pos_nonneg; lia).
      split; [apply Z.div_pos; lia|].
      assert (Zpos m / 2 ^ (- e) < 256); [|lia].
      apply Z.div_lt_upper_bound; [exact Hp|].
      apply lt_IZR. rewrite mult_IZR.
      replace e with (- (- e)) in Hr by lia.
      rewrite powerRZ_2_opp in Hr by lia.
      assert (HP : (0 < IZR (2 ^ (- e)))%R) by (apply IZR_lt; exact Hp).
      set (P := IZR (2 ^ (- e))) in *. set (A := IZR (Zpos m)) in *.
      destruct Hr as [_ Hr].
      apply (Rmult_lt_compat_r P) in Hr; [|exact HP].
      replace (A * / P * P)%R with A in Hr by (field; lra). lra.
Qed.

(** The order of two valid magnitudes, as the comparison of floats
    computes it. *)
Lemma mag_compare_spec (ma mb : positive) (ea eb : Z) :
  canonical_mantissa prec emax ma ea = true ->
  canonical_mantissa prec emax mb eb = true ->
  match (match ea ?= eb with
         | Eq => (ma ?= mb)%positive
         | Lt => Lt
         | Gt => Gt
         end) with
  | Lt => (IZR (Zpos ma) * powerRZ 2 ea < IZR (Zpos mb) * powerRZ 2 eb)%R
  | Eq => (IZR (Zpos ma) * powerRZ 2 ea = IZR (Zpos mb) * powerRZ 2 eb)%R
  | Gt => (IZR (Zpos mb) * powerRZ 2 eb < IZR (Zpos ma) * powerRZ 2 ea)%R
  end.
Proof.
  intros Ca Cb. destruct (Z.compare_spec ea eb) as [Heq|Hc|Hc].
  - subst ea. pose proof (powerRZ_2_pos eb) as HP.
    destruct (Pos.compare_spec ma mb) as [Heq|Hm|Hm].
    + now subst ma.
    + apply Rmult_lt_compat_r; [exact HP|apply IZR_lt; lia].
    + apply Rmult_lt_compat_r; [exact HP|apply IZR_lt; lia].
  - now apply magnitude_lt_of_exponent.
  - now apply magnitude_lt_of_exponent.
Qed.

(** What [<] says about the value of its first argument. *)
Lemma ltb_true_value (a b : float) (vb : R) :
  (a <? b)%float = true -> F64.value b = Some vb ->
  Prim2SF a = S754_infinity true
  \/ exists va, F64.value a = Some va /\ (va < vb)%R.
Proof.
  rewrite ltb_spec. unfold F64.value. intros Hlt Hb.
  pose proof (Prim2SF_valid a) as Va. pose proof (Prim2SF_valid b) as Vb.
  destruct (Prim2SF b) as [sb|sb| |sb mb eb]; try discriminate; injection Hb as <-;
    destruct (Prim2SF a) as [sa|[|]| |sa ma ea]; try discriminate;
    try (left; reflexivity); right.
  - exists (F64.SFval sa ma ea). split; [reflexivity|].
    pose proof (SFval_sign sa ma ea). destruct sa; [lra|discriminate].
  - exists 0%R. split; [reflexivity|].
    pose proof (SFval_sign sb mb eb). destruct sb; [discriminate|lra].
  - exists (F64.SFval sa ma ea). split; [reflexivity|].
    destruct (canonical_of_valid _ _ _ Va) as [Ca _].
    destruct (canonical_of_valid _ _ _ Vb) as [Cb _].
    pose proof (SFval_sign sa ma ea) as Sa. pose proof (SFval_sign sb mb eb) as Sb.
    pose proof (mag_compare_spec ma mb ea eb Ca Cb) as Hc.
    unfold SFltb, SFcompare in Hlt.
    change (Pos.compare_cont Eq ma mb) with (Pos.compare ma mb) in Hlt.
    unfold F64.SFval in *.
    destruct sa, sb; try lra; try discriminate; revert Hlt Hc;
      destruct (ea ?= eb); try destruct (ma ?= mb)%positive;
      cbn [CompOpp]; intros Hlt Hc; try discriminate; lra.
Qed.

Lemma ltb_false_value (a b : float) (vb : R) :
  (a <? b)%float = false -> F64.value b = Some vb ->
  Prim2SF a = S754_nan \/ Prim2SF a = S754_infinity false
  \/ exists va, F64.value a = Some va /\ (vb <= va)%R.
Proof.
  rewrite ltb_spec. unfold F64.value. intros Hlt Hb.
  pose proof (Prim2SF_valid a) as Va. pose proof (Prim2SF_valid b) as Vb.
  destruct (Prim2SF b) as [sb|sb| |sb mb eb]; try discriminate; injection Hb as <-;
    destruct (Prim2SF a) as [sa|[|]| |sa ma ea]; try discriminate;
    try (left; reflexivity); try (right; left; reflexivity); right; right.
  - exists 0%R. split; [reflexivity|lra].
  - exists (F64.SFval sa ma ea). split; [reflexivity|].
    pose proof (SFval_sign sa ma ea). destruct sa; [discriminate|lra].
  - exists 0%R. split; [reflexivity|].
    pose proof (SFval_sign sb mb eb). destruct sb; [lra|discriminate].
  - exists (F64.SFval sa ma ea). split; [reflexivity|].
    destruct (canonical_of_valid _ _ _ Va) as [Ca _].
    destruct (canonical_of_valid _ _ _ Vb) as [Cb _].
    pose proof (SFval_sign sa ma ea) as Sa. pose proof (SFval_sign sb mb eb) as Sb.
    pose proof (mag_compare_spec ma mb ea eb Ca Cb) as Hc.
    unfold SFltb, SFcompare in Hlt.
    change (Pos.compare_cont Eq ma mb) with (Pos.compare ma mb) in Hlt.
    unfold F64.SFval in *.
    destruct sa, sb; try lra; try discriminate; revert Hlt Hc;
      destruct (ea ?= eb); try destruct (ma ?= mb)%positive;
      cbn [CompOpp]; intros Hlt Hc; try discriminate; lra.
Qed.

(** A float between two finite bounds, as [<] sees it, is finite and its
    value lies between theirs. *)
Lemma band_value (v lo hi : float) (vlo vhi : R) :
  (v <? lo)%float = false -> (v <? hi)%float = true ->
  F64.value lo = Some vlo -> F64.value hi = Some vhi ->
  exists va, F64.value v = Some va /\ (vlo <= va < vhi)%R.
Proof.
  intros Hlo Hhi Vlo Vhi.
  destruct (ltb_true_value v hi vhi Hhi Vhi) as [Hinf|(va & Hva & Hlt)];
    destruct (ltb_false_value v lo vlo Hlo Vlo) as [Hnan|[Hpinf|(va' & Hva' & Hle)]];
    try congruence.
  - unfold F64.value in Hva'. rewrite Hinf in Hva'. discriminate.
  - unfold F64.value in Hva. rewrite Hnan in Hva. discriminate.
  - unfold F64.value in Hva. rewrite Hpinf in Hva. discriminate.
  - exists va. split; [exact Hva|]. assert (va' = va) by congruence. subst. lra.
Qed.

End Rounding.

(** ** The palette stays within a byte *)

Section PaletteRange.
Local Open Scope R_scope.

Lemma Rabs_le_bounds (x a : R) : Rabs x <= a -> - a <= x <= a.
Proof. unfold Rabs. destruct (Rcase_abs x); lra. Qed.

Lemma delta_10 : powerRZ 2 (Z.max (10 - 52) (-1074)) = / 4398046511104.
Proof.
  change (Z.max (10 - 52) (-1074)) with (-42)%Z. rewrite powerRZ_2_neg.
  reflexivity.
Qed.

Lemma pow2_10 : powerRZ 2 10 = 1024.
Proof. rewrite powerRZ_2_nonneg by lia. reflexivity. Qed.

(** The last step of a channel: the product with 255 of a fraction that is
    at most a little above 1 converts to a byte. *)
Lemma channel_byte (t : float) (tv : R) :
  F64.value t = Some tv -> 0 <= tv <= 1 + 1 / 1000 ->
  exists n, byteOf (t * 255) n.
Proof.
  intros Ht Hb. float_const 255%float H255.
  destruct (mul_approx t 255 tv _ 10 Ht H255) as (u & Hu & Hd & Hs);
    try lia; try lra.
  { rewrite pow2_10. lra. }
  rewrite delta_10 in Hd. apply Rabs_le_bounds in Hd.
  destruct (trunc_byte (t * 255) u Hu) as (n & Hn & Hr).
  { split; [apply Hs; nra|]. lra. }
  exists n. split; assumption.
Qed.

(** A channel [c * d] with a constant factor. *)
Lemma channel_scaled (c d : float) (cv dv : R) :
  F64.value c = Some cv -> F64.value d = Some dv ->
  0 <= cv <= 512 -> 0 <= dv -> cv * dv <= 1 + 1 / 2000 ->
  exists n, byteOf (c * d * 255) n.
Proof.
  intros Hc Hd Hcv Hdv Hp.
  destruct (mul_approx c d cv dv 10 Hc Hd) as (t & Ht & Hdt & Hs);
    try lia; try lra.
  { rewrite pow2_10. lra. }
  rewrite delta_10 in Hdt. apply Rabs_le_bounds in Hdt.
  apply (channel_byte _ t Ht). split; [apply Hs; nra|lra].
Qed.

(** The difference [a - b] of two finite floats in the order [b <= a]. *)
Lemma difference_bounds (a b : float) (av bv : R) :
  F64.value a = Some av -> F64.value b = Some bv ->
  0 <= av - bv <= 2 ->
  exists dv, F64.value (a - b) = Some dv
             /\ 0 <= dv <= av - bv + / 4398046511104.
Proof.
  intros Ha Hb Hr.
  destruct (sub_approx a b av bv 10 Ha Hb) as (d & Hd & Hdd & Hs); try lia.
  { rewrite pow2_10. rewrite Rabs_pos_eq; lra. }
  rewrite delta_10 in Hdd. apply Rabs_le_bounds in Hdd.
  exists d. split; [exact Hd|]. split; [apply Hs; lra|lra].
Qed.

Lemma sum_bounds (a b : float) (av bv : R) :
  F64.value a = Some av -> F64.value b = Some bv ->
  0 <= av + bv <= 2 ->
  exists sv, F64.value (a + b) = Some sv
             /\ 0 <= sv <= av + bv + / 4398046511104.
Proof.
  intros Ha Hb Hr.
  destruct (add_approx a b av bv 10 Ha Hb) as (d & Hd & Hdd & Hs); try lia.
  { rewrite pow2_10. rewrite Rabs_pos_eq; lra. }
  rewrite delta_10 in Hdd. apply Rabs_le_bounds in Hdd.
  exists d. split; [exact Hd|]. split; [apply Hs; lra|lra].
Qed.

Lemma byteOf_const (f : float) (n : Z) :
  F64.trunc f = Some n -> (0 <=? n)%Z && (n <=? 255)%Z = true -> exists k, byteOf f k.
Proof.
  intros H Hb. apply andb_true_iff in Hb. destruct Hb as [H1 H2].
  apply Z.leb_le in H1, H2. exists n. split; [exact H|lia].
Qed.

(** In every band the three fractions convert to bytes. *)
Lemma paletteChannels_bytes (value : float) :
  (exists n, byteOf (fst (fst (paletteChannels value)) * 255) n)
  /\ (exists n, byteOf (snd (fst (paletteChannels value)) * 255) n)
  /\ (exists n, byteOf (snd (paletteChannels value) * 255) n).
Proof.
  unfold paletteChannels.
  float_const (-0.1)%float VL1. float_const 0.2%float VL2.
  float_const 0.201%float VL3. float_const 0.40%float VL4.
  float_const 0.60%float VL5. float_const 0.90%float VL6.
  float_const 1.2%float VL7.
  destruct (value <? -0.1)%float eqn:B1.
  { cbn [fst snd].
    repeat split; eapply byteOf_const; vm_compute; reflexivity. }
  destruct (value <? 0.2)%float eqn:B2.
  { destruct (band_value value _ _ _ _ B1 B2 VL1 VL2) as (va & Hv & Hva).
    cbv zeta. cbn [fst snd].
    rewrite (float_add_zero_inner 0.1 value false 7205759403792794 (-56))
      by reflexivity.
    rewrite (float_add_zero_inner 0.5 value false 4503599627370496 (-53))
      by reflexivity.
    float_const 0.1%float VC1. float_const 0.5%float VC5.
    destruct (sum_bounds 0.1 value _ va VC1 Hv) as (s1 & Hs1 & Hb1); [lra|].
    destruct (sum_bounds 0.5 value _ va VC5 Hv) as (s5 & Hs5 & Hb5); [lra|].
    repeat split;
      first [apply (channel_byte _ s1 Hs1); lra | apply (channel_byte _ s5 Hs5); lra]. }
  destruct (value <? 0.201)%float eqn:B3.
  { destruct (band_value value _ _ _ _ B2 B3 VL2 VL3) as (va & Hv & Hva).
    cbn [fst snd].
    float_const 0.202%float VC. float_const 500%float VK1. float_const 250%float VK2.
    destruct (difference_bounds 0.202 value _ va VC Hv) as (d & Hd & Hb); [lra|].
    repeat split;
      first [apply (channel_scaled 500 _ _ d VK1 Hd); lra
            |apply (channel_scaled 250 _ _ d VK2 Hd); lra]. }
  destruct (value <? 0.40)%float eqn:B4.
  { destruct (band_value value _ _ _ _ B3 B4 VL3 VL4) as (va & Hv & Hva).
    cbv zeta. cbn [fst snd].
    float_const 0.6%float VC. float_const 1.2%float VK1. float_const 1.6%float VK2.
    float_const 0.8%float VK3.
    destruct (difference_bounds 0.6 value _ va VC Hv) as (d & Hd & Hb); [lra|].
    repeat split;
      first [apply (channel_scaled 1.2 _ _ d VK1 Hd); lra
            |apply (channel_scaled 1.6 _ _ d VK2 Hd); lra
            |apply (channel_scaled 0.8 _ _ d VK3 Hd); lra]. }
  destruct (value <? 0.60)%float eqn:B5.
  { destruct (band_value value _ _ _ _ B4 B5 VL4 VL5) as (va & Hv & Hva).
    cbv zeta. cbn [fst snd].
    float_const 0.9%float VC. float_const 0.2%float VK1. float_const 0.8%float VK2.
    float_const 0.1%float VK3.
    destruct (difference_bounds 0.9 value _ va VC Hv) as (d & Hd & Hb); [lra|].
    repeat split;
      first [apply (channel_scaled 0.2 _ _ d VK1 Hd); lra
            |apply (channel_scaled 0.8 _ _ d VK2 Hd); lra
            |apply (channel_scaled 0.1 _ _ d VK3 Hd); lra]. }
  destruct (value <? 0.90)%float eqn:B6.
  { destruct (band_value value _ _ _ _ B5 B6 VL5 VL6) as (va & Hv & Hva).
    cbv zeta. cbn [fst snd].
    float_const 0.10%float VC.
    float_const (0.8 / (0.90 - 0.10))%float VK1.
    float_const (0.7 / (0.90 - 0.10))%float VK2.
    float_const (0.6 / (0.90 - 0.10))%float VK3.
    destruct (difference_bounds value 0.10 va _ Hv VC) as (d & Hd & Hb); [lra|].
    repeat split;
      first [apply (channel_scaled (0.8 / (0.90 - 0.10)) _ _ d VK1 Hd); lra
            |apply (channel_scaled (0.7 / (0.90 - 0.10)) _ _ d VK2 Hd); lra
            |apply (channel_scaled (0.6 / (0.90 - 0.10)) _ _ d VK3 Hd); lra]. }
  destruct (value <? 1.2)%float eqn:B7.
  { destruct (band_value value _ _ _ _ B6 B7 VL6 VL7) as (va & Hv & Hva).
    cbn [fst snd].
    float_const 0.8%float VK.
    repeat split; apply (channel_scaled 0.8 _ _ va VK Hv); lra. }
  cbn [fst snd].
  repeat split; eapply byteOf_const; vm_compute; reflexivity.
Qed.

Lemma colouriseByValue_channels (value : float) :
  colouriseByValue value
  = mkRGBA (F64.to_uint8 (fst (fst (paletteChannels value)) * 255))
           (F64.to_uint8 (snd (fst (paletteChannels value)) * 255))
           (F64.to_uint8 (snd (paletteChannels value) * 255)) 255.
Proof.
  unfold colouriseByValue.
  change (if (value <? -0.1)%float then _ else _) with (paletteChannels value).
  now destruct (paletteChannels value) as [[r g] b].
Qed.

Lemma to_uint8_byteOf (f : float) (n : Z) : byteOf f n -> F64.to_uint8 f = n.
Proof.
  intros [Ht Hn]. unfold F64.to_uint8. rewrite Ht. apply Z.mod_small. lia.
Qed.

(** X22: no conversion of [colouriseByValue] leaves the range of a byte.
    For every [float64], NaN and the infinities included, each of the three
    fractions times 255 is a finite number whose integer part lies between 0
    and 255, and the colour holds these integer parts: the result never
    depends on what [uint8] does with a value it cannot hold. *)
Theorem colouriseByValue_bytes (value : float) :
  exists nr ng nb,
    byteOf (fst (fst (paletteChannels value)) * 255) nr
    /\ byteOf (snd (fst (paletteChannels value)) * 255) ng
    /\ byteOf (snd (paletteChannels value) * 255) nb
    /\ colouriseByValue value = mkRGBA nr ng nb 255.
Proof.
  destruct (paletteChannels_bytes value) as ((nr & Hr) & (ng & Hg) & (nb & Hb)).
  exists nr, ng, nb.
  split; [exact Hr|]. split; [exact Hg|]. split; [exact Hb|].
  rewrite colouriseByValue_channels.
  now rewrite (to_uint8_byteOf _ _ Hr), (to_uint8_byteOf _ _ Hg), (to_uint8_byteOf _ _ Hb).
Qed.

End PaletteRange.

(** ** The extent beyond zoom 53 *)

Section ExtentError.
Local Open Scope Z_scope.

(** [float64(n)] of a non-negative [int] is the rounding of [n]. *)
Lemma of_int_spec (n : Z) :
  0 <= n < 2 ^ 63 ->
  Prim2SF (F64.of_int n) = binary_normalize prec emax n 0 false.
Proof.
  intros Hn.
  assert (E : Uint63Axioms.to_Z (Uint63.of_Z n) = n).
  { rewrite Uint63.of_Z_spec. apply Z.mod_small. exact Hn. }
  rewrite <- E at 1. rewrite of_int_of_uint63, of_uint63_spec. now rewrite E.
Qed.

Lemma Rabs_signR (s : bool) : Rabs (signR s) = 1%R.
Proof. unfold signR, Rabs. destruct s; destruct (Rcase_abs _); lra. Qed.

Lemma mul_approx_signed (a b : float) (va vb : R) (K : Z) :
  F64.value a = Some va -> F64.value b = Some vb ->
  (Rabs (va * vb) <= powerRZ 2 K)%R -> K <= 1022 ->
  exists v, F64.value (a * b) = Some v
            /\ (Rabs (v - va * vb) <= powerRZ 2 (Z.max (K - 52) (-1074)))%R.
Proof.
  intros Ha Hb Hm HK.
  assert (Hd0 : (0 <= powerRZ 2 (Z.max (K - 52) (-1074)))%R)
    by apply Rlt_le, powerRZ_2_pos.
  rewrite value_SFreal, mul_spec.
  pose proof (Prim2SF_valid a) as Va. pose proof (Prim2SF_valid b) as Vb.
  rewrite value_SFreal in Ha, Hb.
  destruct (Prim2SF a) as [sa|sa| |sa ma ea]; try discriminate;
    destruct (Prim2SF b) as [sb|sb| |sb mb eb]; try discriminate;
    cbn [SFreal] in Ha, Hb; injection Ha as <-; injection Hb as <-.
  - exists 0%R. split; [reflexivity|].
    replace (0 - 0 * 0)%R with 0%R by ring. now rewrite Rabs_R0.
  - exists 0%R. split; [reflexivity|].
    replace (0 - 0 * F64.SFval sb mb eb)%R with 0%R by ring. now rewrite Rabs_R0.
  - exists 0%R. split; [reflexivity|].
    replace (0 - F64.SFval sa ma ea * 0)%R with 0%R by ring. now rewrite Rabs_R0.
  - destruct (canonical_of_valid _ _ _ Va) as [Ca _].
    destruct (canonical_of_valid _ _ _ Vb) as [Cb _].
    unfold SF64mul, SFmul.
    assert (Hx : (F64.SFval sa ma ea * F64.SFval sb mb eb
                  = signR (xorb sa sb)
                    * (IZR (Zpos (ma * mb)) * powerRZ 2 (ea + eb)))%R).
    { rewrite !SFval_signR, signR_xorb, Pos2Z.inj_mul, mult_IZR, powerRZ_2_add. ring. }
    rewrite Hx in *.
    assert (Hpos : (0 < IZR (Zpos (ma * mb)) * powerRZ 2 (ea + eb))%R)
      by apply SFval_pos.
    assert (Hm' : (IZR (Zpos (ma * mb)) * powerRZ 2 (ea + eb) <= powerRZ 2 K)%R).
    { rewrite Rabs_mult, (Rabs_pos_eq (_ * _)) in Hm by lra.
      rewrite Rabs_signR in Hm. lra. }
    pose proof (mul_exponent_ok ma mb ea eb Ca Cb) as Hp.
    pose proof (fexp_of_magnitude (ma * mb) (ea + eb) K Hm') as He.
    destruct (bra_approx (xorb sa sb) (ma * mb) (ea + eb) Hp ltac:(lia))
      as (m1 & Hm1 & Hv).
    rewrite Hv.
    set (e' := fexp prec emax (Zpos (digits2_pos (ma * mb)) + (ea + eb))) in *.
    eexists. split; [reflexivity|].
    replace (signR (xorb sa sb) * IZR m1 * powerRZ 2 e'
             - signR (xorb sa sb) * (IZR (Zpos (ma * mb)) * powerRZ 2 (ea + eb)))%R
      with (signR (xorb sa sb)
            * (IZR m1 * powerRZ 2 e' - IZR (Zpos (ma * mb)) * powerRZ 2 (ea + eb)))%R
      by ring.
    rewrite Rabs_mult.
    rewrite Rabs_signR, Rmult_1_l.
    eapply Rle_trans; [|apply powerRZ_2_le; exact He].
    replace e' with ((ea + eb) + (e' - (ea + eb))) at 1 2 by lia.
    apply scaled_distance; lia.
Qed.

(** Division of a finite float of magnitude at least 1/2 by [2^z]. *)
Lemma div_pow2_value (a : float) (v : R) (z : Z) :
  F64.value a = Some v -> (v = 0 \/ 1 / 2 <= Rabs v)%R -> 0 <= z <= 62 ->
  F64.value (a / F64.of_int (2 ^ z)) = Some (v * powerRZ 2 (- z))%R.
Proof.
  intros Ha Hv Hz. rewrite value_SFreal, div_spec, (of_int_pow2 z) by lia.
  pose proof (Prim2SF_valid a) as Va. rewrite value_SFreal in Ha.
  destruct (Prim2SF a) as [sa|sa| |sa ma ea]; try discriminate;
    cbn [SFreal] in Ha; injection Ha as <-.
  - cbn [SF64div SFdiv SFreal]. f_equal. ring.
  - destruct (canonical_of_valid _ _ _ Va) as [Ca Ea].
    destruct Hv as [Hv|Hv]; [now apply SFval_nonzero in Hv|].
    assert (He : -54 <= ea).
    { destruct (canonical_emin _ _ Ca) as [_ Hd].
      pose proof (mantissa_upper ma Hd) as Hu.
      rewrite SFval_signR, Rabs_mult, Rabs_signR, Rmult_1_l in Hv.
      pose proof (SFval_pos ma ea) as Hp. rewrite Rabs_pos_eq in Hv by lra.
      rewrite <- powerRZ_2_nonneg in Hu by lia.
      assert (Hlt : (powerRZ 2 (-1) <= powerRZ 2 (53 + ea))%R).
      { rewrite powerRZ_2_add. change (powerRZ 2 (-1)) with (/ (2 * 1))%R.
        pose proof (powerRZ_2_pos ea).
        set (A := IZR (Zpos ma)) in *. set (Q := powerRZ 2 ea) in *.
        set (U := powerRZ 2 53) in *.
        assert (A * Q <= U * Q)%R by nra. lra. }
      apply powerRZ_2_le_inv in Hlt. lia. }
    rewrite div_pow2_exact by (assumption || lia).
    cbn [SFreal]. f_equal. replace (ea - z) with (ea + - z) by lia.
    apply SFval_shift.
Qed.

(** [float64(x)] for an index up to [2^z], [z <= 62]. *)
Lemma of_int_near (x z : Z) :
  0 <= z <= 62 -> 0 <= x <= 2 ^ z ->
  exists v, F64.value (F64.of_int x) = Some v
            /\ (Rabs (v - IZR x) <= powerRZ 2 (z - 52))%R
            /\ (v = 0 \/ 1 / 2 <= Rabs v)%R.
Proof.
  intros Hz Hx.
  assert (Hzz : 2 ^ z <= 2 ^ 62) by (apply Z.pow_le_mono_r; lia).
  change (2 ^ 62) with 4611686018427387904 in Hzz.
  assert (Hd : (0 <= powerRZ 2 (z - 52))%R) by apply Rlt_le, powerRZ_2_pos.
  destruct (Z_lt_le_dec x (2 ^ 53)) as [Hsmall|Hbig].
  - exists (IZR x). split; [|split].
    + apply exactly_value, exactly_of_int. apply (dyadic53_of x 0); try lia.
      cbn [powerRZ]. ring.
    + replace (IZR x - IZR x)%R with 0%R by ring. now rewrite Rabs_R0.
    + destruct (Z.eq_dec x 0) as [->|Hx0]; [now left|right].
      rewrite Rabs_pos_eq by (apply IZR_le; lia).
      assert (1 <= IZR x)%R by (apply IZR_le; lia). lra.
  - change (2 ^ 53) with 9007199254740992 in Hbig.
    assert (Hxr : (IZR x <= powerRZ 2 z)%R).
    { rewrite powerRZ_2_nonneg by lia. apply IZR_le. lia. }
    assert (Hx0 : (9007199254740992 <= IZR x)%R) by (apply IZR_le; lia).
    assert (Hz53 : 53 <= z).
    { destruct (Z_lt_le_dec z 53) as [Hlt|]; [exfalso|assumption].
      assert (2 ^ z <= 2 ^ 52) by (apply Z.pow_le_mono_r; lia).
      change (2 ^ 52) with 4503599627370496 in *. lia. }
    destruct (normalize_approx x 0 z) as (v & Hv & Hdv & Hpos); try lia.
    { cbn [powerRZ]. rewrite Rmult_1_r, Rabs_pos_eq by lra. exact Hxr. }
    cbn [powerRZ] in Hdv, Hpos. rewrite Rmult_1_r in Hdv, Hpos.
    replace (Z.max (z - 52) (-1074)) with (z - 52) in Hdv by lia.
    exists v. split; [|split; [exact Hdv|]].
    + rewrite value_SFreal, of_int_spec by lia. exact Hv.
    + right.
      assert (Hle : (powerRZ 2 (z - 52) <= powerRZ 2 10)%R)
        by (apply powerRZ_2_le; lia).
      rewrite (powerRZ_2_nonneg 10) in Hle by lia.
      change (2 ^ 10) with 1024 in Hle.
      apply Rabs_le_bounds in Hdv.
      rewrite Rabs_pos_eq by lra. lra.
Qed.

(** A corner coordinate at a zoom level up to 62: finite, and within
    [2^-48] of the exact coordinate. *)
Lemma axisCoord_near (x z : Z) :
  0 <= z <= 62 -> 0 <= x <= 2 ^ z ->
  exists v, F64.value (F64.axisCoord x z) = Some v
            /\ (Rabs (v - 4 * (IZR x / IZR (2 ^ z) - 1 / 2)) <= powerRZ 2 (-48))%R.
Proof.
  intros Hz Hx.
  assert (Hpz : 0 < 2 ^ z) by (apply Z.pow_pos_nonneg; lia).
  assert (HP : (0 < IZR (2 ^ z))%R) by (apply IZR_lt; lia).
  pose proof (pow2_inv z ltac:(lia)) as Hinv.
  destruct (of_int_near x z Hz Hx) as (v1 & Hv1 & Hd1 & Hn1).
  pose proof (div_pow2_value _ v1 z Hv1 Hn1 Hz) as Hq.
  set (Q := powerRZ 2 (- z)) in *. set (P := IZR (2 ^ z)) in *.
  assert (HQ : (0 < Q)%R) by apply powerRZ_2_pos.
  assert (Hxz : (IZR x / P = IZR x * Q)%R).
  { unfold Q. rewrite powerRZ_2_opp by lia. reflexivity. }
  assert (Hxq : (0 <= IZR x * Q <= 1)%R).
  { assert (0 <= IZR x <= P)%R by (split; apply IZR_le; lia).
    split; [apply Rmult_le_pos; lra|].
    replace 1%R with (Q * P)%R by exact Hinv. nra. }
  (* the error of the quotient *)
  assert (Hdq : (Rabs (v1 * Q - IZR x * Q) <= powerRZ 2 (-52))%R).
  { replace (v1 * Q - IZR x * Q)%R with ((v1 - IZR x) * Q)%R by ring.
    rewrite Rabs_mult, (Rabs_pos_eq Q) by lra.
    replace (powerRZ 2 (-52)) with (powerRZ 2 (z - 52) * Q)%R
      by (unfold Q; rewrite <- powerRZ_2_add; f_equal; lia).
    apply Rmult_le_compat_r; lra. }
  apply Rabs_le_bounds in Hdq.
  float_const 0.5%float Hhalf.
  assert (E52 : powerRZ 2 (-52) = (/ 4503599627370496)%R)
    by (rewrite powerRZ_2_neg; reflexivity).
  assert (E50 : powerRZ 2 (-50) = (/ 1125899906842624)%R)
    by (rewrite powerRZ_2_neg; reflexivity).
  assert (E48 : powerRZ 2 (-48) = (/ 281474976710656)%R)
    by (rewrite powerRZ_2_neg; reflexivity).
  rewrite E52 in Hdq.
  destruct (sub_approx _ 0.5 _ _ 0 Hq Hhalf) as (sv & Hs & Hds & _); try lia.
  { cbn [powerRZ]. apply Rabs_le. split; lra. }
  change (Z.max (0 - 52) (-1074)) with (-52) in Hds. rewrite E52 in Hds.
  apply Rabs_le_bounds in Hds.
  float_const 4%float Hfour.
  unfold F64.axisCoord.
  destruct (mul_approx_signed _ 4 _ _ 2 Hs Hfour) as (tv & Ht & Hdt); try lia.
  { change (powerRZ 2 2) with (2 * (2 * 1))%R. apply Rabs_le. split; lra. }
  change (Z.max (2 - 52) (-1074)) with (-50) in Hdt. rewrite E50 in Hdt.
  apply Rabs_le_bounds in Hdt.
  exists tv. split; [exact Ht|].
  rewrite Hxz, E48. apply Rabs_le. split; lra.
Qed.

Lemma tileExtent_axes_62 c :
  0 <= coordZ c <= 62 ->
  0 <= coordX c < 2 ^ coordZ c -> 0 <= coordY c < 2 ^ coordZ c ->
  tileExtent c =
  mkExtent (mkVector (F64.axisCoord (coordX c) (coordZ c))
                     (F64.axisCoord (coordY c) (coordZ c)))
           (mkVector (F64.axisCoord (coordX c + 1) (coordZ c))
                     (F64.axisCoord (coordY c + 1) (coordZ c))).
Proof.
  intros Hz Hx Hy.
  assert (Hle : 2 ^ coordZ c <= 2 ^ 62) by (apply Z.pow_le_mono_r; lia).
  change (2 ^ 62) with 4611686018427387904 in Hle.
  unfold tileExtent, F64.axisCoord, Sub, Scale. cbn [Min Max X Y].
  rewrite ushl_one by lia.
  unfold GoInt.add.
  rewrite !wrap_int_small by (unfold GoInt.min_int, GoInt.max_int;
    change (2 ^ 63) with 9223372036854775808; lia).
  reflexivity.
Qed.

(** X23: at every zoom level a request can have (up to 62) the extent of
    a valid tile is finite and each of its four coordinates is within
    [2^-48] of the exact one, [4(x/2^z - 1/2)] and so on: beyond zoom 53,
    where the extent is no longer exact, it is still that close. *)
Theorem tileExtent_error_bound (coords : TileCoords) :
  validTileCoords coords -> coordZ coords <= 62 ->
  within (X (Min (tileExtent coords)))
         (4 * (tileFraction (coordX coords) (coordZ coords) - 1 / 2)) (powerRZ 2 (-48))
  /\ within (Y (Min (tileExtent coords)))
            (4 * (tileFraction (coordY coords) (coordZ coords) - 1 / 2)) (powerRZ 2 (-48))
  /\ within (X (Max (tileExtent coords)))
            (4 * (tileFraction (coordX coords + 1) (coordZ coords) - 1 / 2))
            (powerRZ 2 (-48))
  /\ within (Y (Max (tileExtent coords)))
            (4 * (tileFraction (coordY coords + 1) (coordZ coords) - 1 / 2))
            (powerRZ 2 (-48)).
Proof.
  intros (Hz & Hx & Hy) Hz62.
  rewrite (tileExtent_axes_62 coords) by lia. cbn [Min Max X Y].
  unfold tileFraction, within.
  repeat split; apply axisCoord_near; lia.
Qed.

End ExtentError.

(** ** Rounding after a division *)

Section RoundingWithLocation.
Local Open Scope Z_scope.

Lemma Zdigits2_bound (m : Z) : 0 <= m -> m < 2 ^ Zdigits2 m.
Proof.
  intros Hm. destruct m as [|p|p]; try lia.
  - cbn. lia.
  - cbn [Zdigits2]. apply pos_lt_pow2_digits.
Qed.

Lemma Zdigits2_le (m k : Z) : 0 <= m < 2 ^ k -> 0 <= k -> Zdigits2 m <= k.
Proof.
  intros Hm Hk. destruct m as [|p|p]; try lia.
  - cbn. assumption.
  - cbn [Zdigits2]. apply digits2_pos_le; lia.
Qed.

Lemma shr_m_of_loc (m : Z) (l : location) : shr_m (shr_record_of_loc m l) = m.
Proof. destruct l as [|[| |]]; reflexivity. Qed.

(** Rounding a mantissa that is not negative, whatever is known of the
    digits behind it: the result stands for one of the two multiples of
    [2^e1] around [m * 2^e], [e1] being the exponent the format gives the
    number, or [e] when that is larger. *)
Lemma bra_general (sx : bool) (m : Z) (e : Z) (lx : location) :
  0 <= m ->
  let e1 := Z.max e (fexp prec emax (Zdigits2 m + e)) in
  e1 <= 970 ->
  exists m1,
    m / 2 ^ (e1 - e) <= m1 <= m / 2 ^ (e1 - e) + 1
    /\ SFreal (binary_round_aux prec emax sx m e lx)
       = Some (signR sx * IZR m1 * powerRZ 2 e1)%R.
Proof.
  intros Hm e1 Hhi.
  set (f := fexp prec emax (Zdigits2 m + e)) in *.
  assert (Hf : f = Z.max (Zdigits2 m + e - 53) (-1074)) by (unfold f; apply fexp_eq).
  assert (Hemin : -1074 <= e1) by (unfold e1; lia).
  set (n := e1 - e). assert (Hn : 0 <= n) by (unfold n, e1; lia).
  set (m0 := m / 2 ^ n).
  assert (Hm0 : 0 <= m0 < 2 ^ 53).
  { unfold m0. split; [apply Z.div_pos; [lia|apply Z.pow_pos_nonneg; lia]|].
    apply Z.div_lt_upper_bound; [apply Z.pow_pos_nonneg; lia|].
    rewrite <- Z.pow_add_r by lia.
    pose proof (Zdigits2_bound m Hm) as Hd.
    assert (0 <= Zdigits2 m) by (destruct m; cbn; lia).
    assert (2 ^ Zdigits2 m <= 2 ^ (n + 53))
      by (apply Z.pow_le_mono_r; unfold n, e1; lia).
    lia. }
  (* the first shift *)
  assert (H1 : exists mrs,
             shr_fexp prec emax m e lx = (mrs, e1) /\ shr_m mrs = m0).
  { unfold shr_fexp. fold f. unfold shr.
    destruct (f - e) as [|p|p] eqn:En.
    - eexists. split; [f_equal; unfold e1; lia|].
      rewrite shr_m_of_loc. unfold m0, n, e1.
      replace (Z.max e f - e) with 0 by lia. now rewrite Z.div_1_r.
    - eexists. split; [f_equal; unfold e1; lia|].
      unfold m0, n, e1. replace (Z.max e f - e) with (Zpos p) by lia.
      rewrite <- (shr_m_of_loc m lx) at 2.
      apply iter_shr_m. rewrite shr_m_of_loc. exact Hm.
    - eexists. split; [f_equal; unfold e1; lia|].
      rewrite shr_m_of_loc. unfold m0, n, e1.
      replace (Z.max e f - e) with 0 by lia. now rewrite Z.div_1_r. }
  destruct H1 as (mrs & E1 & Em).
  unfold binary_round_aux. rewrite E1.
  set (m1 := round_nearest_even (shr_m mrs) (loc_of_shr_record mrs)).
  pose proof (round_nearest_even_range (shr_m mrs) (loc_of_shr_record mrs)) as Hr.
  fold m1 in Hr. rewrite Em in Hr.
  exists m1. split; [exact Hr|].
  change (2 ^ 53) with 9007199254740992 in Hm0.
  destruct (Z.eq_dec m1 9007199254740992) as [E53|N53].
  - rewrite E53. unfold shr_fexp.
    change (Zdigits2 9007199254740992) with 54. rewrite fexp_eq.
    replace (Z.max (54 + e1 - 53) (-1074) - e1) with 1 by lia.
    cbn [shr shr_record_of_loc SpecFloat.iter_pos shr_1 shr_m].
    change (emax - prec) with 971.
    replace (e1 + 1 <=? 971) with true by (symmetry; apply Z.leb_le; lia).
    cbn [SFreal]. f_equal. unfold F64.SFval, signR.
    rewrite powerRZ_2_add. change (powerRZ 2 1) with (2 * 1)%R.
    destruct sx; lra.
  - destruct m1 as [|k|k] eqn:Ek; try lia.
    + unfold shr_fexp. cbn [Zdigits2]. rewrite fexp_eq.
      unfold shr. destruct (Z.max (0 + e1 - 53) (-1074) - e1) eqn:Es; try lia;
        cbn [shr_record_of_loc shr_m SFreal]; f_equal; lra.
    + assert (Hk : Zpos (digits2_pos k) <= 53) by (apply digits2_pos_le; lia).
      unfold shr_fexp. cbn [Zdigits2]. rewrite fexp_eq.
      unfold shr.
      destruct (Z.max (Zpos (digits2_pos k) + e1 - 53) (-1074) - e1) eqn:Es; try lia;
        cbn [shr_record_of_loc shr_m]; change (emax - prec) with 971;
        replace (e1 <=? 971) with true by (symmetry; apply Z.leb_le; lia);
        cbn [SFreal]; f_equal; unfold F64.SFval, signR; destruct sx; lra.
Qed.

Lemma fexp_mono (a b : Z) : a <= b -> fexp prec emax a <= fexp prec emax b.
Proof. intros H. rewrite !fexp_eq. lia. Qed.

(** A division by [2^k] is within [2^(K-52)] of the exact quotient, for a
    quotient of magnitude up to [2^K]: also where the quotient is too small
    to be a normal number. *)
Lemma div_pow2_approx (a p : float) (va : R) (k K : Z) :
  F64.value a = Some va ->
  Prim2SF p = S754_finite false F64.two52 (k - 52) ->
  (Rabs (va * powerRZ 2 (- k)) <= powerRZ 2 K)%R -> K <= 1021 ->
  exists v, F64.value (a / p) = Some v
            /\ (Rabs (v - va * powerRZ 2 (- k))
                <= powerRZ 2 (Z.max (K - 52) (-1074)))%R.
Proof.
  intros Ha Hp Hm HK.
  assert (Hd0 : (0 <= powerRZ 2 (Z.max (K - 52) (-1074)))%R)
    by apply Rlt_le, powerRZ_2_pos.
  rewrite value_SFreal, div_spec, Hp.
  pose proof (Prim2SF_valid a) as Va. rewrite value_SFreal in Ha.
  destruct (Prim2SF a) as [sa|sa| |sa ma ea]; try discriminate;
    cbn [SFreal] in Ha; injection Ha as <-.
  - exists 0%R. split; [reflexivity|].
    replace (0 - 0 * powerRZ 2 (- k))%R with 0%R by ring. now rewrite Rabs_R0.
  - destruct (canonical_of_valid _ _ _ Va) as [Ca Ea].
    (* the exact quotient *)
    assert (Hx : (F64.SFval sa ma ea * powerRZ 2 (- k)
                  = signR sa * (IZR (Zpos ma) * powerRZ 2 (ea - k)))%R).
    { rewrite SFval_signR. replace (ea - k) with (ea + - k) by lia.
      rewrite powerRZ_2_add. ring. }
    rewrite Hx in *.
    assert (Hpos : (0 < IZR (Zpos ma) * powerRZ 2 (ea - k))%R) by apply SFval_pos.
    rewrite Rabs_mult, Rabs_signR, Rmult_1_l, Rabs_pos_eq in Hm by lra.
    pose proof (fexp_of_magnitude ma (ea - k) K Hm) as HF.
    unfold SF64div, SFdiv, SFdiv_core_binary. cbn [Zdigits2].
    change (Zpos (digits2_pos F64.two52)) with 53.
    set (e' := Z.min (fexp prec emax (Zpos (digits2_pos ma) + ea - (53 + (k - 52))))
                     (ea - (k - 52))).
    assert (He' : e' <= Z.max (K - 52) (-1074)).
    { pose proof (fexp_mono (Zpos (digits2_pos ma) + ea - (53 + (k - 52)))
                   (Zpos (digits2_pos ma) + (ea - k)) ltac:(lia)).
      unfold e'. lia. }
    set (s := ea - (k - 52) - e').
    assert (Hs : 0 <= s) by (unfold s, e'; lia).
    set (m' := match s with
               | 0 => Zpos ma
               | Zpos _ => Z.shiftl (Zpos ma) s
               | Zneg _ => 0
               end).
    assert (Hm' : m' = Zpos ma * 2 ^ s).
    { unfold m'. destruct s as [|ps|ps] eqn:Es; try lia.
      apply Z.shiftl_mul_pow2. lia. }
    assert (Hm'pos : 0 < m').
    { rewrite Hm'. apply Z.mul_pos_pos; [lia|apply Z.pow_pos_nonneg; lia]. }
    destruct (Z.div_eucl m' (Zpos F64.two52)) as [q r] eqn:Hqr.
    assert (Hq : q = m' / 2 ^ 52).
    { change (2 ^ 52) with (Zpos F64.two52). unfold Z.div. now rewrite Hqr. }
    assert (Hq0 : 0 <= q) by (rewrite Hq; apply Z.div_pos; lia).
    rewrite xorb_false_r.
    (* the quotient times [2^e'] is at most the exact quotient *)
    assert (Hxe : (IZR (Zpos ma) * powerRZ 2 (ea - k)
                   = IZR m' * powerRZ 2 (e' - 52))%R).
    { rewrite Hm', mult_IZR. replace (ea - k) with (s + (e' - 52)) by (unfold s; lia).
      rewrite powerRZ_2_add, (powerRZ_2_nonneg s) by lia. ring. }
    assert (Hqx : (IZR q * powerRZ 2 e' <= IZR m' * powerRZ 2 (e' - 52))%R).
    { replace e' with (52 + (e' - 52)) at 1 by lia.
      rewrite powerRZ_2_add, (powerRZ_2_nonneg 52) by lia.
      pose proof (Z.mul_div_le m' (2 ^ 52) ltac:(lia)) as Hle.
      rewrite <- Hq in Hle. apply IZR_le in Hle. rewrite mult_IZR in Hle.
      pose proof (powerRZ_2_pos (e' - 52)).
      set (A := IZR (2 ^ 52)) in *. set (B := powerRZ 2 (e' - 52)) in *.
      set (C := IZR q) in *. set (D := IZR m') in *. nra. }
    assert (Hfq : fexp prec emax (Zdigits2 q + e') <= Z.max (K - 52) (-1074)).
    { destruct q as [|pq|pq]; try lia.
      - cbn [Zdigits2]. rewrite fexp_eq. lia.
      - cbn [Zdigits2]. apply fexp_of_magnitude. lra. }
    destruct (bra_general sa q e' (new_location (Zpos F64.two52) r) Hq0)
      as (m1 & Hm1 & Hv); [lia|].
    set (e1 := Z.max e' (fexp prec emax (Zdigits2 q + e'))) in *.
    rewrite Hv. eexists. split; [reflexivity|].
    replace (signR sa * IZR m1 * powerRZ 2 e1
             - signR sa * (IZR (Zpos ma) * powerRZ 2 (ea - k)))%R
      with (signR sa * (IZR m1 * powerRZ 2 e1
                        - IZR (Zpos ma) * powerRZ 2 (ea - k)))%R by ring.
    rewrite Rabs_mult, Rabs_signR, Rmult_1_l, Hxe.
    apply Rle_trans with (powerRZ 2 e1); [|apply powerRZ_2_le; unfold e1; lia].
    replace e1 with ((e' - 52) + (52 + (e1 - e'))) by lia.
    apply scaled_distance; try lia.
    rewrite Z.pow_add_r, <- Z.div_div by lia.
    rewrite <- Hq. exact Hm1.
Qed.

End RoundingWithLocation.

(** ** The range of the elevation on binary64 *)

Section ElevationRange.
Local Open Scope R_scope.
Variables Cos Sin : float -> float.
Variable Noise4 : float -> float -> float -> float -> float.
Hypothesis Noise4_unit :
  forall a b c d, exists v, F64.value (Noise4 a b c d) = Some v /\ Rabs v <= 1.

Lemma octaveBound_step (k : nat) :
  octaveBound (S k)
  = octaveBound k + powerRZ 2 (- Z.of_nat (S k)) + / 562949953421312.
Proof.
  unfold octaveBound. rewrite Nat2Z.inj_succ, <- Z.add_1_r, plus_IZR.
  replace (- Z.of_nat k)%Z with (- (Z.of_nat k + 1) + 1)%Z by lia.
  rewrite (powerRZ_2_add (- (Z.of_nat k + 1)) 1).
  change (powerRZ 2 1) with (2 * 1). field.
Qed.

Lemma octaveBound_range (k : nat) : (k <= 1000)%nat -> 1 <= octaveBound k <= 3.
Proof.
  intros Hk. unfold octaveBound.
  assert (H1 : 0 < powerRZ 2 (- Z.of_nat k)) by apply powerRZ_2_pos.
  assert (H2 : powerRZ 2 (- Z.of_nat k) <= powerRZ 2 0)
    by (apply powerRZ_2_le; lia).
  cbn [powerRZ] in H2.
  assert (H3 : 0 <= IZR (Z.of_nat k) <= 1000) by (split; apply IZR_le; lia).
  lra.
Qed.

Lemma torusLoop_finite (n k : nat) (c : Vector) (acc : float) (va : R) :
  (k + n <= 1000)%nat ->
  F64.value acc = Some va -> Rabs va <= octaveBound k ->
  exists v, F64.value (torusLoop Cos Sin Noise4 n c (pow2 k) acc) = Some v
            /\ Rabs v <= octaveBound (k + n).
Proof.
  revert k acc va. induction n as [|n IH]; intros k acc va Hk Ha Hb.
  - exists va. rewrite Nat.add_0_r. split; assumption.
  - cbn [torusLoop]. rewrite pow2_double.
    set (noise := Noise4 _ _ _ _).
    destruct (Noise4_unit (Cos (X c / 2 * pow2 (S k) * F64.Pi))
                (Cos (Y c / 2 * pow2 (S k) * F64.Pi))
                (Sin (X c / 2 * pow2 (S k) * F64.Pi))
                (Sin (Y c / 2 * pow2 (S k) * F64.Pi))) as (vn & Hn & Hvn).
    fold noise in Hn.
    assert (Hp : Prim2SF (pow2 (S k))
                 = S754_finite false F64.two52 (Z.of_nat (S k) - 52)).
    { unfold pow2. apply of_int_pow2. lia. }
    assert (Hhalf : powerRZ 2 (- Z.of_nat (S k)) <= powerRZ 2 (-1))
      by (apply powerRZ_2_le; lia).
    assert (Hpp : 0 < powerRZ 2 (- Z.of_nat (S k))) by apply powerRZ_2_pos.
    change (powerRZ 2 (-1)) with (/ (2 * 1)) in Hhalf.
    destruct (div_pow2_approx noise (pow2 (S k)) vn (Z.of_nat (S k)) (-1) Hn Hp)
      as (t & Ht & Hdt); try lia.
    { change (powerRZ 2 (-1)) with (/ (2 * 1)).
      rewrite Rabs_mult, (Rabs_pos_eq (powerRZ 2 _)) by lra.
      assert (Rabs vn * powerRZ 2 (- Z.of_nat (S k)) <= 1 * powerRZ 2 (- Z.of_nat (S k)))
        by (apply Rmult_le_compat_r; lra).
      lra. }
    change (Z.max (-1 - 52) (-1074)) with (-53)%Z in Hdt.
    assert (E53 : powerRZ 2 (-53) = / 9007199254740992)
      by (rewrite powerRZ_2_neg; reflexivity).
    rewrite E53 in Hdt. apply Rabs_le_bounds in Hdt.
    assert (Hvt : Rabs (vn * powerRZ 2 (- Z.of_nat (S k)))
                  <= powerRZ 2 (- Z.of_nat (S k))).
    { rewrite Rabs_mult, (Rabs_pos_eq (powerRZ 2 _)) by lra.
      assert (Rabs vn * powerRZ 2 (- Z.of_nat (S k)) <= 1 * powerRZ 2 (- Z.of_nat (S k)))
        by (apply Rmult_le_compat_r; lra).
      lra. }
    apply Rabs_le_bounds in Hvt.
    pose proof (octaveBound_range k ltac:(lia)) as Hr.
    pose proof (Rabs_le_bounds _ _ Hb) as Hva.
    destruct (add_approx acc (noise / pow2 (S k)) va t 2 Ha Ht) as (v' & Hv' & Hdv & _);
      try lia.
    { change (powerRZ 2 2) with (2 * (2 * 1)). apply Rabs_le. split; lra. }
    change (Z.max (2 - 52) (-1074)) with (-50)%Z in Hdv.
    assert (E50 : powerRZ 2 (-50) = / 1125899906842624)
      by (rewrite powerRZ_2_neg; reflexivity).
    rewrite E50 in Hdv. apply Rabs_le_bounds in Hdv.
    destruct (IH (S k) _ v' ltac:(lia) Hv') as (v & Hv & Hbv).
    { rewrite octaveBound_step. apply Rabs_le. split; lra. }
    exists v. split; [exact Hv|].
    replace (k + S n)%nat with (S k + n)%nat by lia. exact Hbv.
Qed.

(** X24: on binary64, for every zoom level a request can have, a noise
    primitive that returns finite values within [-1, 1] makes the elevation
    a finite number within [-2 - 2^-42, 2 + 2^-42]: the octave scales are
    exact powers of two and the roundings of the up to 78 octaves add up to
    less than [2^-42]. *)
Theorem simplexTorus_finite (c : Vector) (coords : TileCoords) :
  (GoInt.min_int <= coordZ coords <= 62)%Z ->
  exists v, F64.value (simplexTorus Cos Sin Noise4 c coords) = Some v
            /\ Rabs v <= 2 + / 4398046511104.
Proof.
  intros Hz. unfold simplexTorus, GoInt.add.
  rewrite wrap_int_small
    by (revert Hz; unfold GoInt.min_int, GoInt.max_int;
        change (2 ^ 63)%Z with 9223372036854775808%Z; lia).
  set (n := Z.to_nat (coordZ coords + 16)).
  assert (Hn : (n <= 78)%nat) by (unfold n; lia).
  destruct (Noise4_unit (Cos (X c / 2 * F64.Pi)) (Cos (Y c / 2 * F64.Pi))
              (Sin (X c / 2 * F64.Pi)) (Sin (Y c / 2 * F64.Pi))) as (v0 & Hv0 & Hb0).
  change 1%float with (pow2 0).
  destruct (torusLoop_finite n 0 c _ v0 ltac:(lia) Hv0) as (v & Hv & Hb).
  { unfold octaveBound. cbn [Z.of_nat Z.opp powerRZ]. lra. }
  exists v. split; [exact Hv|].
  eapply Rle_trans; [exact Hb|]. cbn [Nat.add]. unfold octaveBound.
  assert (H1 : 0 < powerRZ 2 (- Z.of_nat n)) by apply powerRZ_2_pos.
  assert (H3 : 0 <= IZR (Z.of_nat n) <= 78) by (split; apply IZR_le; lia).
  lra.
Qed.

End ElevationRange.

(** ** The accuracy of [math.Pi] *)

Section PiAccuracy.
Import QArith Qreals Machin.
Local Open Scope R_scope.

Lemma Q2R_qpow (q : Q) (n : nat) : Q2R (qpow q n) = Q2R q ^ n.
Proof.
  induction n as [|n IH]; simpl.
  - unfold Q2R. simpl. lra.
  - now rewrite Q2R_mult, IH.
Qed.

Lemma Q2R_machinTerm (k : nat) : Q2R (machinTerm k) = tg_alt PI_2_3_7_tg k.
Proof.
  unfold machinTerm, tg_alt, PI_2_3_7_tg, Ratan_seq.
  assert (Hn : Q2R (Z.of_nat (2 * k + 1) # 1) = INR (2 * k + 1)).
  { unfold Q2R. cbn [Qnum Qden]. rewrite <- INR_IZR_INZ. rewrite Rinv_1. ring. }
  assert (Hq : ~ (Z.of_nat (2 * k + 1) # 1 == 0)%Q).
  { unfold Qeq. simpl. lia. }
  rewrite Q2R_mult, Q2R_plus, Q2R_mult, !Q2R_div, !Q2R_qpow, Hn by exact Hq.
  replace (Q2R (-1 # 1)) with (-1) by (unfold Q2R; simpl; lra).
  replace (Q2R (2 # 1)) with 2 by (unfold Q2R; simpl; lra).
  replace (Q2R (1 # 3)) with (/ 3) by (unfold Q2R; simpl; lra).
  replace (Q2R (1 # 7)) with (/ 7) by (unfold Q2R; simpl; lra).
  reflexivity.
Qed.

Lemma Q2R_machinSum (n : nat) : Q2R (machinSum n) = sum_f_R0 (tg_alt PI_2_3_7_tg) n.
Proof.
  induction n as [|n IH]; simpl.
  - apply Q2R_machinTerm.
  - now rewrite Q2R_plus, IH, Q2R_machinTerm.
Qed.

Lemma Pi_value : F64.value F64.Pi = Some (IZR 7074237752028440 / IZR (2 ^ 51)).
Proof.
  unfold F64.value.
  change (Prim2SF F64.Pi) with (S754_finite false 7074237752028440 (-51)).
  f_equal. unfold F64.SFval. cbn [powerRZ]. rewrite pow_IZR.
  change (2 ^ Z.of_nat (Pos.to_nat 51))%Z with (2 ^ 51)%Z. reflexivity.
Qed.

(** [math.Pi] as a float64 is within [2^-52] of pi. *)
Lemma Pi_accuracy :
  Rabs (IZR 7074237752028440 / IZR (2 ^ 51) - PI) <= powerRZ 2 (-52).
Proof.
  destruct (PI_2_3_7_ineq 9) as [Hlo Hhi].
  change (S (2 * 9)) with 19%nat in Hlo. change (2 * 9)%nat with 18%nat in Hhi.
  rewrite <- Q2R_machinSum in Hlo, Hhi.
  assert (Qlo : ((7074237752028440 # 2 ^ 51) - (1 # 2 ^ 52) <= (4 # 1) * machinSum 19)%Q).
  { apply Qle_bool_imp_le. vm_compute. reflexivity. }
  assert (Qhi : ((4 # 1) * machinSum 18 <= (7074237752028440 # 2 ^ 51) + (1 # 2 ^ 52))%Q).
  { apply Qle_bool_imp_le. vm_compute. reflexivity. }
  apply Qle_Rle in Qlo, Qhi.
  rewrite Q2R_minus, Q2R_mult in Qlo. rewrite Q2R_plus, Q2R_mult in Qhi.
  replace (Q2R (4 # 1)) with 4 in Qlo, Qhi by (unfold Q2R; simpl; lra).
  assert (E1 : Q2R (7074237752028440 # 2 ^ 51) = IZR 7074237752028440 / IZR (2 ^ 51)).
  { unfold Q2R. reflexivity. }
  assert (E2 : Q2R (1 # 2 ^ 52) = powerRZ 2 (-52)).
  { unfold Q2R. cbn [powerRZ Qnum Qden]. rewrite pow_IZR.
    change (2 ^ Z.of_nat (Pos.to_nat 52))%Z with (2 ^ 52)%Z.
    change (Z.pos (2 ^ 52)) with (2 ^ 52)%Z. lra. }
  rewrite E1, E2 in Qlo, Qhi.
  apply Rabs_le. lra.
Qed.

End PiAccuracy.

(** ** Cosine and sine *)

Section Trig.
Local Open Scope R_scope.

Lemma PI_bounds : 3 < PI < 4.
Proof.
  pose proof Pi_accuracy as H. apply Rabs_le_bounds in H.
  rewrite powerRZ_2_neg in H.
  change (2 ^ 51)%Z with 2251799813685248%Z in H.
  change (2 ^ 52)%Z with 4503599627370496%Z in H.
  lra.
Qed.

Lemma sin_abs_le (x : R) : Rabs (sin x) <= Rabs x.
Proof.
  assert (Hpos : forall t, 0 < t -> Rabs (sin t) <= t).
  { intros t Ht. pose proof (SIN_bound t) as [Hl Hu].
    destruct (Rle_dec 1 t) as [H1|H1].
    - apply Rabs_le. lra.
    - pose proof PI_bounds. pose proof (sin_lt_x t Ht).
      pose proof (sin_gt_0 t Ht ltac:(lra)).
      apply Rabs_le. lra. }
  destruct (Rtotal_order x 0) as [H|[H|H]].
  - rewrite <- (Ropp_involutive x) at 1. rewrite sin_neg, Rabs_Ropp.
    rewrite (Rabs_left x) by lra. apply Hpos. lra.
  - subst x. rewrite sin_0, Rabs_R0. lra.
  - rewrite (Rabs_pos_eq x) by lra. now apply Hpos.
Qed.

Lemma cos_lipschitz (p q : R) : Rabs (cos p - cos q) <= Rabs (p - q).
Proof.
  rewrite form2, !Rabs_mult.
  pose proof (sin_abs_le ((p - q) / 2)) as H1.
  pose proof (SIN_bound ((p + q) / 2)) as H2.
  assert (H3 : Rabs (sin ((p + q) / 2)) <= 1) by (apply Rabs_le; lra).
  assert (H4 : Rabs ((p - q) / 2) = Rabs (p - q) / 2).
  { unfold Rdiv. rewrite Rabs_mult, (Rabs_pos_eq (/ 2)) by lra. reflexivity. }
  rewrite H4 in H1.
  replace (Rabs (-2)) with 2 by (rewrite Rabs_left; lra).
  pose proof (Rabs_pos (sin ((p - q) / 2))).
  pose proof (Rabs_pos (sin ((p + q) / 2))).
  assert (Rabs (sin ((p - q) / 2)) * Rabs (sin ((p + q) / 2))
          <= (Rabs (p - q) / 2) * 1)
    by (apply Rmult_le_compat; lra).
  lra.
Qed.

Lemma sin_lipschitz (p q : R) : Rabs (sin p - sin q) <= Rabs (p - q).
Proof.
  rewrite form4, !Rabs_mult.
  pose proof (sin_abs_le ((p - q) / 2)) as H1.
  pose proof (COS_bound ((p + q) / 2)) as H2.
  assert (H3 : Rabs (cos ((p + q) / 2)) <= 1) by (apply Rabs_le; lra).
  assert (H4 : Rabs ((p - q) / 2) = Rabs (p - q) / 2).
  { unfold Rdiv. rewrite Rabs_mult, (Rabs_pos_eq (/ 2)) by lra. reflexivity. }
  rewrite H4 in H1.
  rewrite (Rabs_pos_eq 2) by lra.
  pose proof (Rabs_pos (sin ((p - q) / 2))).
  pose proof (Rabs_pos (cos ((p + q) / 2))).
  assert (Rabs (cos ((p + q) / 2)) * Rabs (sin ((p - q) / 2))
          <= 1 * (Rabs (p - q) / 2))
    by (apply Rmult_le_compat; lra).
  lra.
Qed.

(** A product of two approximations. *)
Lemma product_error (a b ra rb ea eb A B : R) :
  Rabs (a - ra) <= ea -> Rabs (b - rb) <= eb -> Rabs ra <= A -> Rabs b <= B ->
  Rabs (a * b - ra * rb) <= ea * B + A * eb.
Proof.
  intros Ha Hb HA HB.
  replace (a * b - ra * rb) with ((a - ra) * b + ra * (b - rb)) by ring.
  eapply Rle_trans; [apply Rabs_triang|]. rewrite !Rabs_mult.
  pose proof (Rabs_pos (a - ra)). pose proof (Rabs_pos b).
  pose proof (Rabs_pos ra). pose proof (Rabs_pos (b - rb)).
  apply Rplus_le_compat; apply Rmult_le_compat; lra.
Qed.

End Trig.

(** ** The angles of the octaves *)

Section Angles.
Local Open Scope R_scope.

Lemma pow2_value (k : nat) :
  (k <= 1023)%nat -> F64.value (pow2 k) = Some (powerRZ 2 (Z.of_nat k)).
Proof.
  intros Hk. unfold F64.value, pow2. rewrite of_int_pow2 by lia.
  f_equal. unfold F64.SFval.
  replace (Z.of_nat k) with (52 + (Z.of_nat k - 52))%Z at 2 by lia.
  rewrite powerRZ_2_add, (powerRZ_2_nonneg 52) by lia. reflexivity.
Qed.

Lemma powerRZ_2_shift (k : nat) (j : Z) :
  powerRZ 2 (Z.of_nat k + j) = powerRZ 2 (Z.of_nat k) * powerRZ 2 j.
Proof. apply powerRZ_2_add. Qed.

Lemma powerRZ_2_ge_1 (k : nat) : 1 <= powerRZ 2 (Z.of_nat k).
Proof.
  change 1 with (powerRZ 2 0). apply powerRZ_2_le. lia.
Qed.

(** The angle of octave [k] at a coordinate of magnitude up to 8: finite,
    and within [2^(k-45)] of the exact angle. *)
Lemma angle_value (x : float) (vx : R) (k : nat) :
  F64.value x = Some vx -> Rabs vx <= 8 -> (k <= 100)%nat ->
  within (x / 2 * pow2 k * F64.Pi)%float
         (vx / 2 * powerRZ 2 (Z.of_nat k) * PI)
         (powerRZ 2 (Z.of_nat k - 45)).
Proof.
  intros Hx Hb Hk.
  set (P := powerRZ 2 (Z.of_nat k)).
  assert (HP : 1 <= P) by apply powerRZ_2_ge_1.
  pose proof (Rabs_le_bounds _ _ Hb) as Hvx.
  (* x / 2 *)
  destruct (div_pow2_approx x 2%float vx 1 2 Hx) as (v1 & H1 & E1); try lia.
  { reflexivity. }
  { change (powerRZ 2 (Z.opp 1)) with (/ (2 * 1)). change (powerRZ 2 2) with (2 * (2 * 1)).
    apply Rabs_le. lra. }
  change (Z.max (2 - 52) (-1074)) with (-50)%Z in E1.
  change (powerRZ 2 (Z.opp 1)) with (/ (2 * 1)) in E1.
  rewrite powerRZ_2_neg in E1. change (2 ^ 50)%Z with 1125899906842624%Z in E1.
  (* * scale *)
  pose proof (pow2_value k ltac:(lia)) as Hs. fold P in Hs.
  assert (B1 : Rabs v1 <= 5) by (apply Rabs_le_bounds in E1; apply Rabs_le; lra).
  destruct (mul_approx_signed (x / 2)%float (pow2 k) v1 P (Z.of_nat k + 3) H1 Hs)
    as (v2 & H2 & E2); try lia.
  { rewrite powerRZ_2_shift. fold P. change (powerRZ 2 3) with (2 * (2 * (2 * 1))).
    rewrite Rabs_mult, (Rabs_pos_eq P) by lra.
    pose proof (Rabs_pos v1).
    assert (Rabs v1 * P <= 5 * P) by (apply Rmult_le_compat_r; lra). lra. }
  rewrite Z.max_l in E2 by lia.
  replace (Z.of_nat k + 3 - 52)%Z with (Z.of_nat k + -49)%Z in E2 by lia.
  rewrite powerRZ_2_shift in E2. fold P in E2.
  rewrite powerRZ_2_neg in E2. change (2 ^ 49)%Z with 562949953421312%Z in E2.
  (* v2 against the exact product *)
  assert (D2 : Rabs (v2 - vx / 2 * P) <= P * / 562949953421312 + P * / 1125899906842624).
  { replace (v2 - vx / 2 * P) with ((v2 - v1 * P) + (v1 - vx * / (2 * 1)) * P) by field.
    eapply Rle_trans; [apply Rabs_triang|]. rewrite Rabs_mult, (Rabs_pos_eq P) by lra.
    pose proof (Rabs_pos (v1 - vx * / (2 * 1))).
    assert (Rabs (v1 - vx * / (2 * 1)) * P <= / 1125899906842624 * P)
      by (apply Rmult_le_compat_r; lra).
    lra. }
  assert (B2 : Rabs v2 <= 5 * P).
  { apply Rabs_le_bounds in D2. apply Rabs_le.
    assert (- (4 * P) <= vx / 2 * P <= 4 * P) by (split; nra). lra. }
  (* * Pi *)
  pose proof Pi_value as Hpi. pose proof Pi_accuracy as Epi.
  assert (Bpi : Rabs (IZR 7074237752028440 / IZR (2 ^ 51)) <= 4).
  { change (2 ^ 51)%Z with 2251799813685248%Z. apply Rabs_le. lra. }
  set (piF := IZR 7074237752028440 / IZR (2 ^ 51)) in *.
  rewrite powerRZ_2_neg in Epi. change (2 ^ 52)%Z with 4503599627370496%Z in Epi.
  pose proof PI_bounds as HPI.
  destruct (mul_approx_signed (x / 2 * pow2 k)%float F64.Pi v2 piF (Z.of_nat k + 5) H2 Hpi)
    as (v3 & H3 & E3); try lia.
  { rewrite powerRZ_2_shift. fold P. change (powerRZ 2 5) with (2 * (2 * (2 * (2 * (2 * 1))))).
    rewrite Rabs_mult.
    pose proof (Rabs_pos v2). pose proof (Rabs_pos piF).
    assert (Rabs v2 * Rabs piF <= (5 * P) * 4) by (apply Rmult_le_compat; lra). lra. }
  rewrite Z.max_l in E3 by lia.
  replace (Z.of_nat k + 5 - 52)%Z with (Z.of_nat k + -47)%Z in E3 by lia.
  rewrite powerRZ_2_shift in E3. fold P in E3.
  rewrite powerRZ_2_neg in E3. change (2 ^ 47)%Z with 140737488355328%Z in E3.
  exists v3. split; [exact H3|].
  replace (Z.of_nat k - 45)%Z with (Z.of_nat k + -45)%Z by lia.
  rewrite powerRZ_2_shift. fold P.
  rewrite powerRZ_2_neg. change (2 ^ 45)%Z with 35184372088832%Z.
  assert (D3 : Rabs (v2 * piF - vx / 2 * P * PI)
               <= (P * / 562949953421312 + P * / 1125899906842624) * 4
                  + (4 * P) * / 4503599627370496).
  { apply product_error; try assumption.
    apply Rabs_le. split; nra. }
  replace (v3 - vx / 2 * P * PI)
    with ((v3 - v2 * piF) + (v2 * piF - vx / 2 * P * PI)) by ring.
  eapply Rle_trans; [apply Rabs_triang|]. lra.
Qed.

(** The base octave has no scale factor. *)
Lemma angle_value_0 (x : float) (vx : R) :
  F64.value x = Some vx -> Rabs vx <= 8 ->
  within (x / 2 * F64.Pi)%float (vx / 2 * PI) (powerRZ 2 (-45)).
Proof.
  intros Hx Hb.
  pose proof (angle_value x vx 0 Hx Hb ltac:(lia)) as H.
  change (pow2 0) with 1%float in H. rewrite float_mul_one in H.
  cbn [Z.of_nat powerRZ] in H. replace (vx / 2 * 1 * PI) with (vx / 2 * PI) in H by ring.
  exact H.
Qed.

End Angles.

(** ** World wrap on binary64 *)

Section WrapAround.
Local Open Scope R_scope.

Variables Cos Sin : float -> float.
Variable Noise4 : float -> float -> float -> float -> float.
Variables eps L eta : R.

Hypothesis Cos_accurate :
  forall a va, F64.value a = Some va -> within (Cos a) (cos va) eps.
Hypothesis Sin_accurate :
  forall a va, F64.value a = Some va -> within (Sin a) (sin va) eps.
Hypothesis Noise4_unit :
  forall a b c d, finiteFloat a -> finiteFloat b -> finiteFloat c -> finiteFloat d ->
  within (Noise4 a b c d) 0 1.
Hypothesis Noise4_continuous :
  forall a b c d a' b' c' d' delta,
    closeTo a a' delta -> closeTo b b' delta ->
    closeTo c c' delta -> closeTo d d' delta ->
    closeTo (Noise4 a b c d) (Noise4 a' b' c' d') (L * delta + eta).

Lemma eps_nonneg : 0 <= eps.
Proof.
  destruct (Cos_accurate 0%float 0 eq_refl) as (v & _ & H).
  pose proof (Rabs_pos (v - cos 0)). lra.
Qed.

Lemma closeTo_refl (a : float) (v : R) : F64.value a = Some v -> closeTo a a 0.
Proof.
  intros H. exists v, v. repeat split; try assumption.
  rewrite Rminus_diag, Rabs_R0. lra.
Qed.

Lemma closeTo_weaken (a a' : float) (d d' : R) :
  closeTo a a' d -> d <= d' -> closeTo a a' d'.
Proof.
  intros (v & v' & H1 & H2 & H3) Hd. exists v, v'. repeat split; try assumption. lra.
Qed.

Lemma continuity_nonneg (delta : R) : 0 <= delta -> 0 <= L * delta + eta.
Proof.
  intros Hd.
  assert (H0 : closeTo 0%float 0%float delta).
  { apply closeTo_weaken with 0; [|exact Hd]. now apply closeTo_refl with 0. }
  destruct (Noise4_continuous _ _ _ _ _ _ _ _ delta H0 H0 H0 H0) as (v & v' & _ & _ & H).
  pose proof (Rabs_pos (v' - v)). lra.
Qed.

Lemma eta_nonneg : 0 <= eta.
Proof.
  pose proof (continuity_nonneg 0 (Rle_refl 0)). lra.
Qed.

Lemma L_nonneg : 0 <= L.
Proof.
  destruct (Rle_dec 0 L) as [H|H]; [exact H|exfalso].
  assert (HL : L < 0) by lra.
  pose proof eta_nonneg as He.
  assert (Hd : 0 <= (eta + 1) / (- L)).
  { apply Rmult_le_pos; [lra|]. apply Rlt_le, Rinv_0_lt_compat. lra. }
  pose proof (continuity_nonneg _ Hd) as H1.
  replace (L * ((eta + 1) / - L) + eta) with (-1) in H1 by (field; lra).
  lra.
Qed.

(** One world period adds whole turns to the angle of every octave. *)
Lemma angle_wrap (x x' : R) (k : nat) :
  x' = x + 4 \/ x' = x ->
  exists n, x' / 2 * powerRZ 2 (Z.of_nat k) * PI
            = x / 2 * powerRZ 2 (Z.of_nat k) * PI + 2 * INR n * PI.
Proof.
  intros [->| ->].
  - exists (2 ^ k)%nat. rewrite pow_INR, <- pow_powerRZ. change (INR 2) with 2. set (P := 2 ^ k). field.
  - exists 0%nat. simpl. ring.
Qed.

Lemma trig_wrap (A A' : float) (t t' e : R) (n : nat) :
  within A t e -> within A' t' e -> t' = t + 2 * INR n * PI ->
  closeTo (Cos A) (Cos A') (2 * eps + 2 * e)
  /\ closeTo (Sin A) (Sin A') (2 * eps + 2 * e).
Proof.
  intros (a & Ha & Ea) (a' & Ha' & Ea') Ht.
  apply Rabs_le_bounds in Ea, Ea'.
  assert (Hd : Rabs (a' - 2 * INR n * PI - a) <= 2 * e) by (apply Rabs_le; lra).
  split.
  - destruct (Cos_accurate A a Ha) as (c & Hc & Ec).
    destruct (Cos_accurate A' a' Ha') as (c' & Hc' & Ec').
    exists c, c'. repeat split; try assumption.
    replace (cos a') with (cos (a' - 2 * INR n * PI)) in Ec'
      by (rewrite <- (cos_period _ n); f_equal; ring).
    pose proof (cos_lipschitz (a' - 2 * INR n * PI) a) as Hl.
    apply Rabs_le_bounds in Ec, Ec'.
    assert (Hl' := Rle_trans _ _ _ Hl Hd). apply Rabs_le_bounds in Hl'.
    apply Rabs_le. lra.
  - destruct (Sin_accurate A a Ha) as (c & Hc & Ec).
    destruct (Sin_accurate A' a' Ha') as (c' & Hc' & Ec').
    exists c, c'. repeat split; try assumption.
    replace (sin a') with (sin (a' - 2 * INR n * PI)) in Ec'
      by (rewrite <- (sin_period _ n); f_equal; ring).
    pose proof (sin_lipschitz (a' - 2 * INR n * PI) a) as Hl.
    apply Rabs_le_bounds in Ec, Ec'.
    assert (Hl' := Rle_trans _ _ _ Hl Hd). apply Rabs_le_bounds in Hl'.
    apply Rabs_le. lra.
Qed.

Lemma closeTo_finite (a a' : float) (d : R) : closeTo a a' d -> finiteFloat a /\ finiteFloat a'.
Proof.
  intros (v & v' & H & H' & _). split; [now exists v|now exists v'].
Qed.

(** The noise of octave [k] at two points one world period apart. *)
Lemma octave_wrap (c c' : Vector) (k : nat) :
  worldWrap c c' -> (k <= 100)%nat ->
  exists v v',
    F64.value (Noise4 (Cos (X c / 2 * pow2 k * F64.Pi)) (Cos (Y c / 2 * pow2 k * F64.Pi))
                      (Sin (X c / 2 * pow2 k * F64.Pi)) (Sin (Y c / 2 * pow2 k * F64.Pi)))
    = Some v
    /\ F64.value (Noise4 (Cos (X c' / 2 * pow2 k * F64.Pi)) (Cos (Y c' / 2 * pow2 k * F64.Pi))
                         (Sin (X c' / 2 * pow2 k * F64.Pi)) (Sin (Y c' / 2 * pow2 k * F64.Pi)))
       = Some v'
    /\ Rabs v <= 1 /\ Rabs v' <= 1
    /\ Rabs (v' - v) <= L * (2 * eps + 2 * powerRZ 2 (Z.of_nat k - 45)) + eta.
Proof.
  intros (x & y & x' & y' & Hx & Hy & Hx' & Hy' & Px & Py & Bx & By & Bx' & By') Hk.
  destruct (angle_wrap x x' k Px) as (nx & Ex).
  destruct (angle_wrap y y' k Py) as (ny & Ey).
  destruct (trig_wrap _ _ _ _ _ nx (angle_value _ _ k Hx Bx Hk)
              (angle_value _ _ k Hx' Bx' Hk) Ex) as (Cx & Sx).
  destruct (trig_wrap _ _ _ _ _ ny (angle_value _ _ k Hy By Hk)
              (angle_value _ _ k Hy' By' Hk) Ey) as (Cy & Sy).
  destruct (Noise4_continuous _ _ _ _ _ _ _ _ _ Cx Cy Sx Sy) as (v & v' & Hv & Hv' & E).
  destruct (closeTo_finite _ _ _ Cx) as (F1 & F1').
  destruct (closeTo_finite _ _ _ Cy) as (F2 & F2').
  destruct (closeTo_finite _ _ _ Sx) as (F3 & F3').
  destruct (closeTo_finite _ _ _ Sy) as (F4 & F4').
  destruct (Noise4_unit _ _ _ _ F1 F2 F3 F4) as (u & Hu & Bu).
  destruct (Noise4_unit _ _ _ _ F1' F2' F3' F4') as (u' & Hu' & Bu').
  rewrite Hv in Hu. rewrite Hv' in Hu'. injection Hu as <-. injection Hu' as <-.
  rewrite Rminus_0_r in Bu, Bu'.
  exists v, v'. repeat split; assumption.
Qed.

Lemma drift_step (k : nat) :
  drift eps L eta (S k)
  = drift eps L eta k + (2 * L * eps + eta) * powerRZ 2 (- Z.of_nat (S k))
    + L * powerRZ 2 (-44) + powerRZ 2 (-48).
Proof.
  unfold drift. rewrite Nat2Z.inj_succ, <- Z.add_1_r, plus_IZR.
  replace (- Z.of_nat k)%Z with (- (Z.of_nat k + 1) + 1)%Z by lia.
  rewrite (powerRZ_2_add (- (Z.of_nat k + 1)) 1).
  change (powerRZ 2 1) with (2 * 1). ring.
Qed.

Lemma torusLoop_wrap (n k : nat) (c c' : Vector) (acc acc' : float) (va va' : R) :
  worldWrap c c' -> (k + n <= 100)%nat ->
  F64.value acc = Some va -> F64.value acc' = Some va' ->
  Rabs va <= octaveBound k -> Rabs va' <= octaveBound k ->
  Rabs (va' - va) <= drift eps L eta k ->
  closeTo (torusLoop Cos Sin Noise4 n c (pow2 k) acc)
          (torusLoop Cos Sin Noise4 n c' (pow2 k) acc')
          (drift eps L eta (k + n)).
Proof.
  intros Hw. revert k acc acc' va va'.
  induction n as [|n IH]; intros k acc acc' va va' Hk Ha Ha' Hb Hb' Hd.
  - rewrite Nat.add_0_r. exists va, va'. repeat split; assumption.
  - cbn [torusLoop]. rewrite pow2_double.
    destruct (octave_wrap c c' (S k) Hw ltac:(lia)) as (vn & vn' & Hn & Hn' & Bn & Bn' & En).
    set (noise := Noise4 (Cos (X c / 2 * _ * _)%float) _ _ _) in *.
    set (noise' := Noise4 (Cos (X c' / 2 * _ * _)%float) _ _ _) in *.
    assert (Hp : Prim2SF (pow2 (S k))
                 = S754_finite false F64.two52 (Z.of_nat (S k) - 52)).
    { unfold pow2. apply of_int_pow2. lia. }
    set (Q := powerRZ 2 (- Z.of_nat (S k))) in *.
    assert (HQ : 0 < Q) by apply powerRZ_2_pos.
    assert (HQ2 : Q <= / 2).
    { change (/ 2) with (/ IZR (2 ^ 1)). rewrite <- (powerRZ_2_neg 1).
      apply powerRZ_2_le. lia. }
    assert (HPQ : powerRZ 2 (Z.of_nat (S k) - 45) * Q = powerRZ 2 (-45)).
    { unfold Q. rewrite <- powerRZ_2_add. f_equal. lia. }
    assert (Hunit : forall u, Rabs u <= 1 -> Rabs (u * Q) <= powerRZ 2 (-1)).
    { intros u Hu. change (powerRZ 2 (-1)) with (/ (2 * 1)).
      rewrite Rabs_mult, (Rabs_pos_eq Q) by lra.
      pose proof (Rabs_pos u).
      assert (Rabs u * Q <= 1 * Q) by (apply Rmult_le_compat_r; lra). lra. }
    destruct (div_pow2_approx noise (pow2 (S k)) vn (Z.of_nat (S k)) (-1) Hn Hp)
      as (t & Ht & Et); [now apply Hunit|lia|].
    destruct (div_pow2_approx noise' (pow2 (S k)) vn' (Z.of_nat (S k)) (-1) Hn' Hp)
      as (t' & Ht' & Et'); [now apply Hunit|lia|].
    fold Q in Et, Et'.
    change (Z.max (-1 - 52) (-1074)) with (-53)%Z in Et, Et'.
    rewrite powerRZ_2_neg in Et, Et'.
    change (2 ^ 53)%Z with 9007199254740992%Z in Et, Et'.
    apply Rabs_le_bounds in Et, Et'.
    pose proof (Rabs_le_bounds _ _ (Hunit vn Bn)) as Un.
    pose proof (Rabs_le_bounds _ _ (Hunit vn' Bn')) as Un'.
    change (powerRZ 2 (-1)) with (/ (2 * 1)) in Un, Un'.
    pose proof (octaveBound_range k ltac:(lia)) as Hr.
    pose proof (Rabs_le_bounds _ _ Hb) as Hva.
    pose proof (Rabs_le_bounds _ _ Hb') as Hva'.
    destruct (add_approx acc (noise / pow2 (S k)) va t 2 Ha Ht) as (s & Hs & Es & _);
      [change (powerRZ 2 2) with (2 * (2 * 1)); apply Rabs_le; lra|lia|].
    destruct (add_approx acc' (noise' / pow2 (S k)) va' t' 2 Ha' Ht') as (s' & Hs' & Es' & _);
      [change (powerRZ 2 2) with (2 * (2 * 1)); apply Rabs_le; lra|lia|].
    change (Z.max (2 - 52) (-1074)) with (-50)%Z in Es, Es'.
    rewrite powerRZ_2_neg in Es, Es'.
    change (2 ^ 50)%Z with 1125899906842624%Z in Es, Es'.
    apply Rabs_le_bounds in Es, Es'.
    replace (k + S n)%nat with (S k + n)%nat by lia.
    assert (HvQ : forall u, Rabs u <= 1 -> - Q <= u * Q <= Q).
    { intros u Hu. apply Rabs_le_bounds in Hu. split; nra. }
    pose proof (HvQ vn Bn) as Vn. pose proof (HvQ vn' Bn') as Vn'.
    apply (IH (S k) _ _ s s'); try assumption; try lia.
    + rewrite octaveBound_step. fold Q. apply Rabs_le. lra.
    + rewrite octaveBound_step. fold Q. apply Rabs_le. lra.
    + rewrite drift_step. fold Q.
      assert (EnQ : Rabs ((vn' - vn) * Q)
                    <= (2 * L * eps + eta) * Q + L * powerRZ 2 (-44)).
      { rewrite Rabs_mult, (Rabs_pos_eq Q) by lra.
        replace ((2 * L * eps + eta) * Q + L * powerRZ 2 (-44))
          with ((L * (2 * eps + 2 * powerRZ 2 (Z.of_nat (S k) - 45)) + eta) * Q).
        - apply Rmult_le_compat_r; lra.
        - replace (powerRZ 2 (-44)) with (2 * powerRZ 2 (-45)).
          + rewrite <- HPQ. ring.
          + rewrite !powerRZ_2_neg. change (2 ^ 45)%Z with 35184372088832%Z.
            change (2 ^ 44)%Z with 17592186044416%Z. lra. }
      apply Rabs_le_bounds in EnQ, Hd.
      rewrite (powerRZ_2_neg 48). change (2 ^ 48)%Z with 281474976710656%Z.
      apply Rabs_le. lra.
Qed.

Lemma drift_limit (n : nat) :
  (n <= 78)%nat -> drift eps L eta n <= wrapTolerance eps L eta.
Proof.
  intros Hn. unfold drift, wrapTolerance.
  pose proof eps_nonneg as He. pose proof L_nonneg as HL. pose proof eta_nonneg as Ht.
  assert (HLe : 0 <= L * eps) by (apply Rmult_le_pos; assumption).
  assert (H1 : 0 < powerRZ 2 (- Z.of_nat n)) by apply powerRZ_2_pos.
  assert (H3 : 0 <= IZR (Z.of_nat n) <= 78) by (split; apply IZR_le; lia).
  rewrite !powerRZ_2_neg.
  change (2 ^ 44)%Z with 17592186044416%Z. change (2 ^ 48)%Z with 281474976710656%Z.
  change (2 ^ 37)%Z with 137438953472%Z. change (2 ^ 41)%Z with 2199023255552%Z.
  set (Q := powerRZ 2 (- Z.of_nat n)) in *. set (N := IZR (Z.of_nat n)) in *.
  assert (T1 : (2 * L * eps + eta) * (2 - Q) <= (2 * L * eps + eta) * 2)
    by (apply Rmult_le_compat_l; lra).
  assert (T2 : (N + 1) * (L * / 17592186044416 + / 281474976710656)
               <= 128 * (L * / 17592186044416 + / 281474976710656))
    by (apply Rmult_le_compat_r; lra).
  lra.
Qed.

(** The base octave at two points one world period apart. *)
Lemma base_wrap (c c' : Vector) :
  worldWrap c c' ->
  exists v v',
    F64.value (Noise4 (Cos (X c / 2 * F64.Pi)) (Cos (Y c / 2 * F64.Pi))
                      (Sin (X c / 2 * F64.Pi)) (Sin (Y c / 2 * F64.Pi))) = Some v
    /\ F64.value (Noise4 (Cos (X c' / 2 * F64.Pi)) (Cos (Y c' / 2 * F64.Pi))
                         (Sin (X c' / 2 * F64.Pi)) (Sin (Y c' / 2 * F64.Pi))) = Some v'
    /\ Rabs v <= 1 /\ Rabs v' <= 1
    /\ Rabs (v' - v) <= L * (2 * eps + 2 * powerRZ 2 (-45)) + eta.
Proof.
  intros Hw. pose proof (octave_wrap c c' 0 Hw ltac:(lia)) as H.
  change (pow2 0) with 1%float in H. rewrite !float_mul_one in H. exact H.
Qed.

(** C2: on binary64 the elevation at two points of the world square and
    its neighbours that lie one world period (4) apart along x, along y or
    along both agrees within [wrapTolerance], at every zoom level a request
    can have.  [eps] is the accuracy of [math.Cos] and [math.Sin]; the noise
    primitive returns values within [-1, 1] and moves by at most
    [L * delta + eta] when its arguments move by [delta]. *)
Theorem simplexTorus_period_4 (c c' : Vector) (coords : TileCoords) :
  (GoInt.min_int <= coordZ coords <= 62)%Z ->
  worldWrap c c' ->
  closeTo (simplexTorus Cos Sin Noise4 c coords)
          (simplexTorus Cos Sin Noise4 c' coords)
          (wrapTolerance eps L eta).
Proof.
  intros Hz Hw. unfold simplexTorus, GoInt.add.
  rewrite wrap_int_small
    by (revert Hz; unfold GoInt.min_int, GoInt.max_int;
        change (2 ^ 63)%Z with 9223372036854775808%Z; lia).
  set (n := Z.to_nat (coordZ coords + 16)).
  assert (Hn : (n <= 78)%nat) by (unfold n; lia).
  destruct (base_wrap c c' Hw) as (v0 & v0' & H0 & H0' & B0 & B0' & E0).
  change 1%float with (pow2 0).
  assert (O0 : octaveBound 0 = 1).
  { unfold octaveBound. cbn [Z.of_nat Z.opp powerRZ]. lra. }
  apply closeTo_weaken with (drift eps L eta (0 + n)).
  - apply torusLoop_wrap with v0 v0'; try assumption; try lia; try (rewrite O0; assumption).
    eapply Rle_trans; [exact E0|]. unfold drift.
    change (powerRZ 2 (- Z.of_nat 0)) with 1. change (IZR (Z.of_nat 0)) with 0.
    rewrite !powerRZ_2_neg.
    change (2 ^ 44)%Z with 17592186044416%Z. change (2 ^ 48)%Z with 281474976710656%Z.
    change (2 ^ 45)%Z with 35184372088832%Z. lra.
  - apply drift_limit. exact Hn.
Qed.

End WrapAround.

Section SphereWrap.
Local Open Scope R_scope.

Variables Cos Sin : float -> float.
Variable Noise3 : float -> float -> float -> float.
Variables eps L eta : R.

Hypothesis Cos_accurate :
  forall a va, F64.value a = Some va -> within (Cos a) (cos va) eps.
Hypothesis Sin_accurate :
  forall a va, F64.value a = Some va -> within (Sin a) (sin va) eps.
Hypothesis Noise3_continuous :
  forall a b c a' b' c' delta,
    closeTo a a' delta -> closeTo b b' delta -> closeTo c c' delta ->
    closeTo (Noise3 a b c) (Noise3 a' b' c') (L * delta + eta).

(** X13: on binary64 [simplexSphere] wraps along x within a tolerance:
    at two points of the world square and its neighbours with the same y
    and x one world period (4) apart, the values differ by at most
    [L * (2 eps + 2^-44) + eta], for a noise primitive that moves by at most
    [L * delta + eta] when its arguments move by [delta] and [math.Cos],
    [math.Sin] accurate to [eps]. *)
Theorem simplexSphere_wraps_in_x (c c' : Vector) (coords coords' : TileCoords) :
  worldWrap c c' -> Y c' = Y c ->
  closeTo (simplexSphere Cos Sin Noise3 c coords)
          (simplexSphere Cos Sin Noise3 c' coords')
          (L * (2 * eps + powerRZ 2 (-44)) + eta).
Proof.
  intros (x & y & x' & y' & Hx & Hy & Hx' & Hy' & Px & Py & Bx & By & Bx' & By') HY.
  unfold simplexSphere. rewrite HY.
  destruct (angle_wrap x x' 0 Px) as (nx & Ex).
  cbn [Z.of_nat powerRZ] in Ex.
  replace (x' / 2 * 1 * PI) with (x' / 2 * PI) in Ex by ring.
  replace (x / 2 * 1 * PI) with (x / 2 * PI) in Ex by ring.
  destruct (trig_wrap Cos Sin eps Cos_accurate Sin_accurate _ _ _ _ _ nx
              (angle_value_0 _ _ Hx Bx) (angle_value_0 _ _ Hx' Bx') Ex) as (Cx & Sx).
  replace (powerRZ 2 (-44)) with (2 * powerRZ 2 (-45)).
  2:{ rewrite !powerRZ_2_neg. change (2 ^ 45)%Z with 35184372088832%Z.
      change (2 ^ 44)%Z with 17592186044416%Z. lra. }
  apply Noise3_continuous; try assumption.
  destruct (div_pow2_approx (Y c) 2%float y 1 2 Hy) as (h & Hh & _); try lia.
  { reflexivity. }
  { change (powerRZ 2 (Z.opp 1)) with (/ (2 * 1)). change (powerRZ 2 2) with (2 * (2 * 1)).
    apply Rabs_le_bounds in By. apply Rabs_le. lra. }
  exists h, h. repeat split; try assumption.
  rewrite Rminus_diag, Rabs_R0.
  destruct Cx as (u & u' & _ & _ & Hu). pose proof (Rabs_pos (u' - u)). lra.
Qed.

End SphereWrap.

(** ** The escape loop inside the disk of radius 1/4 *)

Section MandelbrotDisk.
Local Open Scope R_scope.
Variable Log : float -> float.

(** One exact step [z*z + c] from a small [z], for [c] in the disk of
    radius 1/4. *)
Lemma square_step_bound (a b x y q : R) :
  a * a + b * b <= 1 / 16 -> x * x + y * y <= q -> q <= 1 ->
  (x * x - y * y + a) * (x * x - y * y + a) + (2 * x * y + b) * (2 * x * y + b)
  <= (q + 1 / 4) * (q + 1 / 4).
Proof.
  intros Hc Hz Hq.
  set (u := x * x - y * y). set (v := 2 * x * y).
  set (s := x * x + y * y) in *.
  assert (Hs0 : 0 <= s) by (unfold s; nra).
  assert (Huv : u * u + v * v = s * s) by (unfold u, v, s; ring).
  clearbody u v s.
  assert (Hss : s * s <= q * q) by (apply Rmult_le_compat; lra).
  assert (Hcs : (a * a + b * b) * (u * u + v * v)
                = (a * u + b * v) * (a * u + b * v)
                  + (a * v - b * u) * (a * v - b * u)) by ring.
  pose proof (Rle_0_sqr (a * v - b * u)) as Hsq. unfold Rsqr in Hsq.
  assert (Hcc : 0 <= a * a + b * b) by nra.
  assert (Hp : (a * a + b * b) * (u * u + v * v) <= 1 / 16 * (q * q)).
  { rewrite Huv. apply Rmult_le_compat; try lra. apply Rmult_le_pos; lra. }
  assert (Hd : a * u + b * v <= q / 4).
  { destruct (Rle_dec (a * u + b * v) (q / 4)) as [|Hn]; [assumption|exfalso].
    assert (Hgt : q / 4 < a * u + b * v) by lra.
    assert (q / 4 * (q / 4) < (a * u + b * v) * (a * u + b * v))
      by (apply Rmult_le_0_lt_compat; lra).
    lra. }
  replace ((u + a) * (u + a) + (v + b) * (v + b))
    with ((u * u + v * v) + 2 * (a * u + b * v) + (a * a + b * b)) by ring.
  rewrite Huv. lra.
Qed.

Lemma square_le_1 (x y : R) : x * x + y * y <= 1 -> -1 <= x <= 1.
Proof. intros H. split; nra. Qed.

(** One step of [iterate] on binary64 from a small [z]: each coordinate is
    within [2^-50] of the exact one. *)
Lemma iterate_near (c z : Vector) (a b x y : R) :
  F64.value (X c) = Some a -> F64.value (Y c) = Some b ->
  F64.value (X z) = Some x -> F64.value (Y z) = Some y ->
  a * a + b * b <= 1 / 16 -> x * x + y * y <= 3 / 10 ->
  within (X (iterate c z)) (x * x - y * y + a) (powerRZ 2 (-50))
  /\ within (Y (iterate c z)) (2 * x * y + b) (powerRZ 2 (-50)).
Proof.
  intros Ha Hb Hx Hy Hc Hz.
  assert (Bx : -1 <= x <= 1) by (apply (square_le_1 x y); lra).
  assert (By : -1 <= y <= 1) by (apply (square_le_1 y x); lra).
  assert (Ba : -1 <= a <= 1) by (apply (square_le_1 a b); lra).
  assert (Bb : -1 <= b <= 1) by (apply (square_le_1 b a); lra).
  assert (Bxx : 0 <= x * x <= 3 / 10) by nra.
  assert (Byy : 0 <= y * y <= 3 / 10) by nra.
  assert (Baa : - (1 / 4) <= a <= 1 / 4) by (split; nra).
  assert (Bbb : - (1 / 4) <= b <= 1 / 4) by (split; nra).
  assert (Bxy : - (3 / 10) <= 2 * x * y <= 3 / 10).
  { pose proof (Rle_0_sqr (x - y)) as S1. pose proof (Rle_0_sqr (x + y)) as S2.
    unfold Rsqr in S1, S2. split; lra. }
  assert (E52 : powerRZ 2 (-52) = / 4503599627370496)
    by (rewrite powerRZ_2_neg; reflexivity).
  assert (E51 : powerRZ 2 (-51) = / 2251799813685248)
    by (rewrite powerRZ_2_neg; reflexivity).
  assert (E50 : powerRZ 2 (-50) = / 1125899906842624)
    by (rewrite powerRZ_2_neg; reflexivity).
  unfold iterate. cbn [X Y]. split.
  - destruct (mul_approx_signed (X z) (X z) x x 0 Hx Hx) as (p1 & H1 & E1); try lia.
    { cbn [powerRZ]. apply Rabs_le. lra. }
    destruct (mul_approx_signed (Y z) (Y z) y y 0 Hy Hy) as (p2 & H2 & E2); try lia.
    { cbn [powerRZ]. apply Rabs_le. lra. }
    change (Z.max (0 - 52) (-1074)) with (-52)%Z in E1, E2.
    rewrite E52 in E1, E2. apply Rabs_le_bounds in E1, E2.
    destruct (sub_approx _ _ p1 p2 0 H1 H2) as (d & Hd & Ed & _); try lia.
    { cbn [powerRZ]. apply Rabs_le. lra. }
    change (Z.max (0 - 52) (-1074)) with (-52)%Z in Ed.
    rewrite E52 in Ed. apply Rabs_le_bounds in Ed.
    destruct (add_approx _ _ d a 0 Hd Ha) as (s & Hs & Es & _); try lia.
    { cbn [powerRZ]. apply Rabs_le. lra. }
    change (Z.max (0 - 52) (-1074)) with (-52)%Z in Es.
    rewrite E52 in Es. apply Rabs_le_bounds in Es.
    exists s. split; [exact Hs|]. rewrite E50. apply Rabs_le. lra.
  - float_const 2%float W2.
    assert (V2 : F64.value 2%float = Some 2) by (rewrite W2; f_equal; lra).
    destruct (mul_approx_signed 2%float (X z) 2 x 1 V2 Hx) as (t1 & H1 & E1); try lia.
    { change (powerRZ 2 1) with (2 * 1). apply Rabs_le. lra. }
    change (Z.max (1 - 52) (-1074)) with (-51)%Z in E1.
    rewrite E51 in E1. apply Rabs_le_bounds in E1.
    assert (P12 : Rabs (t1 * y - 2 * x * y) <= / 2251799813685248).
    { replace (t1 * y - 2 * x * y) with ((t1 - 2 * x) * y) by ring.
      rewrite Rabs_mult.
      assert (Rabs (t1 - 2 * x) <= / 2251799813685248) by (apply Rabs_le; lra).
      assert (Rabs y <= 1) by (apply Rabs_le; lra).
      pose proof (Rabs_pos (t1 - 2 * x)). pose proof (Rabs_pos y).
      assert (Rabs (t1 - 2 * x) * Rabs y <= / 2251799813685248 * 1)
        by (apply Rmult_le_compat; lra).
      lra. }
    apply Rabs_le_bounds in P12.
    destruct (mul_approx_signed _ (Y z) t1 y 0 H1 Hy) as (t2 & H2 & E2); try lia.
    { cbn [powerRZ]. apply Rabs_le. lra. }
    change (Z.max (0 - 52) (-1074)) with (-52)%Z in E2.
    rewrite E52 in E2. apply Rabs_le_bounds in E2.
    destruct (add_approx _ _ t2 b 0 H2 Hb) as (s & Hs & Es & _); try lia.
    { cbn [powerRZ]. apply Rabs_le. lra. }
    change (Z.max (0 - 52) (-1074)) with (-52)%Z in Es.
    rewrite E52 in Es. apply Rabs_le_bounds in Es.
    exists s. split; [exact Hs|]. rewrite E50. apply Rabs_le. lra.
Qed.

(** The orbit on binary64 stays small: after a step from within squared
    radius [1/4 + d], [d <= 2^-30], it is within [1/4 + d + 2^-40]. *)
Lemma iterate_stays_small (c z : Vector) (a b x y d : R) :
  F64.value (X c) = Some a -> F64.value (Y c) = Some b ->
  F64.value (X z) = Some x -> F64.value (Y z) = Some y ->
  a * a + b * b <= 1 / 16 ->
  0 <= d <= / 1073741824 -> x * x + y * y <= 1 / 4 + d ->
  exists x' y',
    F64.value (X (iterate c z)) = Some x' /\ F64.value (Y (iterate c z)) = Some y'
    /\ x' * x' + y' * y' <= 1 / 4 + d + / 1099511627776.
Proof.
  intros Ha Hb Hx Hy Hc Hd Hz.
  destruct (iterate_near c z a b x y Ha Hb Hx Hy Hc ltac:(lra))
    as ((x' & Hx' & Ex) & (y' & Hy' & Ey)).
  exists x', y'. split; [exact Hx'|]. split; [exact Hy'|].
  rewrite powerRZ_2_neg in Ex, Ey.
  change (2 ^ 50)%Z with 1125899906842624%Z in Ex, Ey.
  pose proof (square_step_bound a b x y (1 / 4 + d) Hc Hz ltac:(lra)) as Hw.
  set (u := x * x - y * y + a) in *. set (v := 2 * x * y + b) in *.
  assert (Huv : u * u + v * v <= 1) by nra.
  assert (Bu : -1 <= u <= 1) by (apply (square_le_1 u v); lra).
  assert (Bv : -1 <= v <= 1) by (apply (square_le_1 v u); lra).
  clearbody u v. apply Rabs_le_bounds in Ex, Ey.
  set (e1 := x' - u) in *. set (e2 := y' - v) in *.
  replace x' with (u + e1) by (unfold e1; ring).
  replace y' with (v + e2) by (unfold e2; ring).
  clearbody e1 e2.
  assert (Hdd : d * d <= / 1073741824 * / 1073741824)
    by (apply Rmult_le_compat; lra).
  assert (T1 : -(/ 1125899906842624) <= u * e1 <= / 1125899906842624) by (split; nra).
  assert (T2 : -(/ 1125899906842624) <= v * e2 <= / 1125899906842624) by (split; nra).
  assert (T3 : e1 * e1 <= / 1125899906842624) by nra.
  assert (T4 : e2 * e2 <= / 1125899906842624) by nra.
  replace ((u + e1) * (u + e1) + (v + e2) * (v + e2))
    with (u * u + v * v + 2 * (u * e1) + 2 * (v * e2) + e1 * e1 + e2 * e2) by ring.
  replace ((1 / 4 + d + 1 / 4) * (1 / 4 + d + 1 / 4)) with (1 / 4 + d + d * d) in Hw by field.
  lra.
Qed.

Lemma escape_test_false (z : Vector) (x y : R) :
  F64.value (X z) = Some x -> F64.value (Y z) = Some y ->
  x * x + y * y <= 3 / 10 ->
  (4 <? X z * X z + Y z * Y z)%float = false.
Proof.
  intros Hx Hy Hz.
  assert (Bx : -1 <= x <= 1) by (apply (square_le_1 x y); lra).
  assert (By : -1 <= y <= 1) by (apply (square_le_1 y x); lra).
  assert (E52 : powerRZ 2 (-52) = / 4503599627370496)
    by (rewrite powerRZ_2_neg; reflexivity).
  destruct (mul_approx_signed (X z) (X z) x x 0 Hx Hx) as (p1 & H1 & E1); try lia.
  { cbn [powerRZ]. apply Rabs_le. split; nra. }
  destruct (mul_approx_signed (Y z) (Y z) y y 0 Hy Hy) as (p2 & H2 & E2); try lia.
  { cbn [powerRZ]. apply Rabs_le. split; nra. }
  change (Z.max (0 - 52) (-1074)) with (-52)%Z in E1, E2.
  rewrite E52 in E1, E2. apply Rabs_le_bounds in E1, E2.
  destruct (add_approx _ _ p1 p2 0 H1 H2) as (s & Hs & Es & _); try lia.
  { cbn [powerRZ]. apply Rabs_le. split; nra. }
  change (Z.max (0 - 52) (-1074)) with (-52)%Z in Es.
  rewrite E52 in Es. apply Rabs_le_bounds in Es.
  destruct (4 <? X z * X z + Y z * Y z)%float eqn:T; [exfalso|reflexivity].
  destruct (ltb_true_value _ _ s T Hs) as [Hinf|(v4 & H4 & Hlt)].
  - discriminate Hinf.
  - float_const 4%float W4. rewrite W4 in H4. injection H4 as <-. nra.
Qed.

Lemma mandelbrotLoop_inside (n k : nat) (c z : Vector) (i : Z) (a b x y : R) :
  F64.value (X c) = Some a -> F64.value (Y c) = Some b ->
  a * a + b * b <= 1 / 16 ->
  F64.value (X z) = Some x -> F64.value (Y z) = Some y ->
  (k + n <= 1024)%nat ->
  x * x + y * y <= 1 / 4 + IZR (Z.of_nat k) / 1099511627776 ->
  mandelbrotLoop Log n c z i = 0%float.
Proof.
  intros Ha Hb Hc. revert k z i x y.
  induction n as [|n IH]; intros k z i x y Hx Hy Hk Hz; cbn [mandelbrotLoop];
    [reflexivity|].
  cbv zeta.
  assert (Hkr : 0 <= IZR (Z.of_nat k) <= 1024) by (split; apply IZR_le; lia).
  destruct (iterate_stays_small c z a b x y (IZR (Z.of_nat k) / 1099511627776)
              Ha Hb Hx Hy Hc ltac:(lra) Hz) as (x' & y' & Hx' & Hy' & Hz').
  rewrite (escape_test_false _ x' y' Hx' Hy') by lra.
  apply (IH (S k) _ _ x' y' Hx' Hy'); [lia|].
  rewrite Nat2Z.inj_succ, <- Z.add_1_r, plus_IZR. lra.
Qed.

(** X20: on binary64 every point of the disk of radius 1/4 around the
    origin is reported as a point of the set: the orbit, roundings
    included, stays within radius 0.55, the escape test never fires in the
    1000 rounds and [mandelbrot] returns 0. *)
Theorem mandelbrot_inner_disk (c : Vector) (a b : R) :
  F64.value (X c) = Some a -> F64.value (Y c) = Some b ->
  a * a + b * b <= 1 / 16 ->
  mandelbrot Log c = 0%float.
Proof.
  intros Ha Hb Hc. unfold mandelbrot.
  apply (mandelbrotLoop_inside 1000 0 c _ 0 a b 0 0 Ha Hb Hc); try reflexivity; try lia.
  cbn [Z.of_nat]. lra.
Qed.

End MandelbrotDisk.

(** ** [math.Mod] *)

Section Remainder.
Local Open Scope Z_scope.

Lemma canonical_low n :
  Zpos (digits2_pos n) <= 53 -> canonical_mantissa prec emax n (-1074) = true.
Proof.
  intros Hd. unfold canonical_mantissa, fexp, SpecFloat.emin.
  change prec with 53. change emax with 1024.
  apply Z.eqb_eq. lia.
Qed.

Lemma digits2_pos_lt p k : Zpos p < 2 ^ k -> 0 <= k -> Zpos (digits2_pos p) <= k.
Proof.
  intros Hp Hk.
  destruct (Z_le_gt_dec (Zpos (digits2_pos p)) k) as [|Hgt]; [assumption|exfalso].
  pose proof (pos_ge_pow2_digits p) as Hge.
  assert (2 ^ k <= 2 ^ (Zpos (digits2_pos p) - 1)) by (apply Z.pow_le_mono_r; lia).
  lia.
Qed.

(** Every positive integer below [2^53], scaled by a power of two from
    the smallest exponent up, is a binary64. *)
Lemma representable_pos (p : positive) (E : Z) (s : bool) :
  Zpos p < 2 ^ 53 -> -1074 <= E <= 971 ->
  exists n e,
    canonical_mantissa prec emax n e = true /\ e <= 971
    /\ (IZR (Zpos p) * powerRZ 2 E = IZR (Zpos n) * powerRZ 2 e)%R.
Proof.
  intros Hp HE.
  assert (Hd : Zpos (digits2_pos p) <= 53) by (apply digits2_pos_lt; lia).
  set (k := Z.min (53 - Zpos (digits2_pos p)) (E + 1074)).
  assert (Hk : 0 <= k) by (unfold k; lia).
  destruct k as [|j|j] eqn:Ek; [| |lia].
  - exists p, E. split; [|split; [lia|reflexivity]].
    destruct (Z.eq_dec E (-1074)) as [->|Hne]; [now apply canonical_low|].
    apply canonical_normal; lia.
  - exists (Pos.iter xO p j), (E - Zpos j).
    assert (Hdj : Zpos (digits2_pos (Pos.iter xO p j)) = Zpos (digits2_pos p) + Zpos j)
      by (rewrite digits2_pos_shift; lia).
    split; [|split; [lia|]].
    + destruct (Z.eq_dec (E - Zpos j) (-1074)) as [->|Hne].
      * apply canonical_low. lia.
      * apply canonical_normal; lia.
    + rewrite pos_iter_xO, mult_IZR, <- powerRZ_2_nonneg by lia.
      replace E with (Zpos j + (E - Zpos j)) at 1 by lia.
      rewrite powerRZ_2_add. ring.
Qed.

Lemma normalize_representable (r : positive) (E : Z) (sx : bool) :
  Zpos r < 2 ^ 53 -> -1074 <= E <= 971 ->
  F64.value (SF2Prim (binary_normalize prec emax
                        (if sx then (- Zpos r) else Zpos r) E false))
  = Some (signR sx * (IZR (Zpos r) * powerRZ 2 E))%R.
Proof.
  intros Hr HE.
  destruct (representable_pos r E sx Hr HE) as (n & e & Hc & He & Hv).
  assert (Hn : binary_normalize prec emax (if sx then (- Zpos r) else Zpos r) E false
               = S754_finite sx n e).
  { apply normalize_exact; try assumption.
    unfold F64.SFval. destruct sx.
    - rewrite opp_IZR. lra.
    - exact Hv. }
  rewrite Hn. unfold F64.value. rewrite Prim2SF_finite by assumption.
  f_equal. rewrite SFval_signR, Hv. reflexivity.
Qed.

Lemma valid_mantissa (f : float) s m e :
  Prim2SF f = S754_finite s m e ->
  Zpos m < 2 ^ 53 /\ -1074 <= e <= 971.
Proof.
  intros Hf. pose proof (Prim2SF_valid f) as V. rewrite Hf in V.
  destruct (canonical_of_valid _ _ _ V) as [C He].
  destruct (canonical_emin _ _ C) as [Hlo Hd].
  pose proof (mantissa_upper m Hd) as Hu. apply lt_IZR in Hu. lia.
Qed.

(** [math.Mod] on finite arguments: the result is finite, it differs from
    [x] by a whole multiple of [y], it is smaller than [y] in magnitude and
    it has the sign of [x]; it is [-0] when [x] is a negative multiple. *)
Lemma Mod_value (x y : float) (vx : R) sy my ey :
  F64.value x = Some vx -> Prim2SF y = S754_finite sy my ey ->
  exists v k,
    F64.value (F64.Mod x y) = Some v
    /\ (vx = IZR k * (IZR (Zpos my) * powerRZ 2 ey) + v)%R
    /\ (Rabs v < IZR (Zpos my) * powerRZ 2 ey)%R
    /\ (0 <= vx -> 0 <= v)%R /\ (vx <= 0 -> v <= 0)%R
    /\ ((vx < 0)%R -> v = 0%R -> F64.Mod x y = neg_zero).
Proof.
  intros Hx Hy. unfold F64.Mod. rewrite Hy.
  pose proof (SFval_pos my ey) as Hypos.
  unfold F64.value in Hx.
  destruct (Prim2SF x) as [sx|sx| |sx mx ex] eqn:Ex; try discriminate.
  - injection Hx as <-. exists 0%R, 0. unfold F64.value. rewrite Ex.
    repeat split; try lra. rewrite Rabs_R0. lra.
  - injection Hx as <-.
    destruct (valid_mantissa x _ _ _ Ex) as [Hmx Hex].
    destruct (valid_mantissa y _ _ _ Hy) as [Hmy Hey].
    set (e := Z.min ex ey).
    set (A := Zpos mx * 2 ^ (ex - e)). set (B := Zpos my * 2 ^ (ey - e)).
    assert (HA : 0 < A) by (unfold A, e; apply Z.mul_pos_pos; [lia|apply Z.pow_pos_nonneg; lia]).
    assert (HB : 0 < B) by (unfold B, e; apply Z.mul_pos_pos; [lia|apply Z.pow_pos_nonneg; lia]).
    pose proof (Z.rem_bound_pos A B ltac:(lia) HB) as Hr.
    pose proof (Z.quot_rem' A B) as Hqr.
    assert (Hq : 0 <= Z.quot A B) by (apply Z.quot_pos; lia).
    set (r := Z.rem A B) in *. set (q := Z.quot A B) in *.
    assert (HAv : (IZR (Zpos mx) * powerRZ 2 ex = IZR A * powerRZ 2 e)%R).
    { unfold A. rewrite mult_IZR, <- powerRZ_2_nonneg by (unfold e; lia).
      replace ex with ((ex - e) + e) at 1 by lia. rewrite powerRZ_2_add. ring. }
    assert (HBv : (IZR (Zpos my) * powerRZ 2 ey = IZR B * powerRZ 2 e)%R).
    { unfold B. rewrite mult_IZR, <- powerRZ_2_nonneg by (unfold e; lia).
      replace ey with ((ey - e) + e) at 1 by lia. rewrite powerRZ_2_add. ring. }
    assert (Hr53 : r < 2 ^ 53).
    { destruct (Z.le_ge_cases ex ey).
      - assert (A = Zpos mx) by (unfold A, e; rewrite Z.min_l, Z.sub_diag by lia; lia).
        assert (r <= A) by (unfold r; apply Z.rem_le; lia). lia.
      - assert (B = Zpos my) by (unfold B, e; rewrite Z.min_r, Z.sub_diag by lia; lia).
        lia. }
    pose proof (powerRZ_2_pos e) as Hpe.
    assert (Hdecomp : (F64.SFval sx mx ex
                       = IZR (if sx then - q else q) * (IZR (Zpos my) * powerRZ 2 ey)
                         + signR sx * (IZR r * powerRZ 2 e))%R).
    { rewrite SFval_signR, HAv, HBv, Hqr, plus_IZR, mult_IZR.
      destruct sx; [rewrite opp_IZR|]; unfold signR; ring. }
    assert (Hrv : (0 <= IZR r * powerRZ 2 e < IZR (Zpos my) * powerRZ 2 ey)%R).
    { rewrite HBv. split.
      - apply Rmult_le_pos; [apply IZR_le; lia|lra].
      - apply Rmult_lt_compat_r; [lra|apply IZR_lt; lia]. }
    pose proof (SFval_sign sx mx ex) as Hsg.
    exists (signR sx * (IZR r * powerRZ 2 e))%R, (if sx then - q else q).
    assert (Hval : F64.value
                     (if r =? 0 then if sx then neg_zero else 0%float
                      else SF2Prim (binary_normalize prec emax
                                      (if sx then - r else r) e false))
                   = Some (signR sx * (IZR r * powerRZ 2 e))%R).
    { destruct (Z.eqb_spec r 0) as [E0|N0].
      - rewrite E0, Rmult_0_l, Rmult_0_r. destruct sx; reflexivity.
      - destruct r as [|pr|pr]; try lia.
        apply normalize_representable; [lia|unfold e; lia]. }
    split; [exact Hval|]. split; [exact Hdecomp|].
    split; [|split; [|split]].
    + rewrite Rabs_mult, Rabs_signR, Rmult_1_l, Rabs_pos_eq; lra.
    + intros H0. destruct sx; [lra|]. unfold signR. lra.
    + intros H0. destruct sx; [|lra]. unfold signR. lra.
    + intros Hneg Hz. destruct sx; [|lra].
      assert (r = 0).
      { unfold signR in Hz.
        assert (Hz' : (IZR r * powerRZ 2 e = 0)%R) by lra.
        apply Rmult_integral in Hz'. destruct Hz' as [Hz'|Hz']; [|lra].
        now apply eq_IZR. }
      destruct (Z.eqb_spec r 0); [reflexivity|contradiction].
Qed.

End Remainder.

(** ** Division below a bound *)

Section QuotientBound.
Local Open Scope Z_scope.

(** A quotient of positive floats that is below a bound the format holds
    on the grid of the result stays at or below the bound after rounding. *)
Lemma div_below (a b : float) (va vb : R) (K E Mb : Z) :
  F64.value a = Some va -> F64.value b = Some vb ->
  (0 <= va)%R -> (0 < vb)%R ->
  (va / vb < IZR Mb * powerRZ 2 E)%R -> (va / vb <= powerRZ 2 K)%R ->
  K <= 1021 -> Z.max (K - 52) (-1074) <= E ->
  exists v, F64.value (a / b) = Some v /\ (0 <= v <= IZR Mb * powerRZ 2 E)%R.
Proof.
  intros Ha Hb Hva Hvb Hlt HK HK1 HE.
  assert (Hbound : (0 <= IZR Mb * powerRZ 2 E)%R).
  { assert (0 <= va / vb)%R by (apply Rmult_le_pos; [lra|apply Rlt_le, Rinv_0_lt_compat; lra]).
    lra. }
  rewrite value_SFreal, div_spec.
  pose proof (Prim2SF_valid a) as Va. pose proof (Prim2SF_valid b) as Vb.
  rewrite value_SFreal in Ha, Hb.
  destruct (Prim2SF b) as [sb|sb| |sb mb eb]; try discriminate;
    cbn [SFreal] in Hb; injection Hb as <-; [lra|].
  pose proof (SFval_sign sb mb eb) as Sb.
  destruct sb; [exfalso; lra|]. clear Sb.
  destruct (Prim2SF a) as [sa|sa| |sa ma ea]; try discriminate;
    cbn [SFreal] in Ha; injection Ha as <-.
  - exists 0%R. split; [reflexivity|lra].
  - pose proof (SFval_sign sa ma ea) as Sa.
    destruct sa; [exfalso; lra|]. clear Sa.
    destruct (canonical_of_valid _ _ _ Va) as [Ca Ea].
    destruct (canonical_of_valid _ _ _ Vb) as [Cb Eb].
    unfold F64.SFval in *.
    pose proof (SFval_pos ma ea) as Pa. pose proof (SFval_pos mb eb) as Pb.
    set (d1 := Zpos (digits2_pos ma)). set (d2 := Zpos (digits2_pos mb)).
    pose proof (pos_lt_pow2_digits mb) as Ub. fold d2 in Ub.
    pose proof (pos_ge_pow2_digits ma) as La. fold d1 in La.
    (* the magnitude of the exact quotient *)
    assert (Hmag : d1 + ea - (d2 + eb) <= K).
    { destruct (Z_le_gt_dec (d1 + ea - (d2 + eb)) K) as [|Hgt]; [assumption|exfalso].
      assert (H1 : (powerRZ 2 (d1 - 1 + ea) <= IZR (Zpos ma) * powerRZ 2 ea)%R).
      { rewrite powerRZ_2_add, (powerRZ_2_nonneg (d1 - 1)) by (unfold d1; lia).
        apply Rmult_le_compat_r; [apply Rlt_le, powerRZ_2_pos|apply IZR_le; lia]. }
      assert (H2 : (IZR (Zpos mb) * powerRZ 2 eb < powerRZ 2 (d2 + eb))%R).
      { rewrite powerRZ_2_add, (powerRZ_2_nonneg d2) by (unfold d2; lia).
        apply Rmult_lt_compat_r; [apply powerRZ_2_pos|apply IZR_lt; lia]. }
      assert (H3 : (powerRZ 2 (K + (d2 + eb)) <= powerRZ 2 (d1 - 1 + ea))%R)
        by (apply powerRZ_2_le; lia).
      rewrite powerRZ_2_add in H3.
      assert (H4 : (IZR (Zpos ma) * powerRZ 2 ea
                    <= powerRZ 2 K * (IZR (Zpos mb) * powerRZ 2 eb))%R).
      { set (D := (IZR (Zpos mb) * powerRZ 2 eb)%R) in *.
        set (N := (IZR (Zpos ma) * powerRZ 2 ea)%R) in *.
        replace N with (N / D * D)%R by (field; lra).
        apply Rmult_le_compat_r; lra. }
      pose proof (powerRZ_2_pos K) as PK.
      assert (H5 : (powerRZ 2 K * (IZR (Zpos mb) * powerRZ 2 eb)
                    < powerRZ 2 K * powerRZ 2 (d2 + eb))%R)
        by (apply Rmult_lt_compat_l; lra).
      lra. }
    unfold SF64div, SFdiv, SFdiv_core_binary. cbn [Zdigits2 xorb].
    fold d1 d2.
    set (e' := Z.min (fexp prec emax (d1 + ea - (d2 + eb))) (ea - eb)).
    assert (He' : e' <= Z.max (K - 52) (-1074)).
    { pose proof (fexp_mono _ _ Hmag) as Hf. rewrite (fexp_eq K) in Hf.
      unfold e'. lia. }
    set (s := ea - eb - e').
    assert (Hs : 0 <= s) by (unfold s, e'; lia).
    set (m' := match s with
               | 0 => Zpos ma
               | Zpos _ => Z.shiftl (Zpos ma) s
               | Zneg _ => 0
               end).
    assert (Hm' : m' = Zpos ma * 2 ^ s).
    { unfold m'. destruct s as [|ps|ps] eqn:Es; try lia.
      apply Z.shiftl_mul_pow2. lia. }
    assert (Hm'pos : 0 < m').
    { rewrite Hm'. apply Z.mul_pos_pos; [lia|apply Z.pow_pos_nonneg; lia]. }
    destruct (Z.div_eucl m' (Zpos mb)) as [q r] eqn:Hqr.
    assert (Hq : q = m' / Zpos mb) by (unfold Z.div; now rewrite Hqr).
    assert (Hq0 : 0 <= q) by (rewrite Hq; apply Z.div_pos; lia).
    (* the exact quotient, scaled *)
    set (Qx := (IZR (Zpos ma) * powerRZ 2 ea / (IZR (Zpos mb) * powerRZ 2 eb))%R) in *.
    assert (HQx : (Qx * IZR (Zpos mb) = IZR m' * powerRZ 2 e')%R).
    { unfold Qx. rewrite Hm', mult_IZR, <- powerRZ_2_nonneg by lia.
      replace ea with (s + e' + eb) at 1 by (unfold s; lia).
      rewrite !powerRZ_2_add. field.
      split; apply Rgt_not_eq; [apply powerRZ_2_pos|apply IZR_lt; lia]. }
    pose proof (powerRZ_2_pos e') as Pe'.
    assert (Hmbpos : (0 < IZR (Zpos mb))%R) by (apply IZR_lt; lia).
    assert (Hqx : (IZR q * powerRZ 2 e' <= Qx)%R).
    { pose proof (Z.mul_div_le m' (Zpos mb) ltac:(lia)) as Hle.
      rewrite <- Hq in Hle. apply IZR_le in Hle. rewrite mult_IZR in Hle.
      apply Rmult_le_reg_r with (IZR (Zpos mb)); [exact Hmbpos|].
      rewrite HQx.
      replace (IZR q * powerRZ 2 e' * IZR (Zpos mb))%R
        with (IZR (Zpos mb) * IZR q * powerRZ 2 e')%R by ring.
      apply Rmult_le_compat_r; lra. }
    assert (Hfq : fexp prec emax (Zdigits2 q + e') <= Z.max (K - 52) (-1074)).
    { destruct q as [|pq|pq]; try lia.
      - cbn [Zdigits2]. rewrite fexp_eq. lia.
      - cbn [Zdigits2]. apply fexp_of_magnitude. lra. }
    destruct (bra_general false q e' (new_location (Zpos mb) r) Hq0)
      as (m1 & Hm1 & Hv); [lia|].
    set (e1 := Z.max e' (fexp prec emax (Zdigits2 q + e'))) in *.
    rewrite Hv. eexists. split; [reflexivity|].
    unfold signR. rewrite Rmult_1_l.
    pose proof (powerRZ_2_pos e1) as Pe1.
    assert (Hn : 0 <= e1 - e') by (unfold e1; lia).
    assert (Hpn : 0 < 2 ^ (e1 - e')) by (apply Z.pow_pos_nonneg; lia).
    assert (Hfl : 0 <= q / 2 ^ (e1 - e')) by (apply Z.div_pos; lia).
    split; [apply Rmult_le_pos; [apply IZR_le; lia|lra]|].
    (* the floor of the quotient is below the bound on the grid *)
    assert (HE1 : e1 <= E) by (unfold e1; lia).
    assert (Hgrid : (IZR Mb * powerRZ 2 E
                     = IZR (Mb * 2 ^ (E - e1)) * powerRZ 2 e1)%R).
    { rewrite mult_IZR, <- powerRZ_2_nonneg by lia.
      replace E with ((E - e1) + e1) at 1 by lia. rewrite powerRZ_2_add. ring. }
    rewrite Hgrid in *.
    apply Rmult_le_compat_r; [lra|]. apply IZR_le.
    assert (Hfloor : (IZR (q / 2 ^ (e1 - e')) * powerRZ 2 e1 <= IZR q * powerRZ 2 e')%R).
    { pose proof (Z.mul_div_le q (2 ^ (e1 - e')) Hpn) as Hle.
      apply IZR_le in Hle. rewrite mult_IZR, <- powerRZ_2_nonneg in Hle by lia.
      replace (powerRZ 2 e1) with (powerRZ 2 (e1 - e') * powerRZ 2 e')%R
        by (rewrite <- powerRZ_2_add; f_equal; lia).
      replace (IZR (q / 2 ^ (e1 - e')) * (powerRZ 2 (e1 - e') * powerRZ 2 e'))%R
        with (powerRZ 2 (e1 - e') * IZR (q / 2 ^ (e1 - e')) * powerRZ 2 e')%R by ring.
      apply Rmult_le_compat_r; lra. }
    assert (Hstrict : (IZR (q / 2 ^ (e1 - e')) < IZR (Mb * 2 ^ (E - e1)))%R).
    { apply Rmult_lt_reg_r with (powerRZ 2 e1); [exact Pe1|]. lra. }
    apply lt_IZR in Hstrict. lia.
Qed.

End QuotientBound.

(** ** Comparisons by value *)

Section Comparisons.
Local Open Scope R_scope.

(** The comparison [<=] of two finite floats whose values are in that
    order holds. *)
Lemma leb_of_value (a b : float) (va vb : R) :
  F64.value a = Some va -> F64.value b = Some vb -> va <= vb ->
  (a <=? b)%float = true.
Proof.
  unfold F64.value. intros Ha Hb Hle. rewrite leb_spec.
  pose proof (Prim2SF_valid a) as Va. pose proof (Prim2SF_valid b) as Vb.
  destruct (Prim2SF a) as [sa|sa| |sa ma ea]; try discriminate;
    destruct (Prim2SF b) as [sb|sb| |sb mb eb]; try discriminate;
    injection Ha as <-; injection Hb as <-.
  - reflexivity.
  - pose proof (SFval_sign sb mb eb). destruct sb; [lra|reflexivity].
  - pose proof (SFval_sign sa ma ea). destruct sa; [reflexivity|lra].
  - destruct (canonical_of_valid _ _ _ Va) as [Ca _].
    destruct (canonical_of_valid _ _ _ Vb) as [Cb _].
    pose proof (SFval_sign sa ma ea) as Sa. pose proof (SFval_sign sb mb eb) as Sb.
    pose proof (mag_compare_spec ma mb ea eb Ca Cb) as Hc.
    unfold SFleb, SFcompare.
    change (Pos.compare_cont Eq ma mb) with (Pos.compare ma mb).
    unfold F64.SFval in *.
    destruct sa, sb; try reflexivity; try lra; revert Hc;
      destruct (ea ?= eb)%Z; try destruct (ma ?= mb)%positive;
      cbn [CompOpp]; intros Hc; try reflexivity; lra.
Qed.

(** The comparison [<] of two finite floats whose values are in the
    opposite order fails. *)
Lemma ltb_false_of_value (a b : float) (va vb : R) :
  F64.value a = Some va -> F64.value b = Some vb -> vb <= va ->
  (a <? b)%float = false.
Proof.
  intros Ha Hb Hle. destruct (a <? b)%float eqn:T; [exfalso|reflexivity].
  destruct (ltb_true_value a b vb T Hb) as [Hinf|(va' & Ha' & Hlt)].
  - unfold F64.value in Ha. rewrite Hinf in Ha. discriminate.
  - rewrite Ha in Ha'. injection Ha' as <-. lra.
Qed.

Lemma abs_value (a : float) (va : R) :
  F64.value a = Some va -> F64.value (abs a) = Some (Rabs va).
Proof.
  unfold F64.value. rewrite abs_spec.
  destruct (Prim2SF a) as [sa|sa| |sa ma ea]; try discriminate; intros [= <-].
  - cbn [SFabs]. now rewrite Rabs_R0.
  - cbn [SFabs]. f_equal. pose proof (SFval_pos ma ea) as Hp.
    unfold F64.SFval. destruct sa.
    + rewrite Rabs_left; lra.
    + rewrite Rabs_pos_eq; lra.
Qed.

End Comparisons.

(** ** The HSL helper on binary64 *)

Section HalfLightness.
Local Open Scope R_scope.

(** The weight [1 - |Mod(hueAdj, 2) - 1|] of [hslToRGB] for a hue fraction
    that is not negative: finite and, roundings included, between 0 and 1. *)
Lemma sector_weight (hueAdj : float) (a : R) :
  F64.value hueAdj = Some a -> 0 <= a ->
  exists w,
    F64.value (1 - abs (F64.Mod hueAdj 2 - 1))%float = Some w
    /\ - / 16 <= w <= 17 / 16.
Proof.
  intros Ha Ha0.
  float_const 1%float W1.
  assert (V1 : F64.value 1%float = Some 1) by (rewrite W1; f_equal; lra).
  destruct (Mod_value hueAdj 2%float a false F64.two52 (-51) Ha eq_refl)
    as (v & k & Hv & _ & Bv & Pv & _).
  specialize (Pv Ha0).
  assert (E2 : IZR (Z.pos F64.two52) * powerRZ 2 (-51) = 2).
  { rewrite powerRZ_2_neg. change (IZR (Z.pos F64.two52)) with (IZR 4503599627370496).
    change (2 ^ 51)%Z with 2251799813685248%Z. lra. }
  rewrite E2 in Bv. rewrite Rabs_pos_eq in Bv by lra.
  assert (E51 : powerRZ 2 (-51) = / 2251799813685248)
    by (rewrite powerRZ_2_neg; reflexivity).
  destruct (sub_approx _ _ v 1 1 Hv V1) as (d & Hd & Ed & _); try lia.
  { change (powerRZ 2 1) with (2 * 1). apply Rabs_le. lra. }
  change (Z.max (1 - 52) (-1074)) with (-51)%Z in Ed. rewrite E51 in Ed.
  apply Rabs_le_bounds in Ed.
  pose proof (abs_value _ _ Hd) as Had.
  assert (Bad : 0 <= Rabs d <= 1 + / 2251799813685248).
  { split; [apply Rabs_pos|]. apply Rabs_le. lra. }
  destruct (sub_approx _ _ 1 (Rabs d) 1 V1 Had) as (w & Hw & Ew & _); try lia.
  { change (powerRZ 2 1) with (2 * 1). apply Rabs_le. lra. }
  change (Z.max (1 - 52) (-1074)) with (-51)%Z in Ew. rewrite E51 in Ew.
  apply Rabs_le_bounds in Ew.
  exists w. split; [exact Hw|]. lra.
Qed.

(** The sector coordinate [x] of [hslToRGB] at chroma 1/2. *)
Lemma sector_coordinate (hueAdj : float) (a : R) :
  F64.value hueAdj = Some a -> 0 <= a ->
  exists vx,
    F64.value (0.5 * (1 - abs (F64.Mod hueAdj 2 - 1)))%float = Some vx
    /\ - / 8 <= vx <= 5 / 8.
Proof.
  intros Ha Ha0.
  float_const 0.5%float W5.
  assert (V5 : F64.value 0.5%float = Some (/ 2)) by (rewrite W5; f_equal; lra).
  destruct (sector_weight hueAdj a Ha Ha0) as (w & Hw & Bw).
  destruct (mul_approx_signed _ _ (/ 2) w 0 V5 Hw) as (vx & Hx & Ex); try lia.
  { cbn [powerRZ]. apply Rabs_le. lra. }
  change (Z.max (0 - 52) (-1074)) with (-52)%Z in Ex.
  rewrite powerRZ_2_neg in Ex. change (2 ^ 52)%Z with 4503599627370496%Z in Ex.
  apply Rabs_le_bounds in Ex.
  exists vx. split; [exact Hx|]. lra.
Qed.

(** A value of 360 is the float 360. *)
Lemma float_of_value_360 (h : float) : F64.value h = Some 360 -> h = 360%float.
Proof.
  intros H. apply (exactly_inj h 360%float 360).
  - unfold F64.value in H. pose proof (Prim2SF_valid h) as V.
    destruct (Prim2SF h) as [s|s| |s m e] eqn:E; try discriminate.
    + injection H as H. lra.
    + injection H as H. destruct (canonical_of_valid _ _ _ V) as [C He].
      destruct (canonical_emin _ _ C) as [Hlo Hd].
      apply (exactly_finite h s m e); try assumption; [|now symmetry].
      split; [|exact He].
      destruct (Z.eq_dec e (-1074)) as [->|]; [exfalso|lia].
      pose proof (mantissa_upper m Hd) as Hu.
      pose proof (SFval_sign s m (-1074)) as Sg. rewrite H in Sg.
      destruct s; [lra|].
      unfold F64.SFval in H.
      assert (Hp : powerRZ 2 (-1074) <= powerRZ 2 (-53)) by (apply powerRZ_2_le; lia).
      pose proof (powerRZ_2_pos (-1074)) as Hp0.
      rewrite (powerRZ_2_neg 53) in Hp.
      assert (0 < IZR (Z.pos m)) by (apply IZR_lt; lia).
      assert (IZR (Z.pos m) * powerRZ 2 (-1074) <= IZR (2 ^ 53) * / IZR (2 ^ 53))
        by (apply Rmult_le_compat; lra).
      rewrite Rinv_r in * by (apply Rgt_not_eq, IZR_lt; reflexivity). lra.
  - apply (exactly_finite _ false 6333186975989760 (-44)); try reflexivity; try lia.
    unfold F64.SFval. rewrite powerRZ_2_neg.
    change (2 ^ 44)%Z with 17592186044416%Z. lra.
Qed.

(** The hue fraction [hue / 60] of every finite hue that passes the check of
    [hslToRGB] is finite and between 0 and 6: rounding does not take it
    past 6, so the switch has a case for it. *)
Lemma hue_fraction (h : float) (vh : R) :
  F64.value h = Some vh -> 0 <= vh <= 360 ->
  exists a, F64.value (h / 60)%float = Some a /\ 0 <= a <= 6.
Proof.
  intros Hh Hr. float_const 60%float W60.
  destruct (Req_dec vh 360) as [E|N].
  - subst vh. rewrite (float_of_value_360 h Hh).
    change (360 / 60)%float with 6%float.
    float_const 6%float W6. eexists. split; [exact W6|]. lra.
  - destruct (div_below h 60%float vh _ 3 1 3 Hh W60) as (a & Ha & Ba);
      try lia; try lra.
    { change (powerRZ 2 1) with (2 * 1). lra. }
    { change (powerRZ 2 3) with (2 * (2 * (2 * 1))). lra. }
    change (powerRZ 2 1) with (2 * 1) in Ba.
    exists a. split; [exact Ha|]. lra.
Qed.

(** [hslToRGB] at saturation and lightness one half, as [colourise] calls
    it, returns a colour for every finite hue from 0 to 360. *)
Lemma hslToRGB_half (h : float) (vh : R) :
  F64.value h = Some vh -> 0 <= vh <= 360 ->
  exists p, hslToRGB h 0.5 0.5 = Returns p.
Proof.
  intros Hh Hr.
  float_const 360%float W360. float_const 60%float W60.
  float_const 6%float W6. float_const 0.25%float W25. float_const 1%float W1.
  unfold hslToRGB.
  rewrite (ltb_false_of_value h 0 vh 0 Hh eq_refl) by lra.
  rewrite (ltb_false_of_value 360 h _ vh W360 Hh) by lra.
  cbn [orb].
  change (0.5 <? 0)%float with false. change (1 <? 0.5)%float with false.
  cbn [orb]. cbv zeta.
  change ((1 - abs (2 * 0.5 - 1)) * 0.5)%float with 0.5%float.
  change (0.5 - 0.5 * 0.5)%float with 0.25%float.
  (* the hue fraction *)
  destruct (hue_fraction h vh Hh Hr) as (a & Ha & Ba).
  destruct (sector_coordinate _ a Ha ltac:(lra)) as (vx & Hx & Bx).
  set (x := (0.5 * (1 - abs (F64.Mod (h / 60) 2 - 1)))%float) in *.
  destruct (add_approx x 0.25%float vx _ 0 Hx W25) as (s & Hs & Es & _); try lia.
  { cbn [powerRZ]. apply Rabs_le. lra. }
  change (Z.max (0 - 52) (-1074)) with (-52)%Z in Es.
  rewrite powerRZ_2_neg in Es. change (2 ^ 52)%Z with 4503599627370496%Z in Es.
  apply Rabs_le_bounds in Es.
  assert (X1 : (x + 0.25 <? 0)%float = false)
    by (apply (ltb_false_of_value (x + 0.25)%float 0%float s 0 Hs eq_refl); lra).
  assert (X2 : (1 <? x + 0.25)%float = false)
    by (apply (ltb_false_of_value 1%float (x + 0.25)%float _ s W1 Hs); lra).
  assert (L6 : (h / 60 <=? 6)%float = true)
    by (apply (leb_of_value _ _ a _ Ha W6); lra).
  change (0.5 + 0.25 <? 0)%float with false in *.
  destruct (h / 60 <=? 1)%float; [|destruct (h / 60 <=? 2)%float;
    [|destruct (h / 60 <=? 3)%float; [|destruct (h / 60 <=? 4)%float;
      [|destruct (h / 60 <=? 5)%float; [|rewrite L6]]]]];
    rewrite ?X1, ?X2;
    change (0.5 + 0.25 <? 0)%float with false;
    change (1 <? 0.5 + 0.25)%float with false;
    change (0 + 0.25 <? 0)%float with false;
    change (1 <? 0 + 0.25)%float with false;
    rewrite ?X1, ?X2; cbn [orb]; eexists; reflexivity.
Qed.

End HalfLightness.

Section Landmarks.
Local Open Scope R_scope.

(** A zero times a finite float is a zero. *)
Lemma mul_zero_l (z w : float) (vw : R) :
  z = 0%float \/ z = neg_zero -> F64.value w = Some vw ->
  (z * w = 0 \/ z * w = neg_zero)%float.
Proof.
  intros Hz Hw. unfold F64.value in Hw.
  assert (H : exists b, Prim2SF (z * w)%float = S754_zero b).
  { rewrite mul_spec.
    destruct (Prim2SF w) as [s|s| |s m e]; try discriminate;
      destruct Hz as [->| ->]; eexists; reflexivity. }
  destruct H as ([|] & H).
  - right. apply Prim2SF_inj. rewrite H. reflexivity.
  - left. apply Prim2SF_inj. rewrite H. reflexivity.
Qed.

(** X16: on binary64, for every finite hue and saturation that pass the
    checks, lightness 0 gives black and lightness 1 gives white: the chroma
    is a zero of either sign, the hue fraction stays within the six
    sectors and no range check fires.  At saturation and lightness one
    half, as [colourise] calls it, [hslToRGB] returns a colour for every
    such hue. *)
Theorem hslToRGB_landmarks (hue saturation : float) (vh vs : R) :
  F64.value hue = Some vh -> F64.value saturation = Some vs ->
  0 <= vh <= 360 -> 0 <= vs <= 1 ->
  hslToRGB hue saturation 0 = Returns (mkRGBA 0 0 0 255)
  /\ hslToRGB hue saturation 1 = Returns (mkRGBA 255 255 255 255)
  /\ exists p, hslToRGB hue 0.5 0.5 = Returns p.
Proof.
  intros Hh Hs Bh Bs.
  float_const 360%float W360. float_const 6%float W6. float_const 1%float W1.
  destruct (hue_fraction hue vh Hh Bh) as (a & Ha & Ba).
  destruct (sector_weight _ a Ha ltac:(lra)) as (w & Hw & _).
  assert (L6 : (hue / 60 <=? 6)%float = true)
    by (apply (leb_of_value _ _ a _ Ha W6); lra).
  assert (C1 : (hue <? 0)%float = false)
    by (apply (ltb_false_of_value hue 0%float vh 0 Hh eq_refl); lra).
  assert (C2 : (360 <? hue)%float = false)
    by (apply (ltb_false_of_value 360%float hue _ vh W360 Hh); lra).
  assert (C3 : (saturation <? 0)%float = false)
    by (apply (ltb_false_of_value saturation 0%float vs 0 Hs eq_refl); lra).
  assert (C4 : (1 <? saturation)%float = false)
    by (apply (ltb_false_of_value 1%float saturation _ vs W1 Hs); lra).
  set (wt := (1 - abs (F64.Mod (hue / 60) 2 - 1))%float) in *.
  assert (Fin : forall c x : float,
             (c = 0 \/ c = neg_zero)%float -> (x = 0 \/ x = neg_zero)%float ->
             forall l : float, l = 0%float \/ l = 1%float ->
             match
               (if (hue / 60 <=? 1)%float then Some (c, x, 0%float)
                else if (hue / 60 <=? 2)%float then Some (x, c, 0%float)
                else if (hue / 60 <=? 3)%float then Some (0%float, c, x)
                else if (hue / 60 <=? 4)%float then Some (0%float, x, c)
                else if (hue / 60 <=? 5)%float then Some (x, 0%float, c)
                else if (hue / 60 <=? 6)%float then Some (c, 0%float, x)
                else None)
             with
             | Some (r, g, b) =>
                 if ((r + (l - 0.5 * c) <? 0) || (1 <? r + (l - 0.5 * c)))%float
                 then Panics (PanicR (r + (l - 0.5 * c)))
                 else if ((g + (l - 0.5 * c) <? 0) || (1 <? g + (l - 0.5 * c)))%float
                 then Panics (PanicG (g + (l - 0.5 * c)))
                 else if ((b + (l - 0.5 * c) <? 0) || (1 <? b + (l - 0.5 * c)))%float
                 then Panics (PanicB (b + (l - 0.5 * c)))
                 else Returns (mkRGBA (F64.to_uint8 ((r + (l - 0.5 * c)) * 255))
                                      (F64.to_uint8 ((g + (l - 0.5 * c)) * 255))
                                      (F64.to_uint8 ((b + (l - 0.5 * c)) * 255)) 255)
             | None => Panics PanicSwitchDefault
             end
             = Returns (if (l =? 0)%float then mkRGBA 0 0 0 255
                        else mkRGBA 255 255 255 255)).
  { intros c x Hc Hx l Hl.
    destruct (hue / 60 <=? 1)%float; [|destruct (hue / 60 <=? 2)%float;
      [|destruct (hue / 60 <=? 3)%float; [|destruct (hue / 60 <=? 4)%float;
        [|destruct (hue / 60 <=? 5)%float; [|rewrite L6]]]]];
      destruct Hc as [-> | ->], Hx as [-> | ->], Hl as [-> | ->]; reflexivity. }
  pose proof (mul_zero_l 0%float saturation vs (or_introl eq_refl) Hs) as Hc.
  assert (Hx : ((0 * saturation) * wt = 0 \/ (0 * saturation) * wt = neg_zero)%float)
    by (apply (mul_zero_l _ wt w Hc Hw)).
  split; [|split].
  - unfold hslToRGB. rewrite C1, C2, C3, C4. cbn [orb].
    change (0 <? 0)%float with false. change (1 <? 0)%float with false.
    cbn [orb]. cbv zeta.
    change (1 - abs (2 * 0 - 1))%float with 0%float.
    apply (Fin _ _ Hc Hx 0%float). now left.
  - unfold hslToRGB. rewrite C1, C2, C3, C4. cbn [orb].
    change (1 <? 0)%float with false. change (1 <? 1)%float with false.
    cbn [orb]. cbv zeta.
    change (1 - abs (2 * 1 - 1))%float with 0%float.
    apply (Fin _ _ Hc Hx 1%float). now right.
  - apply (hslToRGB_half hue vh Hh Bh).
Qed.

End Landmarks.

(** ** [colourise] *)

Section ColouriseFacts.
Local Open Scope R_scope.

Lemma value_none (f : float) :
  F64.value f = None ->
  Prim2SF f = S754_nan \/ exists s, Prim2SF f = S754_infinity s.
Proof.
  unfold F64.value. destruct (Prim2SF f) as [s|s| |s m e]; try discriminate; intros _.
  - right. now exists s.
  - now left.
Qed.

Lemma Mod_not_finite (x y : float) : F64.value x = None -> F64.Mod x y = nan.
Proof.
  intros H. unfold F64.Mod.
  destruct (value_none x H) as [->|(s & ->)]; [reflexivity|].
  destruct (Prim2SF y); reflexivity.
Qed.

Lemma value_360 : Prim2SF 360%float = S754_finite false 6333186975989760 (-44).
Proof. reflexivity. Qed.

Lemma SFval_360 : IZR (Z.pos 6333186975989760) * powerRZ 2 (-44) = 360.
Proof.
  rewrite powerRZ_2_neg. change (2 ^ 44)%Z with 17592186044416%Z. lra.
Qed.

(** [colourise] when the hue argument [value*215 + 360] is not finite. *)
Lemma colourise_not_finite (value : float) :
  F64.value (value * 215 + 360)%float = None ->
  colourise value = Panics PanicSwitchDefault.
Proof.
  intros H. unfold colourise. cbv zeta. rewrite (Mod_not_finite _ _ H).
  reflexivity.
Qed.

(** [colourise] when the hue argument is finite and not negative. *)
Lemma colourise_nonneg (value : float) (t : R) :
  F64.value (value * 215 + 360)%float = Some t -> 0 <= t ->
  exists p, colourise value = Returns p.
Proof.
  intros H Ht. unfold colourise. cbv zeta.
  destruct (Mod_value _ 360%float t _ _ _ H value_360)
    as (v & k & Hv & _ & Bv & Pv & _).
  rewrite SFval_360 in Bv. specialize (Pv Ht).
  rewrite Rabs_pos_eq in Bv by lra.
  apply (hslToRGB_half _ v Hv). lra.
Qed.

(** [colourise] when the hue argument is finite and negative: the
    remainder keeps the sign, so the hue check fails, unless the argument
    is a whole multiple of 360 and the remainder is [-0]. *)
Lemma colourise_negative (value : float) (t : R) :
  F64.value (value * 215 + 360)%float = Some t -> t < 0 ->
  ((exists k, t = IZR k * 360) ->
   colourise value = Returns (mkRGBA 191 63 63 255))
  /\ (~ (exists k, t = IZR k * 360) -> colourise value = Panics PanicHue).
Proof.
  intros H Ht. unfold colourise. cbv zeta.
  destruct (Mod_value _ 360%float t _ _ _ H value_360)
    as (v & k & Hv & Hk & Bv & _ & Nv & Zv).
  rewrite SFval_360 in Bv, Hk. specialize (Nv ltac:(lra)).
  split.
  - intros (j & Hj).
    assert (Hv0 : v = 0).
    { assert (Hd : v = IZR (j - k) * 360) by (rewrite minus_IZR; lra).
      rewrite Rabs_left1 in Bv by exact Nv.
      destruct (Z.eq_dec (j - k) 0) as [E|N]; [rewrite E in Hd; lra|exfalso].
      assert (Hc : (j - k <= -1 \/ 1 <= j - k)%Z) by lia.
      destruct Hc as [Hc|Hc]; apply IZR_le in Hc; lra. }
    rewrite (Zv Ht Hv0). reflexivity.
  - intros Hn.
    assert (Hv0 : v < 0).
    { destruct (Req_dec v 0) as [E|N]; [|lra].
      exfalso. apply Hn. exists k. lra. }
    unfold hslToRGB.
    rewrite (ltb_of_value _ 0%float v 0 Hv eq_refl Hv0). reflexivity.
Qed.

(** X17: the outcome of [colourise] for every float64, by the hue
    argument [value*215 + 360] it computes: a panic in the default branch of
    the switch when that is NaN or infinite, a colour when it is not
    negative, and when it is negative a panic on the hue, because [math.Mod]
    keeps the sign, except at the whole multiples of 360, where the
    remainder is [-0] and passes. *)
Theorem colourise_outcome (value : float) :
  match F64.value (value * 215 + 360)%float with
  | None => colourise value = Panics PanicSwitchDefault
  | Some t =>
      (0 <= t -> exists p, colourise value = Returns p)
      /\ (t < 0 -> (exists k, t = IZR k * 360) ->
          colourise value = Returns (mkRGBA 191 63 63 255))
      /\ (t < 0 -> ~ (exists k, t = IZR k * 360) ->
          colourise value = Panics PanicHue)
  end.
Proof.
  destruct (F64.value (value * 215 + 360)%float) as [t|] eqn:H.
  - split; [now apply colourise_nonneg|].
    split; intros Ht; now apply (colourise_negative value t H Ht).
  - now apply colourise_not_finite.
Qed.

End ColouriseFacts.

Section ColouriseDomain.
Local Open Scope R_scope.

Lemma hue_argument_not_finite (value : float) :
  F64.value value = None -> F64.value (value * 215 + 360)%float = None.
Proof.
  intros H. unfold F64.value. rewrite add_spec, mul_spec.
  destruct (value_none value H) as [->|(s & ->)]; [reflexivity|].
  destruct s; reflexivity.
Qed.

(** X18: the domain of [colourise] on binary64, by its argument: a colour from
    -1.674 up, a panic on the hue between -3.348 and -1.675 (where
    [math.Mod] returns a negative remainder), and a panic in the default
    branch of the switch for NaN, the infinities and as soon as
    [value * 215] overflows. *)
Theorem colourise_domain :
  (forall value r, F64.value value = Some r ->
     - (1674 / 1000) <= r <= powerRZ 2 1000 ->
     exists p, colourise value = Returns p)
  /\ (forall value r, F64.value value = Some r ->
        - (3348 / 1000) <= r <= - (1675 / 1000) ->
        colourise value = Panics PanicHue)
  /\ (forall value, F64.value value = None ->
        colourise value = Panics PanicSwitchDefault)
  /\ colourise 1e306 = Panics PanicSwitchDefault.
Proof.
  float_const 215%float W215. float_const 360%float W360.
  assert (V215 : F64.value 215%float = Some 215) by (rewrite W215; f_equal; lra).
  assert (V360 : F64.value 360%float = Some 360) by (rewrite W360; f_equal; lra).
  assert (E43 : powerRZ 2 (-43) = / 8796093022208)
    by (rewrite powerRZ_2_neg; reflexivity).
  assert (E42 : powerRZ 2 (-42) = / 4398046511104)
    by (rewrite powerRZ_2_neg; reflexivity).
  split; [|split; [|split]].
  - intros value r Hv [Hlo Hhi].
    destruct (Rle_dec 0 r) as [Hpos|Hneg].
    + (* not negative: the signs are kept *)
      destruct (mul_approx value 215%float r 215 1008 Hv V215 Hpos ltac:(lra))
        as (p & Hp & Ep & Sp); try lia.
      { replace 1008%Z with (1000 + 8)%Z by lia. rewrite powerRZ_2_add.
        change (powerRZ 2 8) with (2 * (2 * (2 * (2 * (2 * (2 * (2 * (2 * 1)))))))).
        pose proof (powerRZ_2_pos 1000). lra. }
      specialize (Sp ltac:(lra)).
      change (Z.max (1008 - 52) (-1074)) with 956%Z in Ep.
      apply Rabs_le_bounds in Ep.
      assert (P1 : powerRZ 2 1008 = powerRZ 2 1000 * 256).
      { replace 1008%Z with (1000 + 8)%Z by lia. rewrite powerRZ_2_add.
        change (powerRZ 2 8) with (2 * (2 * (2 * (2 * (2 * (2 * (2 * (2 * 1)))))))).
        ring. }
      assert (P2 : powerRZ 2 1010 = powerRZ 2 1000 * 1024).
      { replace 1010%Z with (1000 + 10)%Z by lia. rewrite powerRZ_2_add.
        change (powerRZ 2 10)
          with (2 * (2 * (2 * (2 * (2 * (2 * (2 * (2 * (2 * (2 * 1)))))))))).
        ring. }
      assert (P3 : powerRZ 2 956 <= powerRZ 2 1000) by (apply powerRZ_2_le; lia).
      assert (P4 : 1024 <= powerRZ 2 1000).
      { change 1024 with (IZR (2 ^ 10)). rewrite <- (powerRZ_2_nonneg 10) by lia.
        apply powerRZ_2_le. lia. }
      destruct (add_approx _ _ p 360 1010 Hp V360) as (t & Ht & _ & St); try lia.
      { rewrite P2. apply Rabs_le. lra. }
      apply (colourise_nonneg value t Ht). apply St. lra.
    + destruct (mul_approx_signed value 215%float r 215 9 Hv V215) as (p & Hp & Ep);
        try lia.
      { change (powerRZ 2 9) with (2 * (2 * (2 * (2 * (2 * (2 * (2 * (2 * (2 * 1))))))))).
        apply Rabs_le. lra. }
      change (Z.max (9 - 52) (-1074)) with (-43)%Z in Ep. rewrite E43 in Ep.
      apply Rabs_le_bounds in Ep.
      destruct (add_approx _ _ p 360 9 Hp V360) as (t & Ht & Et & _); try lia.
      { change (powerRZ 2 9) with (2 * (2 * (2 * (2 * (2 * (2 * (2 * (2 * (2 * 1))))))))).
        apply Rabs_le. lra. }
      change (Z.max (9 - 52) (-1074)) with (-43)%Z in Et. rewrite E43 in Et.
      apply Rabs_le_bounds in Et.
      apply (colourise_nonneg value t Ht). lra.
  - intros value r Hv [Hlo Hhi].
    destruct (mul_approx_signed value 215%float r 215 10 Hv V215) as (p & Hp & Ep);
      try lia.
    { change (powerRZ 2 10)
        with (2 * (2 * (2 * (2 * (2 * (2 * (2 * (2 * (2 * (2 * 1)))))))))).
      apply Rabs_le. lra. }
    change (Z.max (10 - 52) (-1074)) with (-42)%Z in Ep. rewrite E42 in Ep.
    apply Rabs_le_bounds in Ep.
    destruct (add_approx _ _ p 360 9 Hp V360) as (t & Ht & Et & _); try lia.
    { change (powerRZ 2 9) with (2 * (2 * (2 * (2 * (2 * (2 * (2 * (2 * (2 * 1))))))))).
      apply Rabs_le. lra. }
    change (Z.max (9 - 52) (-1074)) with (-43)%Z in Et. rewrite E43 in Et.
    apply Rabs_le_bounds in Et.
    assert (Ht0 : t < 0) by lra.
    apply (colourise_negative value t Ht Ht0).
    intros (k & Hk).
    assert (Hc : (k <= -1 \/ 0 <= k)%Z) by lia.
    destruct Hc as [Hc|Hc]; apply IZR_le in Hc; lra.
  - intros value Hv. apply colourise_not_finite. now apply hue_argument_not_finite.
  - vm_compute. reflexivity.
Qed.

End ColouriseDomain.

(** ** Instances *)

(** The theorems above that carry hypotheses, at concrete inputs. *)

Lemma simplexTorus_octave_sum_witness :
  (GoInt.min_int <= 0)%Z /\ (0 + 16 < GoInt.max_int)%Z
  /\ simplexTorus (fun x => x) (fun x => x) (fun a _ _ _ => a)
       (mkVector 1 0) (mkTileCoords 0 0 0)
     = octaveSum (fun x => x) (fun x => x) (fun a _ _ _ => a)
         (mkVector 1 0) (Z.to_nat (0 + 16)).
Proof.
  split; [vm_compute; discriminate|].
  split; [vm_compute; reflexivity|].
  apply (simplexTorus_octave_sum (fun x => x) (fun x => x) (fun a _ _ _ => a)
           (mkVector 1 0) (mkTileCoords 0 0 0)).
  - vm_compute; discriminate.
  - vm_compute; reflexivity.
Defined.

Lemma simplexTorus_zoom_only_witness :
  coordZ (mkTileCoords 3 1 2) = coordZ (mkTileCoords 3 5 6)
  /\ simplexTorus (fun x => x) (fun x => x) (fun a _ _ _ => a)
       (mkVector 1 0) (mkTileCoords 3 1 2)
     = simplexTorus (fun x => x) (fun x => x) (fun a _ _ _ => a)
         (mkVector 1 0) (mkTileCoords 3 5 6).
Proof.
  split; [reflexivity|].
  apply (simplexTorus_zoom_only (fun x => x) (fun x => x) (fun a _ _ _ => a)
           (mkVector 1 0) (mkTileCoords 3 1 2) (mkTileCoords 3 5 6)).
  reflexivity.
Defined.

Lemma tileExtent_exact_up_to_zoom_53_witness :
  validTileCoords (mkTileCoords 3 7 0) /\ (3 <= 53)%Z
  /\ extentSpec (mkTileCoords 3 7 0) (tileExtent (mkTileCoords 3 7 0))
  /\ extentProper (mkTileCoords 3 7 0) (tileExtent (mkTileCoords 3 7 0)).
Proof.
  assert (Hv : validTileCoords (mkTileCoords 3 7 0)).
  { unfold validTileCoords. cbn [coordZ coordX coordY].
    change (2 ^ 3)%Z with 8%Z. lia. }
  assert (Hz : (coordZ (mkTileCoords 3 7 0) <= 53)%Z) by (cbn [coordZ]; lia).
  destruct (tileExtent_exact_up_to_zoom_53 (mkTileCoords 3 7 0) Hv Hz) as (H1 & H2 & _).
  split; [exact Hv|]. split; [lia|]. split; [exact H1|exact H2].
Defined.

Lemma renderTile_pixels_witness :
  octavesEnd (mkTileCoords 0 0 0) /\ (0 < 256)%nat /\ (0 < 256)%nat
  /\ RGBAAt (renderTile (fun x => x) (fun x => x) (fun a _ _ _ => a)
               (mkTileCoords 0 0 0)) 0 0
     = colouriseByValue
         (simplexTorus (fun x => x) (fun x => x) (fun a _ _ _ => a)
            (pixelPoint (tileExtent (mkTileCoords 0 0 0)) 0 0) (mkTileCoords 0 0 0)).
Proof.
  assert (He : octavesEnd (mkTileCoords 0 0 0)) by (vm_compute; discriminate).
  split; [exact He|]. split; [lia|]. split; [lia|].
  apply (renderTile_pixels (fun x => x) (fun x => x) (fun a _ _ _ => a)
           (mkTileCoords 0 0 0) 0 0 He); lia.
Defined.

Lemma renderTile_deterministic_witness :
  (forall a b c d : float, (fun a _ _ _ => a) a b c d = (fun a _ _ _ => a) a b c d)
  /\ renderTile (fun x => x) (fun x => x) (fun a _ _ _ => a) (mkTileCoords 0 0 0)
     = renderTile (fun x => x) (fun x => x) (fun a _ _ _ => a) (mkTileCoords 0 0 0).
Proof.
  split; [intros; reflexivity|].
  apply (renderTile_deterministic (fun x => x) (fun x => x)
           (fun a _ _ _ => a) (fun a _ _ _ => a) (mkTileCoords 0 0 0)).
  intros; reflexivity.
Defined.

Lemma extractTileCoords_leading_zeros_witness :
  isDecimal "3" /\ isDecimal "7" /\ isDecimal "0"
  /\ extractTileCoords ("/" ++ ("0" ++ "3") ++ "/" ++ ("0" ++ "7") ++ "/"
                        ++ ("0" ++ "0") ++ ".png")%string
     = extractTileCoords ("/" ++ "3" ++ "/" ++ "7" ++ "/" ++ "0" ++ ".png")%string.
Proof.
  assert (D3 : isDecimal "3").
  { split; [discriminate|]. intros c [<-|[]]. reflexivity. }
  assert (D7 : isDecimal "7").
  { split; [discriminate|]. intros c [<-|[]]. reflexivity. }
  assert (D0 : isDecimal "0").
  { split; [discriminate|]. intros c [<-|[]]. reflexivity. }
  split; [exact D3|]. split; [exact D7|]. split; [exact D0|].
  apply (extractTileCoords_leading_zeros "3" "7" "0" D3 D7 D0).
Defined.

Lemma extractTileCoords_guards_int_arithmetic_witness :
  extractTileCoords "/3/7/0.png" = inr (mkTileCoords 3 7 0)
  /\ GoInt.ushl 1 (GoInt.to_uint (coordZ (mkTileCoords 3 7 0)))
     = (2 ^ coordZ (mkTileCoords 3 7 0))%Z
  /\ GoInt.add (coordZ (mkTileCoords 3 7 0)) 16 = (coordZ (mkTileCoords 3 7 0) + 16)%Z.
Proof.
  assert (H : extractTileCoords "/3/7/0.png" = inr (mkTileCoords 3 7 0))
    by (vm_compute; reflexivity).
  split; [exact H|].
  destruct (extractTileCoords_guards_int_arithmetic "/3/7/0.png" (mkTileCoords 3 7 0) H)
    as (H1 & _ & _ & H4 & _).
  split; [exact H1|exact H4].
Defined.

Lemma tileExtent_shared_edge_witness :
  (GoInt.min_int <= 1)%Z /\ (1 + 1 <= GoInt.max_int)%Z
  /\ X (Max (tileExtent (mkTileCoords 3 1 0)))
     = X (Min (tileExtent (mkTileCoords 3 (1 + 1) 5))).
Proof.
  assert (H1 : (GoInt.min_int <= 1)%Z) by (vm_compute; discriminate).
  assert (H2 : (1 + 1 <= GoInt.max_int)%Z) by (vm_compute; discriminate).
  split; [exact H1|]. split; [exact H2|].
  exact (proj1 (tileExtent_shared_edge 3 1 0 5 H1 H2)).
Defined.

Lemma tileExtent_descendants_witness :
  validTileCoords (mkTileCoords 1 1 0) /\ (0 <= 2)%Z
  /\ (coordZ (mkTileCoords 1 1 0) + 2 <= 53)%Z
  /\ Min (tileExtent (mkTileCoords (coordZ (mkTileCoords 1 1 0) + 2)
                        (2 ^ 2 * coordX (mkTileCoords 1 1 0))
                        (2 ^ 2 * coordY (mkTileCoords 1 1 0))))
     = Min (tileExtent (mkTileCoords 1 1 0)).
Proof.
  assert (Hv : validTileCoords (mkTileCoords 1 1 0)).
  { unfold validTileCoords. cbn [coordZ coordX coordY].
    change (2 ^ 1)%Z with 2%Z. lia. }
  assert (Hk : (0 <= 2)%Z) by lia.
  assert (Hz : (coordZ (mkTileCoords 1 1 0) + 2 <= 53)%Z) by (cbn [coordZ]; lia).
  split; [exact Hv|]. split; [exact Hk|]. split; [exact Hz|].
  exact (proj1 (tileExtent_descendants (mkTileCoords 1 1 0) 2 Hv Hk Hz)).
Defined.

Lemma tileExtent_square_witness :
  validTileCoords (mkTileCoords 3 1 2) /\ (coordZ (mkTileCoords 3 1 2) <= 53)%Z
  /\ (X (Max (tileExtent (mkTileCoords 3 1 2))) - X (Min (tileExtent (mkTileCoords 3 1 2)))
      = Y (Max (tileExtent (mkTileCoords 3 1 2))) - Y (Min (tileExtent (mkTileCoords 3 1 2))))%float.
Proof.
  assert (Hv : validTileCoords (mkTileCoords 3 1 2)).
  { unfold validTileCoords. cbn [coordZ coordX coordY].
    change (2 ^ 3)%Z with 8%Z. lia. }
  assert (Hz : (coordZ (mkTileCoords 3 1 2) <= 53)%Z) by (cbn [coordZ]; lia).
  split; [exact Hv|]. split; [exact Hz|].
  exact (tileExtent_square (mkTileCoords 3 1 2) Hv Hz).
Defined.

Lemma renderTile_samples_eight_levels_down_witness :
  validTileCoords (mkTileCoords 1 1 0) /\ (coordZ (mkTileCoords 1 1 0) <= 45)%Z
  /\ (3 < 256)%nat /\ (5 < 256)%nat
  /\ RGBAAt (renderTile (fun x => x) (fun x => x) (fun a _ _ _ => a)
               (mkTileCoords 1 1 0)) 3 5
     = colouriseByValue
         (simplexTorus (fun x => x) (fun x => x) (fun a _ _ _ => a)
            (Min (tileExtent (mkTileCoords (coordZ (mkTileCoords 1 1 0) + 8)
                                (256 * coordX (mkTileCoords 1 1 0) + Z.of_nat 3)
                                (256 * coordY (mkTileCoords 1 1 0) + Z.of_nat 5))))
            (mkTileCoords 1 1 0)).
Proof.
  assert (Hv : validTileCoords (mkTileCoords 1 1 0)).
  { unfold validTileCoords. cbn [coordZ coordX coordY].
    change (2 ^ 1)%Z with 2%Z. lia. }
  assert (Hz : (coordZ (mkTileCoords 1 1 0) <= 45)%Z) by (cbn [coordZ]; lia).
  assert (Hx : (3 < 256)%nat) by lia.
  assert (Hy : (5 < 256)%nat) by lia.
  split; [exact Hv|]. split; [exact Hz|]. split; [exact Hx|]. split; [exact Hy|].
  exact (renderTile_samples_eight_levels_down (fun x => x) (fun x => x)
           (fun a _ _ _ => a) (mkTileCoords 1 1 0) 3 5 Hv Hz Hx Hy).
Defined.

Lemma tileExtent_not_finite_outside_shift_range_witness :
  (GoInt.min_int <= coordZ (mkTileCoords 64 0 0) <= GoInt.max_int)%Z
  /\ ~ (0 <= coordZ (mkTileCoords 64 0 0) <= 63)%Z
  /\ F64.value (X (Min (tileExtent (mkTileCoords 64 0 0)))) = None.
Proof.
  assert (H1 : (GoInt.min_int <= coordZ (mkTileCoords 64 0 0) <= GoInt.max_int)%Z).
  { split; vm_compute; discriminate. }
  assert (H2 : ~ (0 <= coordZ (mkTileCoords 64 0 0) <= 63)%Z) by (cbn [coordZ]; lia).
  split; [exact H1|]. split; [exact H2|].
  exact (proj1 (tileExtent_not_finite_outside_shift_range (mkTileCoords 64 0 0) H1 H2)).
Defined.

Lemma tileExtent_injective_witness :
  validTileCoords (mkTileCoords 3 1 2) /\ validTileCoords (mkTileCoords 3 1 2)
  /\ (coordZ (mkTileCoords 3 1 2) <= 53)%Z
  /\ tileExtent (mkTileCoords 3 1 2) = tileExtent (mkTileCoords 3 1 2)
  /\ mkTileCoords 3 1 2 = mkTileCoords 3 1 2.
Proof.
  assert (Hv : validTileCoords (mkTileCoords 3 1 2)).
  { unfold validTileCoords. cbn [coordZ coordX coordY].
    change (2 ^ 3)%Z with 8%Z. lia. }
  assert (Hz : (coordZ (mkTileCoords 3 1 2) <= 53)%Z) by (cbn [coordZ]; lia).
  split; [exact Hv|]. split; [exact Hv|]. split; [exact Hz|].
  split; [reflexivity|].
  exact (tileExtent_injective (mkTileCoords 3 1 2) (mkTileCoords 3 1 2)
           Hv Hv Hz Hz eq_refl).
Defined.

Lemma simplexTorus_next_zoom_witness :
  (-16 <= 0)%Z /\ (0 + 17 < GoInt.max_int)%Z
  /\ simplexTorus (fun x => x) (fun x => x) (fun a _ _ _ => a)
       (mkVector 1 0) (mkTileCoords (0 + 1) 1 1)
     = (simplexTorus (fun x => x) (fun x => x) (fun a _ _ _ => a)
          (mkVector 1 0) (mkTileCoords 0 0 0)
        + octave (fun x => x) (fun x => x) (fun a _ _ _ => a)
            (mkVector 1 0) (Z.to_nat (0 + 17)))%float.
Proof.
  assert (H1 : (-16 <= 0)%Z) by lia.
  assert (H2 : (0 + 17 < GoInt.max_int)%Z) by (vm_compute; reflexivity).
  split; [exact H1|]. split; [exact H2|].
  exact (simplexTorus_next_zoom (fun x => x) (fun x => x) (fun a _ _ _ => a)
           (mkVector 1 0) 0 0 0 1 1 H1 H2).
Defined.

Lemma hslToRGB_nan_hue_witness :
  (0.5 <? 0)%float = false /\ (1 <? 0.5)%float = false
  /\ (0.25 <? 0)%float = false /\ (1 <? 0.25)%float = false
  /\ hslToRGB nan 0.5 0.25 = Panics PanicSwitchDefault.
Proof.
  split; [reflexivity|]. split; [reflexivity|].
  split; [reflexivity|]. split; [reflexivity|].
  exact (hslToRGB_nan_hue 0.5 0.25 eq_refl eq_refl eq_refl eq_refl).
Defined.

Lemma mandelbrot_nan_witness :
  (X (mkVector nan 0) = nan \/ Y (mkVector nan 0) = nan)
  /\ mandelbrot (fun x => x) (mkVector nan 0) = 0%float.
Proof.
  assert (H : X (mkVector nan 0) = nan \/ Y (mkVector nan 0) = nan)
    by (left; reflexivity).
  split; [exact H|].
  exact (mandelbrot_nan (fun x => x) (mkVector nan 0) H).
Defined.

Lemma tileExtent_world_border_witness :
  validTileCoords (mkTileCoords 3 0 7) /\ (coordZ (mkTileCoords 3 0 7) <= 53)%Z
  /\ coordX (mkTileCoords 3 0 7) = 0%Z
  /\ X (Min (tileExtent (mkTileCoords 3 0 7))) = (-2)%float.
Proof.
  assert (Hv : validTileCoords (mkTileCoords 3 0 7)).
  { unfold validTileCoords. cbn [coordZ coordX coordY].
    change (2 ^ 3)%Z with 8%Z. lia. }
  assert (Hz : (coordZ (mkTileCoords 3 0 7) <= 53)%Z) by (cbn [coordZ]; lia).
  split; [exact Hv|]. split; [exact Hz|]. split; [reflexivity|].
  exact (proj1 (tileExtent_world_border (mkTileCoords 3 0 7) Hv Hz) eq_refl).
Defined.

Lemma tileExtent_error_bound_witness :
  validTileCoords (mkTileCoords 60 5 7) /\ (coordZ (mkTileCoords 60 5 7) <= 62)%Z
  /\ within (X (Min (tileExtent (mkTileCoords 60 5 7))))
            (4 * (tileFraction (coordX (mkTileCoords 60 5 7))
                    (coordZ (mkTileCoords 60 5 7)) - 1 / 2))%R
            (powerRZ 2 (-48)).
Proof.
  assert (Hv : validTileCoords (mkTileCoords 60 5 7)).
  { unfold validTileCoords. cbn [coordZ coordX coordY].
    change (2 ^ 60)%Z with 1152921504606846976%Z. lia. }
  assert (Hz : (coordZ (mkTileCoords 60 5 7) <= 62)%Z) by (cbn [coordZ]; lia).
  split; [exact Hv|]. split; [exact Hz|].
  exact (proj1 (tileExtent_error_bound (mkTileCoords 60 5 7) Hv Hz)).
Defined.

Lemma simplexTorus_finite_witness :
  (forall a b c d : float,
      exists v, F64.value ((fun _ _ _ _ => 1%float) a b c d) = Some v
                /\ (Rabs v <= 1)%R)
  /\ (GoInt.min_int <= coordZ (mkTileCoords 3 1 2) <= 62)%Z
  /\ exists v, F64.value (simplexTorus (fun x => x) (fun x => x)
                            (fun _ _ _ _ => 1%float) (mkVector 1 0)
                            (mkTileCoords 3 1 2)) = Some v
               /\ (Rabs v <= 2 + / 4398046511104)%R.
Proof.
  assert (H : forall a b c d : float,
             exists v, F64.value ((fun _ _ _ _ => 1%float) a b c d) = Some v
                       /\ (Rabs v <= 1)%R).
  { intros a b c d. cbv beta. float_const 1%float H1.
    eexists. split; [exact H1|]. rewrite Rabs_pos_eq; lra. }
  assert (Hz : (GoInt.min_int <= coordZ (mkTileCoords 3 1 2) <= 62)%Z).
  { cbn [coordZ]. split; [vm_compute; discriminate|lia]. }
  split; [exact H|]. split; [exact Hz|].
  exact (simplexTorus_finite (fun x => x) (fun x => x) (fun _ _ _ _ => 1%float) H
           (mkVector 1 0) (mkTileCoords 3 1 2) Hz).
Defined.

Local Open Scope R_scope.

Lemma simplexTorus_period_4_witness :
  closeTo (simplexTorus (fun _ => 1%float) (fun _ => 0%float) (fun _ _ _ _ => 1%float)
             (mkVector 0 0) (mkTileCoords 0 0 0))
          (simplexTorus (fun _ => 1%float) (fun _ => 0%float) (fun _ _ _ _ => 1%float)
             (mkVector 4 0) (mkTileCoords 0 0 0))
          (wrapTolerance 2 0 0).
Proof.
  float_const 1%float W1. float_const 4%float W4.
  assert (V1 : F64.value 1%float = Some 1) by (rewrite W1; f_equal; lra).
  assert (V4 : F64.value 4%float = Some 4) by (rewrite W4; f_equal; lra).
  apply (simplexTorus_period_4 (fun _ => 1%float) (fun _ => 0%float)
           (fun _ _ _ _ => 1%float) 2 0 0).
  - intros a va _. exists 1. split; [exact V1|].
    pose proof (COS_bound va). apply Rabs_le. lra.
  - intros a va _. exists 0. split; [reflexivity|].
    pose proof (SIN_bound va). apply Rabs_le. lra.
  - intros a b c d _ _ _ _. exists 1. split; [exact V1|].
    apply Rabs_le. lra.
  - intros a b c d a' b' c' d' delta (v & v' & _ & _ & Hd) _ _ _.
    exists 1, 1. repeat split; try exact V1.
    rewrite Rminus_diag, Rabs_R0. lra.
  - unfold GoInt.min_int. simpl. lia.
  - exists 0, 0, 4, 0. simpl.
    repeat split; try reflexivity; try exact V4; try (left; lra); try (right; lra);
      try (rewrite Rabs_R0; lra); try (rewrite Rabs_pos_eq; lra).
Defined.

Lemma simplexSphere_wraps_in_x_witness :
  closeTo (simplexSphere (fun _ => 1%float) (fun _ => 0%float) (fun _ b _ => b)
             (mkVector 0 1) (mkTileCoords 0 0 0))
          (simplexSphere (fun _ => 1%float) (fun _ => 0%float) (fun _ b _ => b)
             (mkVector 4 1) (mkTileCoords 0 0 0))
          (1 * (2 * 2 + powerRZ 2 (-44)) + 0).
Proof.
  float_const 1%float W1. float_const 4%float W4.
  assert (V1 : F64.value 1%float = Some 1) by (rewrite W1; f_equal; lra).
  assert (V4 : F64.value 4%float = Some 4) by (rewrite W4; f_equal; lra).
  apply (simplexSphere_wraps_in_x (fun _ => 1%float) (fun _ => 0%float)
           (fun _ b _ => b) 2 1 0).
  - intros a va _. exists 1. split; [exact V1|].
    pose proof (COS_bound va). apply Rabs_le. lra.
  - intros a va _. exists 0. split; [reflexivity|].
    pose proof (SIN_bound va). apply Rabs_le. lra.
  - intros a b c a' b' c' delta _ (v & v' & Hv & Hv' & Hd) _.
    exists v, v'. repeat split; try assumption. lra.
  - exists 0, 1, 4, 1. simpl.
    repeat split; try reflexivity; try exact V4; try exact V1;
      try (left; lra); try (right; lra);
      try (rewrite Rabs_R0; lra); try (rewrite Rabs_pos_eq; lra).
  - reflexivity.
Defined.

Lemma mandelbrot_inner_disk_witness :
  mandelbrot (fun x => x) (mkVector 0.25 0) = 0%float.
Proof.
  float_const 0.25%float W.
  apply (mandelbrot_inner_disk (fun x => x) (mkVector 0.25 0)
           (IZR 4503599627370496 / IZR 18014398509481984) 0).
  - exact W.
  - reflexivity.
  - lra.
Defined.

Lemma hslToRGB_landmarks_witness :
  hslToRGB 120 0.5 0 = Returns (mkRGBA 0 0 0 255)
  /\ hslToRGB 120 0.5 1 = Returns (mkRGBA 255 255 255 255)
  /\ exists p, hslToRGB 120 0.5 0.5 = Returns p.
Proof.
  float_const 120%float W120. float_const 0.5%float W5.
  apply (hslToRGB_landmarks 120 0.5 _ _ W120 W5); lra.
Defined.
